(** * capture_mail: the mail transcript renderer and the pipe-target driver

    A shallow embedding of [capture_mail.py].  The program reads a mail
    from standard input, echoes it to a logger, asks Python's
    [email.parser.FeedParser] for the message tree and renders the headers
    and the (possibly nested multipart) body as log records.

    Python values are modelled as follows:
    - [str] is a list of Unicode code points, [bytes] a list of bytes;
    - the logger is the sequence of records handed to it;
    - an exception is a value carrying the class name and [str(e)];
      raising is the left injection of a state-and-error monad, and the
      records logged before a raise stay logged;
    - what the interpreter and the standard library decide (codecs, the
      text of a traceback, the parser, the file system, the facts about
      the process) is a parameter of the development, see [Runtime]. *)

From Stdlib Require Import DecimalString ZifyN.
From stdpp Require Import base decidable option list numbers countable strings gmap sorting.

Set Default Proof Using "Type".

(** ** Python strings *)

(** A character is a Unicode code point; a Python [str] is a list of
    them and Python [bytes] a list of bytes. *)
Abbreviation char := N (only parsing).
Abbreviation str := (list N) (only parsing).
Abbreviation bytes := (list Byte.byte) (only parsing).

(** A string literal of the source, as a [str]. *)
Definition lit (s : string) : str :=
  (λ a, Ascii.N_of_ascii a) <$> String.list_ascii_of_string s.

Definition LF : char := 10%N.
(** The double quote. *)
Definition QUOTE : char := 34%N.

(** [s.split('\n')]: never empty, a trailing newline gives a last [''] . *)
Fixpoint split_nl (s : str) : list str :=
  match s with
  | [] => [[]]
  | c :: s' =>
      if (c =? LF)%N then [] :: split_nl s'
      else match split_nl s' with
           | [] => [[c]]
           | l :: ls => (c :: l) :: ls
           end
  end.

(** [c.isspace()] for a single character: the code points for which
    CPython's [str.isspace] holds, which are the ones [str.rstrip()]
    removes. *)
Definition isspace (c : char) : bool :=
  ((9 <=? c) && (c <=? 13) || (28 <=? c) && (c <=? 32)
   || (c =? 133) || (c =? 160) || (c =? 5760)
   || (8192 <=? c) && (c <=? 8202)
   || (c =? 8232) || (c =? 8233) || (c =? 8239) || (c =? 8287)
   || (c =? 12288))%N.

(** [s.rstrip()]. *)
Definition rstrip (s : str) : str :=
  foldr (λ c acc, match acc with
                  | [] => if isspace c then [] else [c]
                  | _ => c :: acc
                  end) [] s.

(** [str(n)] for a non-negative integer. *)
Definition str_of_nat (n : nat) : str :=
  lit (NilZero.string_of_uint (Nat.to_uint n)).

(** [sep.join(l)]. *)
Fixpoint join (sep : str) (l : list str) : str :=
  match l with
  | [] => []
  | [s] => s
  | s :: l' => s ++ sep ++ join sep l'
  end.

(** [c * n] for a one-character string. *)
Definition repeat_char (c : char) (n : nat) : str := replicate n c.

(** [s.lower()] on the ASCII letters.  Header names produced by the parser
    consist of printable ASCII characters, on which this is [str.lower]. *)
Definition lower (s : str) : str :=
  (λ c, if ((65 <=? c) && (c <=? 90))%N then (c + 32)%N else c) <$> s.

(** ** Exceptions and results *)

(** A raised exception: [e.__class__.__name__] and [str(e)].  Every
    exception of the model derives from [Exception]. *)
Record Exn : Type := mkExn { exn_class : str; exn_msg : str }.

Global Instance Exn_eq_dec : EqDecision Exn.
Proof. solve_decision. Defined.

(** The outcome of an expression that may raise. *)
Definition result (A : Type) : Type := Exn + A.

Global Instance result_ret : MRet result := λ A a, inr a.
Global Instance result_bind : MBind result :=
  λ A B f x, match x with inl e => inl e | inr a => f a end.

Definition ValueError (m : string) : Exn := mkExn (lit "ValueError") (lit m).

(** ** [str.format]

    The fragment of Python's format mini-language that the templates of
    the program are written in: literal text, the escapes [{{] and [}}],
    and auto-numbered fields [{}] and [{:spec}], where a spec is
    [[fill]align][width][type].  Named or numbered fields, conversions,
    nested fields, signs, grouping and precision do not occur in the
    templates of the program.  They can only come up where the program
    formats a template it has built from a prefix with braces; there the
    model answers with a [ValueError] of its own, which need not be the
    exception Python raises, and the statements about such templates
    assume a prefix without braces ([brace_free]). *)
Inductive fmt_arg : Type :=
| FInt (n : nat)
| FStr (s : str).

Definition is_align (c : char) : bool :=
  ((c =? 60) || (c =? 62) || (c =? 61) || (c =? 94))%N.

Definition is_digit (c : char) : bool := ((48 <=? c) && (c <=? 57))%N.

(** The decimal number written by a run of digits. *)
Definition nat_of_digits (ds : str) : nat :=
  foldl (λ acc d, 10 * acc + N.to_nat (d - 48)) 0 ds.

Fixpoint span_digits (s : str) : str * str :=
  match s with
  | c :: s' => if is_digit c
               then let '(ds, r) := span_digits s' in (c :: ds, r)
               else ([], s)
  | [] => ([], [])
  end.

(** Pad [s] to [width] with [fill]; no width, or a width not above the
    length, leaves [s] as it is. *)
Definition pad (fill : char) (align : char) (width : option nat) (s : str) : str :=
  match width with
  | None => s
  | Some w =>
      let n := w - length s in
      if (align =? 60)%N then s ++ replicate n fill
      else if (align =? 94)%N
           then replicate (n / 2) fill ++ s ++ replicate (n - n / 2) fill
           else replicate n fill ++ s
  end.

(** [format(a, spec)]. *)
Definition format_value (spec : str) (a : fmt_arg) : result str :=
  let '(fa, rest) :=
    match spec with
    | f :: al :: r =>
        if is_align al then (Some (f, al), r)
        else if is_align f then (Some (32%N, f), al :: r)
        else (None, spec)
    | [al] => if is_align al then (Some (32%N, al), []) else (None, spec)
    | [] => (None, [])
    end in
  let '(ds, ty) := span_digits rest in
  let width := match ds with [] => None | _ => Some (nat_of_digits ds) end in
  let '(fill, align) :=
    match fa with
    | Some p => p
    | None => (32%N, match a with FInt _ => 62%N | FStr _ => 60%N end)
    end in
  let body := match a with FInt n => str_of_nat n | FStr s => s end in
  let tyname := match a with FInt _ => "int" | FStr _ => "str" end in
  match ty with
  | [] => inr (pad fill align width body)
  | [t] =>
      if match a with FInt _ => (t =? 100)%N | FStr _ => (t =? 115)%N end
      then inr (pad fill align width body)
      else inl (mkExn (lit "ValueError")
                  (lit "Unknown format code '" ++ [t]
                   ++ lit "' for object of type '" ++ lit tyname ++ lit "'"))
  | _ => inl (ValueError "Invalid format specifier")
  end.

(** [template.format( *args )], read left to right: [field] holds the
    text of the replacement field being read, [k] counts the arguments
    already consumed. *)
Fixpoint format_go (t : str) (field : option str) (k : nat)
    (args : list fmt_arg) : result str :=
  match field, t with
  | None, [] => inr []
  | None, c :: t' =>
      if (c =? 123)%N then
        match t' with
        | c' :: t'' =>
            if (c' =? 123)%N
            then r ← format_go t'' None k args; mret (123%N :: r)
            else format_go t' (Some []) k args
        | [] => inl (ValueError "Single '{' encountered in format string")
        end
      else if (c =? 125)%N then
        match t' with
        | c' :: t'' =>
            if (c' =? 125)%N
            then r ← format_go t'' None k args; mret (125%N :: r)
            else inl (ValueError "Single '}' encountered in format string")
        | [] => inl (ValueError "Single '}' encountered in format string")
        end
      else r ← format_go t' None k args; mret (c :: r)
  | Some acc, [] => inl (ValueError "expected '}' before end of string")
  | Some acc, c :: t' =>
      if (c =? 125)%N then
        match reverse acc with
        | [] | 58%N :: _ =>
            match args with
            | a :: args' =>
                s ← format_value (tail (reverse acc)) a;
                r ← format_go t' None (S k) args';
                mret (s ++ r)
            | [] =>
                inl (mkExn (lit "IndexError")
                       (lit "Replacement index " ++ str_of_nat k
                        ++ lit " out of range for positional args tuple"))
            end
        | _ => inl (ValueError "unsupported replacement field")
        end
      else format_go t' (Some (c :: acc)) k args
  end.

Definition py_format (template : str) (args : list fmt_arg) : result str :=
  format_go template None 0 args.

(** ** The process: logger, error stream, capture file *)

Inductive Level : Type := DEBUG | INFO | ERROR.

Global Instance Level_eq_dec : EqDecision Level.
Proof. solve_decision. Defined.

(** What the program has done to the outside: the records handed to the
    logger (in [main] the threshold is [INFO] or [DEBUG] and the program
    logs at [INFO] and [ERROR], so every record reaches the handler), the
    strings written to [sys.stderr] by the program itself, and the
    variable [out_file] of [capture_mail]: [None], or the capture file
    with the strings written to it. *)
Record World : Type := mkWorld {
  w_log : list (Level * str);
  w_stderr : list str;
  w_out_file : option (list str)
}.

Definition empty_world : World := mkWorld [] [] None.

(** Statements: a state transformer that returns or raises.  The world
    reached when an exception is raised is kept. *)
Definition M (A : Type) : Type := World → result A * World.

Global Instance M_ret : MRet M := λ A a w, (inr a, w).
Global Instance M_bind : MBind M :=
  λ A B f m w, match m w with
               | (inl e, w') => (inl e, w')
               | (inr a, w') => f a w'
               end.

Definition raise {A} (e : Exn) : M A := λ w, (inl e, w).

(** An expression evaluated inside a statement. *)
Definition lift {A} (r : result A) : M A := λ w, (r, w).

(** [logger.log(level, msg)]. *)
Definition logger_log (level : Level) (msg : str) : M unit :=
  λ w, (inr (), mkWorld (w_log w ++ [(level, msg)]) (w_stderr w) (w_out_file w)).

(** [logger.log(level, template.format( *args ))]: the message is built
    first, so a raising [format] logs nothing. *)
Definition logt (level : Level) (template : str) (args : list fmt_arg) : M unit :=
  msg ← lift (py_format template args); logger_log level msg.

Definition logf (level : Level) (template : string) (args : list fmt_arg) : M unit :=
  logt level (lit template) args.

(** [sys.stderr.write(s)]. *)
Definition stderr_write (s : str) : M unit :=
  λ w, (inr (), mkWorld (w_log w) (w_stderr w ++ [s]) (w_out_file w)).

(** [for x in l: body(x)]. *)
Definition for_each {A} (body : A → M unit) : list A → M unit :=
  fix go l := match l with
              | [] => mret ()
              | x :: l' => body x;; go l'
              end.

(** [for i, x in enumerate(l): body(i, x)], counting from [i]. *)
Definition for_enumerate {A} (body : nat → A → M unit) : nat → list A → M unit :=
  fix go i l := match l with
                | [] => mret ()
                | x :: l' => body i x;; go (S i) l'
                end.

(** [try: body  except Exception as e: handler(e)]. *)
Definition try_except {A} (body : M A) (handler : Exn → M A) : M A :=
  λ w, match body w with
       | (inl e, w') => handler e w'
       | r => r
       end.

(** [try: body  finally: final]: [final] runs on both exits; an exception
    of [body] is raised again after it unless [final] raises itself. *)
Definition try_finally {A} (body : M A) (final : M unit) : M A :=
  λ w, match body w with
       | (r, w') => match final w' with
                    | (inl e, w'') => (inl e, w'')
                    | (inr _, w'') => (r, w'')
                    end
       end.

(** ** The interpreter and the standard library *)

(** A codec: what [bytes.decode] and [str.encode] do with the default
    [errors='strict'], raising instead of substituting.  [codec_encode]
    answers [None] where [str.encode] raises [UnicodeEncodeError]. *)
Record Codec : Type := mkCodec {
  codec_decode : bytes → result str;
  codec_encode : str → option bytes
}.

(** [email.parser.FeedParser]. *)
Record FeedParser (Message : Type) : Type := mkFeedParser {
  p_state : Type;
  p_new : p_state;
  p_feed : p_state → str → result p_state;
  p_close : p_state → result Message
}.
Arguments p_state {_} _.
Arguments p_new {_} _.
Arguments p_feed {_} _ _ _.
Arguments p_close {_} _ _.

(** The facts [dump_system_info_to_logger] and
    [dump_env_variables_to_logger] read from the process. *)
Record SysInfo : Type := mkSysInfo {
  sys_version : str;
  python_version : str;
  platform_platform : str;
  os_getcwd : result str;
  os_getuid : nat;
  os_geteuid : nat;
  os_getgid : nat;
  os_getegid : nat;
  pwd_getpwuid : nat → result str;
  grp_getgrgid : nat → result str;
  sys_getdefaultencoding : str;
  sys_stdin_encoding : str;
  sys_stdout_encoding : str;
  locale_getpreferredencoding : str;
  os_environ : list (str * str)
}.

(** ** Messages *)

(** What the formatter asks of an [email.message.Message] besides its
    payload. *)
Record PartInfo : Type := mkPartInfo {
  (** [msg.items()]: names as received, duplicates kept, in order. *)
  headers : list (str * str);
  (** [msg.get_content_type()]. *)
  content_type : str;
  (** [str(msg.get_params())]. *)
  params_text : str;
  (** [str(msg.get_charset())]. *)
  charset_text : str;
  (** [msg.get_param('charset')], [None] when there is none. *)
  charset_param : option str;
  preamble : option str;
  epilogue : option str;
  (** For each defect, its class name and its [str()]. *)
  defects : list (str * str)
}.

(** A message is multipart exactly when its payload is a list of
    messages; otherwise [data] is [msg.get_payload(decode=True)]. *)
#[warnings="-register-all"]
Inductive Message : Type :=
| Part (info : PartInfo) (data : bytes)
| Multipart (info : PartInfo) (parts : list Message).

Definition msg_info (msg : Message) : PartInfo :=
  match msg with Part i _ | Multipart i _ => i end.

Definition is_multipart (msg : Message) : bool :=
  match msg with Part _ _ => false | Multipart _ _ => true end.

(** [msg.keys()]. *)
Definition msg_keys (msg : Message) : list str := (headers (msg_info msg)).*1.

(** [msg.get_all(name)]: the values of the headers whose name equals
    [name] up to case, in order.  The values are those the parser hands
    over as [str]; a value with surrogate escapes comes as an
    [email.header.Header] under the parser's [compat32] policy, and the
    [split] of the formatter raises [AttributeError] on it.  The model
    has no such values: statements that read values through [get_all]
    exclude them ([str_value]). *)
Definition get_all (msg : Message) (name : str) : list str :=
  (filter (λ kv : str * str, lower kv.1 = lower name) (headers (msg_info msg))).*2.

(** [msg.get_content_maintype()]: [ctype.split('/')[0]]. *)
Fixpoint before_slash (s : str) : str :=
  match s with
  | [] => []
  | c :: s' => if (c =? 47)%N then [] else c :: before_slash s'
  end.

Definition get_content_maintype (msg : Message) : str :=
  before_slash (content_type (msg_info msg)).

(** [str(x)] for an optional string. *)
Definition opt_text (o : option str) : str := default (lit "None") o.

(** Truth value of an optional string: [None] and [''] are false. *)
Definition truthy (o : option str) : bool :=
  match o with Some (_ :: _) => true | _ => false end.

Record Runtime : Type := mkRuntime {
  rt_sys : SysInfo;
  (** The codec [bytes.decode(encoding)] looks up; [LookupError] when
      the name is unknown. *)
  rt_lookup : str → result Codec;
  (** [traceback.format_exc()] while [e] is being handled. *)
  rt_format_exc : Exn → str;
  rt_parser : FeedParser Message;
  (** [open(path, 'w')], [out_file.write(line)] after the given writes,
      [out_file.close()]: the exception each raises, if any. *)
  rt_open : str → option Exn;
  rt_write : list str → str → option Exn;
  rt_close : list str → option Exn
}.

(** [data.decode(encoding)].  The codec is looked up first, whatever
    [data] is; CPython answers [''] for an empty [data] without looking
    [encoding] up, so the two differ on an empty text part that declares
    an unknown charset. *)
Definition bytes_decode (rt : Runtime) (data : bytes) (encoding : str) : result str :=
  c ← rt_lookup rt encoding; codec_decode c data.

(** ** Sets and sorting, for the order of the header groups *)

(** [l.index(x)]: the first position of [x].  Python raises [ValueError]
    when [x] is absent; the program only asks for elements of [l], and
    the model answers [length l] otherwise. *)
Fixpoint list_index (x : str) (l : list str) : nat :=
  match l with
  | [] => 0
  | y :: l' => if decide (x = y) then 0 else S (list_index x l')
  end.

(** Iterating over [set(l)]: the distinct elements, in the order the
    hash table happens to give. *)
Definition py_set (l : list str) : list str := elements (list_to_set l : gset str).

(** [sorted(l, key=key)]: a stable sort. *)
Fixpoint insert_by {A} (key : A → nat) (x : A) (l : list A) : list A :=
  match l with
  | [] => [x]
  | y :: l' => if key x <=? key y then x :: l else y :: insert_by key x l'
  end.

Definition sorted {A} (key : A → nat) (l : list A) : list A :=
  foldr (insert_by key) [] l.

(** ** The transcript renderer *)

Section Renderer.
Variable rt : Runtime.

Definition dump_system_info_to_logger (log_level : Level) : M unit :=
  let si := rt_sys rt in
  logger_log log_level (lit "Showing system-info:");;
  let detailed_version_str := join (lit " ") (split_nl (sys_version si)) in
  logf log_level "- Python Version:      {} ({})"
    [FStr (python_version si); FStr detailed_version_str];;
  logf log_level "- platform.platform(): {}" [FStr (platform_platform si)];;
  cwd ← lift (os_getcwd si);
  logf log_level "- os.getcwd():    {}" [FStr cwd];;
  name ← lift (pwd_getpwuid si (os_getuid si));
  logf log_level "- os.getuid():    {} ({})" [FInt (os_getuid si); FStr name];;
  name ← lift (pwd_getpwuid si (os_geteuid si));
  logf log_level "- os.geteuid():   {} ({})" [FInt (os_geteuid si); FStr name];;
  name ← lift (grp_getgrgid si (os_getgid si));
  logf log_level "- os.getgid():    {} ({})" [FInt (os_getgid si); FStr name];;
  name ← lift (grp_getgrgid si (os_getegid si));
  logf log_level "- os.getegid():   {} ({})" [FInt (os_getegid si); FStr name];;
  logf log_level "- sys.getdefaultencoding(): {}"
    [FStr (sys_getdefaultencoding si)];;
  logf log_level "- sys.stdin.encoding:       {}" [FStr (sys_stdin_encoding si)];;
  logf log_level "- sys.stdout.encoding:      {}" [FStr (sys_stdout_encoding si)];;
  logf log_level "- locale.getpreferredencoding(False): {}"
    [FStr (locale_getpreferredencoding si)].

Definition dump_env_variables_to_logger (log_level : Level) : M unit :=
  logger_log log_level (lit "Showing environment variables:");;
  for_each (λ kv : str * str,
              logt log_level
                (lit "- " ++ [QUOTE] ++ lit "{}" ++ [QUOTE] ++ lit " -> "
                 ++ [QUOTE] ++ lit "{}" ++ [QUOTE])
                [FStr kv.1; FStr kv.2])
           (os_environ (rt_sys rt)).

(** The body of the loop over the header names: one group, for [key]
    with the values [lst = msg.get_all(key)]. *)
Definition dump_header_group (log_level : Level) (prefix key : str)
    (lst : list str) : M unit :=
  if 1 <? length lst then
    logf log_level "{}- {} ({} items):"
      [FStr prefix; FStr key; FInt (length lst)];;
    let indent_size := length (str_of_nat (length lst - 1)) in
    for_enumerate (λ i elem,
      for_enumerate (λ j line,
        if j =? 0 then
          s ← lift (py_format (lit "{}- {{:{}<}}: {{}}")
                      [FStr prefix; FInt indent_size]);
          logt log_level s [FInt i; FStr (rstrip line)]
        else
          s ← lift (py_format (lit "{}. {} {{}}")
                      [FStr prefix; FStr (repeat_char 62%N (indent_size + 1))]);
          logt log_level s [FStr (rstrip line)])
        0 (split_nl elem))
      0 lst
  else
    match lst with
    | [] => raise (mkExn (lit "IndexError") (lit "list index out of range"))
    | elem :: _ =>
        let lines := split_nl elem in
        if 1 <? length lines then
          logf log_level "{}- {}:" [FStr prefix; FStr key];;
          for_enumerate (λ i line,
            if i =? 0
            then logf log_level "{}-- {}" [FStr prefix; FStr (rstrip line)]
            else logf log_level "{}.. {}" [FStr prefix; FStr (rstrip line)])
            0 lines
        else
          logf log_level "{}- {}: {}" [FStr prefix; FStr key; FStr (rstrip elem)]
    end.

(** The names the loop visits: [sorted(set(keys), key=keys.index)]. *)
Definition header_keys (msg : Message) : list str :=
  let keys := msg_keys msg in
  sorted (λ k, list_index k keys) (py_set keys).

Definition dump_email_header_to_logger (msg : Message) (log_level : Level)
    (prefix : str) : M unit :=
  logf log_level "{}Header:" [FStr prefix];;
  for_each (λ key, dump_header_group log_level prefix key (get_all msg key))
           (header_keys msg).

(** [for line in text.split('\n'): logger.log(log_level,
    '{}> {}'.format(prefix, line.rstrip()))]. *)
Definition dump_lines (log_level : Level) (prefix text : str) : M unit :=
  for_each (λ line, logf log_level "{}> {}" [FStr prefix; FStr (rstrip line)])
           (split_nl text).

(** The recursive call passes no [indent_str], so below the first level
    the indentation unit is the default of two spaces. *)
Fixpoint dump_email_body_to_logger (msg : Message) (log_level : Level)
    (message_index prefix indent_str : str) {struct msg} : M unit :=
  let encoding := charset_param (msg_info msg) in
  logf log_level
    "{}Message content {} (content_type: {}, params: {}, charset: {}, encoding: {}):"
    [FStr prefix; FStr message_index; FStr (content_type (msg_info msg));
     FStr (params_text (msg_info msg)); FStr (charset_text (msg_info msg));
     FStr (opt_text encoding)];;
  let encoding := if truthy encoding then opt_text encoding else lit "us-ascii" in
  (if truthy (preamble (msg_info msg)) then
     logf log_level "{}preample:" [FStr prefix];;
     dump_lines log_level prefix (default [] (preamble (msg_info msg)))
   else mret ());;
  match msg with
  | Multipart _ parts =>
      for_enumerate (λ i sub_msg,
        let new_prefix := prefix ++ indent_str in
        new_message_index ←
          lift (py_format (lit "{}-{}") [FStr message_index; FInt (i + 1)]);
        dump_email_body_to_logger sub_msg log_level new_message_index
          new_prefix (lit "  "))
        0 parts
  | Part _ data =>
      if decide (get_content_maintype msg = lit "text") then
        text ← lift (bytes_decode rt data encoding);
        dump_lines log_level prefix text
      else
        logf log_level "{}> (Possibly binary data with size {})"
          [FStr prefix; FInt (length data)]
  end;;
  (if truthy (epilogue (msg_info msg)) then
     (* '{}epilogue:'.fromat(prefix): the attribute lookup raises before
        anything is logged *)
     raise (A := ()) (mkExn (lit "AttributeError")
                        (lit "'str' object has no attribute 'fromat'"));;
     dump_lines log_level prefix (default [] (epilogue (msg_info msg)))
   else mret ());;
  match defects (msg_info msg) with
  | [] => mret ()
  | ds =>
      logf log_level "{}defects:" [FStr prefix];;
      for_each (λ defect : str * str,
                  logf log_level "{}- {} (detail: {})"
                    [FStr prefix; FStr defect.1; FStr defect.2])
               ds
  end.

Definition dump_email_to_logger (msg : Message) (log_level : Level)
    (prefix indent_str : str) : M unit :=
  dump_email_header_to_logger msg log_level prefix;;
  dump_email_body_to_logger msg log_level (lit "0") prefix indent_str.

(** ** The driver *)

(** [out_file = v]. *)
Definition set_out_file (v : option (list str)) : M unit :=
  λ w, (inr (), mkWorld (w_log w) (w_stderr w) v).

Definition get_out_file : M (option (list str)) := λ w, (inr (w_out_file w), w).

(** Truth value of [out_file]: a file object is true, [None] is false. *)
Definition is_file (out : option (list str)) : bool :=
  match out with Some _ => true | None => false end.

(** [out_file = open(path, 'w')]. *)
Definition file_open (path : str) : M unit :=
  match rt_open rt path with
  | Some e => raise e
  | None => set_out_file (Some [])
  end.

(** [out_file.write(line)]. *)
Definition file_write (line : str) : M unit :=
  out ← get_out_file;
  match rt_write rt (default [] out) line with
  | Some e => raise e
  | None => set_out_file (Some (default [] out ++ [line]))
  end.

(** [out_file.close()]. *)
Definition file_close : M unit :=
  out ← get_out_file;
  match rt_close rt (default [] out) with
  | Some e => raise e
  | None => mret ()
  end.

(** [sys.stdin] as the loop sees it: the lines, then the end of the
    input or an exception raised by the read. *)
Inductive Stdin : Type :=
| Eof
| Line (line : str) (rest : Stdin)
| ReadError (e : Exn).

(** The loop [for line in sys.stdin], threading the parser. *)
Fixpoint read_stdin (parser : p_state (rt_parser rt)) (stdin : Stdin)
    : M (p_state (rt_parser rt)) :=
  match stdin with
  | Eof => mret parser
  | ReadError e => raise e
  | Line line rest =>
      out ← get_out_file;
      (if is_file out then file_write line else mret ());;
      parser' ← lift (p_feed (rt_parser rt) parser line);
      logf INFO ">>> {}" [FStr (rstrip line)];;
      read_stdin parser' rest
  end.

(** The body of both [except Exception as e] clauses: a summary with
    the class and the text of [e], then the traceback line by line. *)
Definition log_exception (summary : string) (e : Exn) : M unit :=
  logf ERROR summary [FStr (exn_class e); FStr (exn_msg e)];;
  for_each (logger_log ERROR) (split_nl (rstrip (rt_format_exc rt e))).

Record Args : Type := mkArgs {
  log_file : option str;
  do_bounce : bool;
  out_file : option str;
  encoding : str;
  debug : bool
}.

Definition capture_mail (args : Args) (stdin : Stdin) : M nat :=
  dump_system_info_to_logger INFO;;
  dump_env_variables_to_logger INFO;;
  set_out_file None;;
  try_finally
    (try_except
       ((if truthy (out_file args)
         then file_open (default [] (out_file args))
         else mret ());;
        logger_log INFO (lit "stdin:");;
        parser ← read_stdin (p_new (rt_parser rt)) stdin;
        msg ← lift (p_close (rt_parser rt) parser);
        dump_email_to_logger msg INFO [] (lit "  "))
       (log_exception "Exception raised during handling stdin ({}, {}"))
    (out ← get_out_file;
     if is_file out
     then try_except file_close
            (log_exception "Exception raised during closing out_File ({}, {}")
     else mret ());;
  if do_bounce args then
    stderr_write (lit "5.999.999 Testing Error Message" ++ [LF]);;
    mret 1
  else mret 0.

End Renderer.

(** ** Three codecs and a sample runtime

    The renderer is verified for every [Runtime].  The definitions below
    give one to run it on: the [ascii], [latin-1] and [utf-8] codecs of
    Python and fixed answers for the rest. *)

Definition hex_digit (n : N) : char := (if n <? 10 then 48 + n else 87 + n)%N.
Definition hex_byte (n : N) : str := [hex_digit (n / 16); hex_digit (n mod 16)].

Definition UnicodeDecodeError_ascii (n : N) (pos : nat) : Exn :=
  mkExn (lit "UnicodeDecodeError")
    (lit "'ascii' codec can't decode byte 0x" ++ hex_byte n ++ lit " in position "
     ++ str_of_nat pos ++ lit ": ordinal not in range(128)").

Fixpoint ascii_decode_from (pos : nat) (data : bytes) : result str :=
  match data with
  | [] => inr []
  | b :: data' =>
      if (Byte.to_N b <? 128)%N
      then r ← ascii_decode_from (S pos) data'; mret (Byte.to_N b :: r)
      else inl (UnicodeDecodeError_ascii (Byte.to_N b) pos)
  end.

Definition ascii_codec : Codec :=
  mkCodec (ascii_decode_from 0)
          (mapM (λ c, if (c <? 128)%N then Byte.of_N c else None)).

Definition latin_1_codec : Codec :=
  mkCodec (λ data, inr (Byte.to_N <$> data)) (mapM Byte.of_N).

(** A continuation byte of UTF-8. *)
Definition is_continuation (n : N) : bool := ((128 <=? n) && (n <? 192))%N.

(** The exception of the [utf-8] decoder for the [len] bytes from [start],
    the first of which is [ch]. *)
Definition UnicodeDecodeError_utf8 (ch : N) (start len : nat) (reason : string) : Exn :=
  mkExn (lit "UnicodeDecodeError")
    (if len =? 1
     then lit "'utf-8' codec can't decode byte 0x" ++ hex_byte ch ++ lit " in position "
          ++ str_of_nat start ++ lit ": " ++ lit reason
     else lit "'utf-8' codec can't decode bytes in position " ++ str_of_nat start
          ++ lit "-" ++ str_of_nat (start + len - 1) ++ lit ": " ++ lit reason).

(** The strict [utf-8] decoder, on the values of the bytes: it refuses
    overlong forms, surrogates and code points above [0x10FFFF], and reports
    the offending bytes as CPython does. *)
Fixpoint utf8_decode_from (pos : nat) (data : str) : result str :=
  let invalid_start ch := inl (UnicodeDecodeError_utf8 ch pos 1 "invalid start byte") in
  let invalid_continuation ch n :=
    inl (UnicodeDecodeError_utf8 ch pos n "invalid continuation byte") in
  let unexpected_end ch n :=
    inl (UnicodeDecodeError_utf8 ch pos n "unexpected end of data") in
  match data with
  | [] => inr []
  | ch :: rest =>
      if (ch <? 128)%N then r ← utf8_decode_from (S pos) rest; mret (ch :: r)
      else if (ch <? 194)%N then invalid_start ch
      else if (ch <? 224)%N then
        match rest with
        | [] => unexpected_end ch 1
        | ch2 :: rest2 =>
            if is_continuation ch2
            then r ← utf8_decode_from (2 + pos) rest2;
                 mret (((ch - 192) * 64 + (ch2 - 128))%N :: r)
            else invalid_continuation ch 1
        end
      else if (ch <? 240)%N then
        match rest with
        | [] => unexpected_end ch 1
        | ch2 :: rest2 =>
            if negb (is_continuation ch2)
               || (if (ch2 <? 160)%N then (ch =? 224)%N else (ch =? 237)%N)
            then invalid_continuation ch 1
            else match rest2 with
                 | [] => unexpected_end ch 2
                 | ch3 :: rest3 =>
                     if is_continuation ch3
                     then r ← utf8_decode_from (3 + pos) rest3;
                          mret (((ch - 224) * 4096 + (ch2 - 128) * 64 + (ch3 - 128))%N :: r)
                     else invalid_continuation ch 2
                 end
        end
      else if (ch <? 245)%N then
        match rest with
        | [] => unexpected_end ch 1
        | ch2 :: rest2 =>
            if negb (is_continuation ch2)
               || (if (ch2 <? 144)%N then (ch =? 240)%N else (ch =? 244)%N)
            then invalid_continuation ch 1
            else match rest2 with
                 | [] => unexpected_end ch 2
                 | ch3 :: rest3 =>
                     if negb (is_continuation ch3) then invalid_continuation ch 2
                     else match rest3 with
                          | [] => unexpected_end ch 3
                          | ch4 :: rest4 =>
                              if is_continuation ch4
                              then r ← utf8_decode_from (4 + pos) rest4;
                                   mret (((ch - 240) * 262144 + (ch2 - 128) * 4096
                                          + (ch3 - 128) * 64 + (ch4 - 128))%N :: r)
                              else invalid_continuation ch 3
                          end
                 end
        end
      else invalid_start ch
  end.

(** The [utf-8] form of a code point; surrogates are not encodable. *)
Definition utf8_encode_char (c : N) : option str :=
  if (c <? 128)%N then Some [c]
  else if (c <? 2048)%N then Some [192 + c / 64; 128 + c mod 64]%N
  else if (c <? 65536)%N then
    if ((55296 <=? c) && (c <? 57344))%N then None
    else Some [224 + c / 4096; 128 + (c / 64) mod 64; 128 + c mod 64]%N
  else if (c <? 1114112)%N then
    Some [240 + c / 262144; 128 + (c / 4096) mod 64; 128 + (c / 64) mod 64;
          128 + c mod 64]%N
  else None.

Definition utf_8_codec : Codec :=
  mkCodec (λ data, utf8_decode_from 0 (Byte.to_N <$> data))
          (λ text, chunks ← mapM utf8_encode_char text; mapM Byte.of_N (concat chunks)).

(** How the codec registry reads an encoding name: case is ignored and
    hyphens and spaces count as underscores. *)
Definition normalize_encoding (name : str) : str :=
  (λ c, if ((c =? 45) || (c =? 32))%N then 95%N else c) <$> lower name.

Definition sample_lookup (name : str) : result Codec :=
  let n := normalize_encoding name in
  if bool_decide (n ∈ [lit "ascii"; lit "us_ascii"]) then inr ascii_codec
  else if bool_decide (n ∈ [lit "latin_1"; lit "latin1"; lit "iso_8859_1"; lit "iso8859_1"])
       then inr latin_1_codec
       else if bool_decide (n ∈ [lit "utf_8"; lit "utf8"; lit "u8"; lit "utf"])
            then inr utf_8_codec
            else inl (mkExn (lit "LookupError") (lit "unknown encoding: " ++ name)).

Definition sample_format_exc (e : Exn) : str :=
  lit "Traceback (most recent call last):" ++ [LF]
  ++ lit "  File " ++ [QUOTE] ++ lit "capture_mail.py" ++ [QUOTE]
  ++ lit ", line 208, in capture_mail" ++ [LF]
  ++ lit "    dump_email_to_logger(msg, logger, log_level=INFO)" ++ [LF]
  ++ exn_class e ++ lit ": " ++ exn_msg e ++ [LF].

Definition sample_sys : SysInfo :=
  {| sys_version := lit "3.11.2 (main) [GCC 12.2.0]";
     python_version := lit "3.11.2";
     platform_platform := lit "Linux-6.1-x86_64-with-glibc2.36";
     os_getcwd := inr (lit "/var/spool/postfix");
     os_getuid := 99; os_geteuid := 99;
     os_getgid := 99; os_getegid := 99;
     pwd_getpwuid := λ _, inr (lit "nobody");
     grp_getgrgid := λ _, inr (lit "nogroup");
     sys_getdefaultencoding := lit "utf-8";
     sys_stdin_encoding := lit "ANSI_X3.4-1968";
     sys_stdout_encoding := lit "ANSI_X3.4-1968";
     locale_getpreferredencoding := lit "ANSI_X3.4-1968";
     os_environ := [(lit "MAIL_CONFIG", lit "/etc/postfix")] |}.

(** A parser that answers [parsed] for the input at hand. *)
Definition sample_parser (parsed : Message) : FeedParser Message :=
  mkFeedParser Message () () (λ _ _, inr ()) (λ _, inr parsed).

(** A runtime in which the input parses to [parsed] and opening the
    capture file raises [open_error], if given. *)
Definition sample_runtime (parsed : Message) (open_error : option Exn) : Runtime :=
  {| rt_sys := sample_sys;
     rt_lookup := sample_lookup;
     rt_format_exc := sample_format_exc;
     rt_parser := sample_parser parsed;
     rt_open := λ _, open_error;
     rt_write := λ _ _, None;
     rt_close := λ _, None |}.

(** A part with the given headers and content type and nothing else. *)
Definition plain_info (hs : list (str * str)) (ctype : string)
    (charset : option str) : PartInfo :=
  {| headers := hs; content_type := lit ctype; params_text := lit "[]";
     charset_text := lit "None"; charset_param := charset;
     preamble := None; epilogue := None; defects := [] |}.

(** The bytes of an ASCII literal. *)
Definition blit (s : string) : bytes :=
  Ascii.byte_of_ascii <$> String.list_ascii_of_string s.

(** ** Vocabulary of the specification *)

(** The distinct names of a header sequence, in the order of their first
    occurrence. *)
Fixpoint first_occurrences (l : list str) : list str :=
  match l with
  | [] => []
  | x :: l' => x :: filter (λ y, y ≠ x) (first_occurrences l')
  end.

(** The label of the child at 1-based position [k] of the part labelled
    [label]. *)
Definition child_label (label : str) (k : nat) : str :=
  label ++ lit "-" ++ str_of_nat k.

(** [w] with the records [ls] appended to the log. *)
Definition add_log (w : World) (ls : list (Level * str)) : World :=
  mkWorld (w_log w ++ ls) (w_stderr w) (w_out_file w).

(** Records at one level. *)
Definition tag (level : Level) (lines : list str) : list (Level * str) :=
  (λ line, (level, line)) <$> lines.

(** [m] does nothing but log [ls] and then return or raise [r], from
    every world. *)
Definition writes {A} (m : M A) (r : result A) (ls : list (Level * str)) : Prop :=
  ∀ w, m w = (r, add_log w ls).

(** [m] touches nothing but the logger. *)
Definition logger_only {A} (m : M A) : Prop := ∃ r ls, writes m r ls.

(** The summary line of a part. *)
Definition summary_line (info : PartInfo) (message_index prefix : str) : str :=
  prefix ++ lit "Message content " ++ message_index
  ++ lit " (content_type: " ++ content_type info
  ++ lit ", params: " ++ params_text info
  ++ lit ", charset: " ++ charset_text info
  ++ lit ", encoding: " ++ opt_text (charset_param info) ++ lit "):".

(** The lines of [text], each behind [prefix] and [> ], stripped on the
    right. *)
Definition quoted_lines (prefix text : str) : list str :=
  (λ line, prefix ++ lit "> " ++ rstrip line) <$> split_nl text.

(** What a part logs before its content: the summary line and the
    preamble, if any. *)
Definition head_lines (info : PartInfo) (message_index prefix : str) : list str :=
  summary_line info message_index prefix
  :: (if truthy (preamble info)
      then (prefix ++ lit "preample:") :: quoted_lines prefix (default [] (preamble info))
      else []).

Definition defect_lines (info : PartInfo) (prefix : str) : list str :=
  match defects info with
  | [] => []
  | ds => (prefix ++ lit "defects:")
          :: ((λ d : str * str,
                 prefix ++ lit "- " ++ d.1 ++ lit " (detail: " ++ d.2 ++ lit ")") <$> ds)
  end.

Definition AttributeError_fromat : Exn :=
  mkExn (lit "AttributeError") (lit "'str' object has no attribute 'fromat'").

(** What a part does after its content: with an epilogue it raises, and
    otherwise it logs the defects. *)
Definition tail_outcome (info : PartInfo) : result () :=
  if truthy (epilogue info) then inl AttributeError_fromat else inr ().

Definition tail_lines (info : PartInfo) (prefix : str) : list str :=
  if truthy (epilogue info) then [] else defect_lines info prefix.

(** The encoding a part is decoded with. *)
Definition resolved_encoding (info : PartInfo) : str :=
  if truthy (charset_param info) then opt_text (charset_param info) else lit "us-ascii".

(** Rendering the body of [msg] from the empty world: how it ends and
    what it logs. *)
Definition body_outcome (rt : Runtime) (msg : Message) (level : Level)
    (message_index prefix indent_str : str) : result () :=
  (dump_email_body_to_logger rt msg level message_index prefix indent_str empty_world).1.

Definition body_log (rt : Runtime) (msg : Message) (level : Level)
    (message_index prefix indent_str : str) : list (Level * str) :=
  w_log (dump_email_body_to_logger rt msg level message_index prefix indent_str empty_world).2.

(** The records of an [except] clause: the summary, then the traceback. *)
Definition error_entries (rt : Runtime) (summary : string) (e : Exn) : list (Level * str) :=
  (ERROR, lit summary ++ exn_class e ++ lit ", " ++ exn_msg e)
  :: tag ERROR (split_nl (rstrip (rt_format_exc rt e))).

(** A codec decodes what it encodes. *)
Definition codec_lossless (c : Codec) : Prop :=
  ∀ text data, codec_encode c text = Some data → codec_decode c data = inr text.

(** A string without braces. *)
Definition brace_free (s : str) : Prop := Forall (λ c, c ≠ 123%N ∧ c ≠ 125%N) s.

(** [s] occurs in [t]. *)
Fixpoint starts_with (s t : str) : bool :=
  match s, t with
  | [], _ => true
  | c :: s', d :: t' => (c =? d)%N && starts_with s' t'
  | _ :: _, [] => false
  end.

Fixpoint occurs_in (s t : str) : bool :=
  starts_with s t || match t with [] => false | _ :: t' => occurs_in s t' end.

Definition set_preamble (o : option str) (info : PartInfo) : PartInfo :=
  {| headers := headers info; content_type := content_type info;
     params_text := params_text info; charset_text := charset_text info;
     charset_param := charset_param info; preamble := o;
     epilogue := epilogue info; defects := defects info |}.

Definition set_epilogue (o : option str) (info : PartInfo) : PartInfo :=
  {| headers := headers info; content_type := content_type info;
     params_text := params_text info; charset_text := charset_text info;
     charset_param := charset_param info; preamble := preamble info;
     epilogue := o; defects := defects info |}.

Definition map_info (f : PartInfo → PartInfo) (msg : Message) : Message :=
  match msg with
  | Part i d => Part (f i) d
  | Multipart i ps => Multipart (f i) ps
  end.

(** ** Blocks of the source and what they log, for the statements *)

(** The loop over the children of a multipart message. *)
Definition dump_children (rt : Runtime) (level : Level) (message_index prefix indent_str : str)
    : nat → list Message → M () :=
  for_enumerate (λ i sub_msg,
    new_message_index ←
      lift (py_format (lit "{}-{}") [FStr message_index; FInt (i + 1)]);
    dump_email_body_to_logger rt sub_msg level new_message_index
      (prefix ++ indent_str) (lit "  ")).

(** The content of a part that is not multipart. *)
Definition dump_payload (rt : Runtime) (info : PartInfo) (data : bytes) (level : Level)
    (prefix : str) : M () :=
  if decide (before_slash (content_type info) = lit "text") then
    text ← lift (bytes_decode rt data (resolved_encoding info));
    dump_lines level prefix text
  else
    logf level "{}> (Possibly binary data with size {})"
      [FStr prefix; FInt (length data)].

(** The content of a part: the payload, or the children. *)
Definition dump_content (rt : Runtime) (msg : Message) (level : Level)
    (message_index prefix indent_str : str) : M () :=
  match msg with
  | Part info data => dump_payload rt info data level prefix
  | Multipart _ parts => dump_children rt level message_index prefix indent_str 0 parts
  end.

(** The records of the children [l], rendered in order from position [k]. *)
Definition children_log (rt : Runtime) (level : Level)
    (message_index prefix indent_str : str) (k : nat) (l : list Message)
    : list (Level * str) :=
  concat (imap (λ j sub,
                  body_log rt sub level (child_label message_index (k + j + 1))
                    (prefix ++ indent_str) (lit "  ")) l).

(** Every child of [l], at positions from [k], renders and returns. *)
Definition children_return (rt : Runtime) (level : Level)
    (message_index prefix indent_str : str) (k : nat) (l : list Message) : Prop :=
  ∀ j sub, l !! j = Some sub →
    body_outcome rt sub level (child_label message_index (k + j + 1))
      (prefix ++ indent_str) (lit "  ") = inr ().

(** Rendering the body of a message, labelled [label] behind [prefix],
    comes to the text part [info'], labelled [label'] behind [prefix'],
    whose payload the codec of its resolved encoding refuses with [e]:
    either the message is that part, or it is multipart, the children
    before one of them return, and that child comes to the failing part. *)
Inductive decode_fails (rt : Runtime) (level : Level) :
    Message → str → str → str → PartInfo → str → str → Exn → Prop :=
| decode_fails_here info data label prefix indent_str e :
    before_slash (content_type info) = lit "text" →
    bytes_decode rt data (resolved_encoding info) = inl e →
    decode_fails rt level (Part info data) label prefix indent_str info label prefix e
| decode_fails_below info before child after label prefix indent_str
    info' label' prefix' e :
    children_return rt level label prefix indent_str 0 before →
    decode_fails rt level child (child_label label (length before + 1))
      (prefix ++ indent_str) (lit "  ") info' label' prefix' e →
    decode_fails rt level (Multipart info (before ++ child :: after))
      label prefix indent_str info' label' prefix' e.

(** The first half of the [try] block of [capture_mail]: open the capture
    file if one is configured, read and echo the input, close the parser. *)
Definition read_message (rt : Runtime) (args : Args) (stdin : Stdin) : M Message :=
  (if truthy (out_file args)
   then file_open rt (default [] (out_file args))
   else mret ());;
  logger_log INFO (lit "stdin:");;
  parser ← read_stdin rt (p_new (rt_parser rt)) stdin;
  lift (p_close (rt_parser rt) parser).

(** The [try] block of [capture_mail]. *)
Definition process_stdin (rt : Runtime) (args : Args) (stdin : Stdin) : M () :=
  msg ← read_message rt args stdin;
  dump_email_to_logger rt msg INFO [] (lit "  ").

(** What the [except] clause of the [try] block logs. *)
Definition handling_entries (rt : Runtime) (r : result ()) : list (Level * str) :=
  match r with
  | inl e => error_entries rt "Exception raised during handling stdin (" e
  | inr _ => []
  end.

(** What the [finally] clause logs: nothing, unless closing the capture
    file raises. *)
Definition closing_entries (rt : Runtime) (out : option (list str))
    : list (Level * str) :=
  match out with
  | Some written =>
      match rt_close rt written with
      | Some e => error_entries rt "Exception raised during closing out_File (" e
      | None => []
      end
  | None => []
  end.

(** What the last statement writes to [sys.stderr]. *)
Definition bounce_lines (args : Args) : list str :=
  if do_bounce args then [lit "5.999.999 Testing Error Message" ++ [LF]] else [].

(** What [capture_mail] returns. *)
Definition exit_status (args : Args) : nat := if do_bounce args then 1 else 0.

(** What the two dumps at the start of [capture_mail] log. *)
Definition startup_log (rt : Runtime) : list (Level * str) :=
  w_log ((dump_system_info_to_logger rt INFO;;
          dump_env_variables_to_logger rt INFO) empty_world).2.

(** The process can look up its working directory and the names of its
    user and group ids, so that [dump_system_info_to_logger] returns. *)
Definition sys_info_available (si : SysInfo) : Prop :=
  ∃ cwd u eu g eg,
    os_getcwd si = inr cwd
    ∧ pwd_getpwuid si (os_getuid si) = inr u
    ∧ pwd_getpwuid si (os_geteuid si) = inr eu
    ∧ grp_getgrgid si (os_getgid si) = inr g
    ∧ grp_getgrgid si (os_getegid si) = inr eg.

(** [m] leaves [sys.stderr] alone. *)
Definition quiet {A} (m : M A) : Prop :=
  ∀ w r w', m w = (r, w') → w_stderr w' = w_stderr w.

(** The error records of a run. *)
Definition error_records (w : World) : list str :=
  (filter (λ r : Level * str, r.1 = ERROR) (w_log w)).*2.

(** The order [sorted] sorts by. *)
Definition key_le {A} (key : A → nat) (x y : A) : Prop := key x ≤ key y.

(** [s.ljust(width)]: the padding the index field of a row is meant to
    have. *)
Definition ljust (width : nat) (s : str) : str := s ++ replicate (width - length s) 32%N.

(** The rows of the value [v] at index [i] of a group: the first line
    behind the index, the others behind a run of [width + 1] marks. *)
Definition group_rows (prefix : str) (width i : nat) (v : str) : list str :=
  match split_nl v with
  | [] => []
  | first :: more =>
      (prefix ++ lit "- " ++ str_of_nat i ++ lit ": " ++ rstrip first)
      :: ((λ line, prefix ++ lit ". " ++ repeat_char 62%N (width + 1) ++ lit " "
                   ++ rstrip line) <$> more)
  end.

(** The loop over the lines of one value. *)
Definition dump_rows (level : Level) (prefix : str) (width : nat) (i : nat)
    : nat → list str → M () :=
  for_enumerate (λ j line,
    if j =? 0 then
      s ← lift (py_format (lit "{}- {{:{}<}}: {{}}") [FStr prefix; FInt width]);
      logt level s [FInt i; FStr (rstrip line)]
    else
      s ← lift (py_format (lit "{}. {} {{}}")
                  [FStr prefix; FStr (repeat_char 62%N (width + 1))]);
      logt level s [FStr (rstrip line)]).

(** ** Sample inputs *)

(** A part without headers. *)
Definition headerless : Message := Part (plain_info [] "text/plain" None) (blit "hello").

(** A chain of three parts: the root, its only child and the only child
    of that child. *)
Definition depth3_tree : Message :=
  Multipart (plain_info [] "multipart/mixed" None)
    [Multipart (plain_info [] "multipart/alternative" None)
       [Part (plain_info [] "text/plain" None) (blit "hello")]].

(** A root with two children; the first has two children. *)
Definition sample_tree : Message :=
  Multipart (plain_info [(lit "Subject", lit "hi")] "multipart/mixed" None)
    [Multipart (plain_info [] "multipart/alternative" None)
       [Part (plain_info [] "text/plain" None) (blit "hello");
        Part (plain_info [] "text/html" (Some (lit "latin-1"))) [Byte.xe9]];
     Part (plain_info [] "image/png" None) (blit "xyz")].

(** A multipart message with text before its first boundary. *)
Definition with_preamble : Message :=
  Multipart (set_preamble (Some (lit "This is a multi-part message in MIME format."))
               (plain_info [] "multipart/mixed" None))
    [Part (plain_info [] "text/plain" None) (blit "hello")].

(** A multipart message with text after its closing boundary. *)
Definition with_epilogue : Message :=
  Multipart (set_epilogue (Some (lit "bye")) (plain_info [] "multipart/mixed" None))
    [Part (plain_info [] "text/plain" None) (blit "hello")].

(** A multipart message whose preamble and epilogue are the empty string. *)
Definition empty_texts : Message :=
  Multipart (set_epilogue (Some []) (set_preamble (Some [])
               (plain_info [] "multipart/mixed" None)))
    [Part (plain_info [] "text/plain" None) (blit "hello")].

(** A message whose second part declares no charset and is not ASCII. *)
Definition undecodable_tree : Message :=
  Multipart (plain_info [(lit "Subject", lit "hi")] "multipart/mixed" None)
    [Part (plain_info [] "text/plain" None) (blit "hello");
     Part (plain_info [] "text/plain" None) [Byte.xe3; Byte.x81; Byte.x82];
     Part (plain_info [] "text/plain" None) (blit "never rendered")].

(** The first part is not ASCII and declares no charset. *)
Definition undecodable_first : Message :=
  Multipart (plain_info [(lit "Subject", lit "hi")] "multipart/mixed" None)
    [Part (plain_info [] "text/plain" None) [Byte.xe3; Byte.x81; Byte.x82];
     Part (plain_info [] "text/plain" None) (blit "hello")].

(** Eleven [Received] headers. *)
Definition eleven_received : Message :=
  Part (plain_info (replicate 11 (lit "Received", lit "by mx")) "text/plain" None) [].

Definition PermissionError : Exn :=
  mkExn (lit "PermissionError") (lit "[Errno 13] Permission denied: '/var/capture.eml'").

Definition sample_stdin : Stdin :=
  Line (lit "Subject: hi" ++ [LF]) (Line [LF] (Line (lit "hello" ++ [LF]) Eof)).

(** ** Further vocabulary and sample inputs *)

(** A message with the usual headers of a short mail. *)
Definition plain_mail : Message :=
  Part (plain_info [(lit "From", lit "a@example.org"); (lit "To", lit "b@example.org ");
                    (lit "Subject", [])] "text/plain" None) (blit "hello").

Definition KeyError_uid : Exn := mkExn (lit "KeyError") (lit "'getpwuid(): uid not found: 4711'").

(** A process whose user id is not in the password database. *)
Definition orphan_sys : SysInfo :=
  {| sys_version := sys_version sample_sys;
     python_version := python_version sample_sys;
     platform_platform := platform_platform sample_sys;
     os_getcwd := inr (lit "/");
     os_getuid := 4711; os_geteuid := 4711; os_getgid := 99; os_getegid := 99;
     pwd_getpwuid := λ _, inl KeyError_uid;
     grp_getgrgid := grp_getgrgid sample_sys;
     sys_getdefaultencoding := sys_getdefaultencoding sample_sys;
     sys_stdin_encoding := sys_stdin_encoding sample_sys;
     sys_stdout_encoding := sys_stdout_encoding sample_sys;
     locale_getpreferredencoding := locale_getpreferredencoding sample_sys;
     os_environ := [] |}.

Definition orphan_runtime : Runtime :=
  {| rt_sys := orphan_sys; rt_lookup := sample_lookup;
     rt_format_exc := sample_format_exc; rt_parser := sample_parser plain_mail;
     rt_open := λ _, None; rt_write := λ _ _, None; rt_close := λ _, None |}.

(** A runtime without codecs. *)
Definition no_codecs (rt : Runtime) : Runtime :=
  {| rt_sys := rt_sys rt;
     rt_lookup := λ name, inl (mkExn (lit "LookupError") (lit "unknown encoding: " ++ name));
     rt_format_exc := rt_format_exc rt; rt_parser := rt_parser rt;
     rt_open := rt_open rt; rt_write := rt_write rt; rt_close := rt_close rt |}.

(** A text part with a missing boundary noted by the parser. *)
Definition with_defect : Message :=
  Part {| headers := []; content_type := lit "text/plain"; params_text := lit "[]";
          charset_text := lit "None"; charset_param := None; preamble := None;
          epilogue := None;
          defects := [(lit "StartBoundaryNotFoundDefect", []);
                      (lit "MultipartInvariantViolationDefect", [])] |}
       (blit "hello").

(** The part reached from [msg] along the positions [path], counted from
    0 at each level. *)
Fixpoint part_at (msg : Message) (path : list nat) : option Message :=
  match path with
  | [] => Some msg
  | i :: rest =>
      match msg with
      | Multipart _ parts => sub ← parts !! i; part_at sub rest
      | Part _ _ => None
      end
  end.

(** The label of the part at [path] below a part labelled [label]. *)
Fixpoint path_label (label : str) (path : list nat) : str :=
  match path with
  | [] => label
  | i :: rest => path_label (child_label label (i + 1)) rest
  end.

(** The prefix of the part at [path] below a part rendered behind [prefix]
    with the indentation unit [indent_str]. *)
Fixpoint path_prefix (prefix indent_str : str) (path : list nat) : str :=
  match path with
  | [] => prefix
  | _ :: rest => path_prefix (prefix ++ indent_str) (lit "  ") rest
  end.

(** [m] does nothing but log at [level], and then returns or raises the
    same from every world. *)
Definition logs_at {A} (level : Level) (m : M A) : Prop :=
  ∃ r lines, writes m r (tag level lines).

Definition set_headers (hs : list (str * str)) (info : PartInfo) : PartInfo :=
  {| headers := hs; content_type := content_type info;
     params_text := params_text info; charset_text := charset_text info;
     charset_param := charset_param info; preamble := preamble info;
     epilogue := epilogue info; defects := defects info |}.

(** [msg] with the headers of all its parts removed. *)
Fixpoint without_headers (msg : Message) : Message :=
  match msg with
  | Part info data => Part (set_headers [] info) data
  | Multipart info parts => Multipart (set_headers [] info) (without_headers <$> parts)
  end.

(** The input made of the lines [ls], ending as [fin] does. *)
Definition stdin_of (ls : list str) (fin : Stdin) : Stdin := foldr Line fin ls.

(** The parser after the lines [ls]. *)
Fixpoint feed_all (rt : Runtime) (parser : p_state (rt_parser rt)) (ls : list str)
    : result (p_state (rt_parser rt)) :=
  match ls with
  | [] => inr parser
  | line :: ls' => parser' ← p_feed (rt_parser rt) parser line; feed_all rt parser' ls'
  end.

(** The echo of an input line. *)
Definition echo (line : str) : str := lit ">>> " ++ rstrip line.

(** The world after the lines [ls] were read: they are echoed, and written
    to the capture file if it is open. *)
Definition after_lines (w : World) (ls : list str) : World :=
  mkWorld (w_log w ++ tag INFO (echo <$> ls)) (w_stderr w)
          (match w_out_file w with
           | Some written => Some (written ++ ls)
           | None => None
           end).

(** The world once the lines [ls] of the input were read: [stdin:] and the
    echoes are logged, and the capture file, if one is configured, holds
    the lines. *)
Definition read_world (args : Args) (w : World) (ls : list str) : World :=
  mkWorld (w_log w ++ (INFO, lit "stdin:") :: tag INFO (echo <$> ls)) (w_stderr w)
          (if truthy (out_file args) then Some ls else None).

(** The capture file can be opened, and the lines [ls] can be written to
    it. *)
Definition capture_file_takes (rt : Runtime) (args : Args) (ls : list str) : Prop :=
  rt_open rt (default [] (out_file args)) = None
  ∧ ∀ written line, line ∈ ls → rt_write rt written line = None.

(** Reading standard input in an ASCII locale raises at the first byte
    that is not ASCII. *)
Definition UnicodeDecodeError_stdin : Exn :=
  mkExn (lit "UnicodeDecodeError")
        (lit "'ascii' codec can't decode byte 0xe3 in position 9: ordinal not in range(128)").



Definition OSError_close : Exn :=
  mkExn (lit "OSError") (lit "[Errno 28] No space left on device").

(** A runtime in which closing the capture file raises. *)
Definition close_fails_runtime (parsed : Message) : Runtime :=
  {| rt_sys := sample_sys; rt_lookup := sample_lookup;
     rt_format_exc := sample_format_exc; rt_parser := sample_parser parsed;
     rt_open := λ _, None; rt_write := λ _ _, None;
     rt_close := λ _, Some OSError_close |}.

(** [rt] with other file operations. *)
Definition with_files (rt : Runtime) (open' : str → option Exn)
    (write' : list str → str → option Exn) (close' : list str → option Exn) : Runtime :=
  {| rt_sys := rt_sys rt; rt_lookup := rt_lookup rt;
     rt_format_exc := rt_format_exc rt; rt_parser := rt_parser rt;
     rt_open := open'; rt_write := write'; rt_close := close' |}.

(** A surrogate code point.  A [str] read with the [surrogateescape]
    error handler holds one for every byte that could not be decoded. *)
Definition is_surrogate (c : char) : bool := ((55296 <=? c) && (c <? 57344))%N.

(** A header value that [msg.get_all] hands over as a [str].  Under the
    parser's [compat32] policy a value with surrogates is handed over as
    an [email.header.Header] object instead, which has no [split]; such
    values are outside the model of [get_all]. *)
Definition str_value (v : str) : Prop := Forall (λ c, is_surrogate c = false) v.

Global Instance str_value_dec v : Decision (str_value v).
Proof. unfold str_value. apply _. Defined.

(** The lines of one group of the header section: the header name [name]
    with the values [values], behind [prefix].  A single value on one line
    makes one line; a single folded value a line with the name, its first
    line behind [-- ] and the others behind [.. ]; several values the line
    with their number and then their rows. *)
Definition group_lines (prefix name : str) (values : list str) : list str :=
  match values with
  | [] => []
  | [v] =>
      match split_nl v with
      | first :: second :: more =>
          (prefix ++ lit "- " ++ name ++ lit ":")
          :: (prefix ++ lit "-- " ++ rstrip first)
          :: ((λ line, prefix ++ lit ".. " ++ rstrip line) <$> second :: more)
      | _ => [prefix ++ lit "- " ++ name ++ lit ": " ++ rstrip v]
      end
  | _ :: _ :: _ =>
      (prefix ++ lit "- " ++ name ++ lit " (" ++ str_of_nat (length values)
       ++ lit " items):")
      :: concat (imap (group_rows prefix (length (str_of_nat (length values - 1))))
                   values)
  end.

(** The headers [A, B, A, C]. *)
Definition interleaved_names : Message :=
  Part (plain_info [(lit "A", lit "1"); (lit "B", lit "2");
                    (lit "A", lit "3"); (lit "C", lit "4")] "text/plain" None) [].

(** Two headers whose names differ in case only. *)
Definition mixed_case_names : Message :=
  Part (plain_info [(lit "To", lit "a"); (lit "to", lit "b")] "text/plain" None) [].

(** * Properties *)

(** ** The Python primitives on examples *)

Example split_nl_ex :
  split_nl (lit "a" ++ [LF] ++ lit "b" ++ [LF]) = [lit "a"; lit "b"; []].
Proof. reflexivity. Qed.

Example rstrip_ex : rstrip (lit "abc " ++ [9; 13]%N) = lit "abc".
Proof. reflexivity. Qed.

Example str_of_nat_ex : str_of_nat 0 = lit "0" ∧ str_of_nat 120 = lit "120".
Proof. split; reflexivity. Qed.

Example py_format_ex1 :
  py_format (lit "{}- {} ({} items):") [FStr (lit "  "); FStr (lit "To"); FInt 12]
  = inr (lit "  - To (12 items):").
Proof. reflexivity. Qed.

(** The fill character takes the place of the width: no padding. *)
Example py_format_ex2 :
  py_format (lit "- {:2<}: {}") [FInt 0; FStr (lit "x")] = inr (lit "- 0: x")
  ∧ py_format (lit "- {:<2}: {}") [FInt 0; FStr (lit "x")] = inr (lit "- 0 : x")
  ∧ py_format (lit "{:10<}") [FInt 3]
    = inl (ValueError "Unknown format code '<' for object of type 'int'")
  ∧ py_format (lit "{{}}") [FInt 1] = inr (lit "{}")
  ∧ py_format (lit "a{") [FInt 1]
    = inl (ValueError "Single '{' encountered in format string").
Proof. repeat split; reflexivity. Qed.

(** ** The monad *)

Lemma add_log_nil w : add_log w [] = w.
Proof. destruct w. unfold add_log. simpl. by rewrite app_nil_r. Qed.

Lemma add_log_app w l1 l2 : add_log (add_log w l1) l2 = add_log w (l1 ++ l2).
Proof. unfold add_log. simpl. by rewrite app_assoc. Qed.

Lemma tag_app level l1 l2 : tag level (l1 ++ l2) = tag level l1 ++ tag level l2.
Proof. apply fmap_app. Qed.

Lemma tag_cons level x l : tag level (x :: l) = (level, x) :: tag level l.
Proof. reflexivity. Qed.

Lemma writes_ret {A} (a : A) : writes (mret a : M A) (inr a) [].
Proof. intros w. by rewrite add_log_nil. Qed.

Lemma writes_raise {A} e : writes (raise e : M A) (inl e) [].
Proof. intros w. by rewrite add_log_nil. Qed.

Lemma writes_lift {A} (r : result A) : writes (lift r) r [].
Proof. intros w. by rewrite add_log_nil. Qed.

Lemma writes_log level msg : writes (logger_log level msg) (inr ()) [(level, msg)].
Proof. by intros w. Qed.

Lemma writes_bind {A B} (m : M A) (f : A → M B) a l1 r l2 :
  writes m (inr a) l1 → writes (f a) r l2 → writes (m ≫= f) r (l1 ++ l2).
Proof.
  intros Hm Hf w. unfold mbind, M_bind. rewrite Hm, Hf. by rewrite add_log_app.
Qed.

Lemma writes_bind_raise {A B} (m : M A) (f : A → M B) e l :
  writes m (inl e) l → writes (m ≫= f) (inl e) l.
Proof. intros Hm w. unfold mbind, M_bind. by rewrite Hm. Qed.

Lemma writes_logt level t args msg :
  py_format t args = inr msg → writes (logt level t args) (inr ()) [(level, msg)].
Proof.
  intros H. unfold logt. rewrite H.
  apply (writes_bind _ _ msg [] _ [(level, msg)]); [apply writes_lift | apply writes_log].
Qed.

Lemma writes_logt_raise level t args e :
  py_format t args = inl e → writes (logt level t args) (inl e) [].
Proof. intros H. unfold logt. rewrite H. apply writes_bind_raise, writes_lift. Qed.

Lemma writes_inj {A} (m : M A) r1 l1 r2 l2 :
  writes m r1 l1 → writes m r2 l2 → r1 = r2 ∧ l1 = l2.
Proof.
  intros H1 H2. specialize (H1 empty_world). rewrite (H2 empty_world) in H1.
  inversion H1. done.
Qed.

Lemma logger_only_run {A} (m : M A) :
  logger_only m → writes m (m empty_world).1 (w_log (m empty_world).2).
Proof. intros (r & ls & H). by rewrite (H empty_world). Qed.

Lemma logger_only_bind {A B} (m : M A) (f : A → M B) :
  logger_only m → (∀ a, logger_only (f a)) → logger_only (m ≫= f).
Proof.
  intros ([e|a] & l1 & Hm) Hf.
  - exists (inl e), l1. by apply writes_bind_raise.
  - destruct (Hf a) as (r & l2 & Ha). exists r, (l1 ++ l2). by eapply writes_bind.
Qed.

Lemma logger_only_logt level t args : logger_only (logt level t args).
Proof.
  destruct (py_format t args) as [e|msg] eqn:H.
  - eexists _, _. by apply writes_logt_raise.
  - eexists _, _. by apply writes_logt.
Qed.

Lemma logger_only_for_each {A} (body : A → M ()) l :
  (∀ x, x ∈ l → logger_only (body x)) → logger_only (for_each body l).
Proof.
  induction l as [|x l IH]; intros H; simpl.
  - eexists _, _. apply writes_ret.
  - apply logger_only_bind; [apply H; left | intros _; apply IH].
    intros y Hy. apply H. by right.
Qed.

Lemma logger_only_for_enumerate {A} (body : nat → A → M ()) k l :
  (∀ i x, x ∈ l → logger_only (body i x)) → logger_only (for_enumerate body k l).
Proof.
  revert k. induction l as [|x l IH]; intros k H; simpl.
  - eexists _, _. apply writes_ret.
  - apply logger_only_bind; [apply H; left | intros _; apply IH].
    intros i y Hy. apply H. by right.
Qed.

(** A loop whose body logs one line per element and returns. *)
Lemma writes_for_each_lines {A} (body : A → M ()) (line : A → Level * str) l :
  (∀ x, writes (body x) (inr ()) [line x]) →
  writes (for_each body l) (inr ()) (line <$> l).
Proof.
  intros H. induction l as [|x l IH]; simpl.
  - apply writes_ret.
  - apply (writes_bind _ _ () [line x]); [apply H | apply IH].
Qed.

(** ** The templates of the program *)

Ltac format_eval := intros; cbv -[app str_of_nat]; rewrite ?app_nil_r; reflexivity.

Lemma format_header_label p :
  py_format (lit "{}Header:") [FStr p] = inr (p ++ lit "Header:").
Proof. format_eval. Qed.

Lemma format_group_head p k n :
  py_format (lit "{}- {} ({} items):") [FStr p; FStr k; FInt n]
  = inr (p ++ lit "- " ++ k ++ lit " (" ++ str_of_nat n ++ lit " items):").
Proof. format_eval. Qed.

Lemma format_single p k v :
  py_format (lit "{}- {}: {}") [FStr p; FStr k; FStr v]
  = inr (p ++ lit "- " ++ k ++ lit ": " ++ v).
Proof. format_eval. Qed.

Lemma format_folded_head p k :
  py_format (lit "{}- {}:") [FStr p; FStr k] = inr (p ++ lit "- " ++ k ++ lit ":").
Proof. format_eval. Qed.

Lemma format_folded_first p l :
  py_format (lit "{}-- {}") [FStr p; FStr l] = inr (p ++ lit "-- " ++ l).
Proof. format_eval. Qed.

Lemma format_folded_next p l :
  py_format (lit "{}.. {}") [FStr p; FStr l] = inr (p ++ lit ".. " ++ l).
Proof. format_eval. Qed.

Lemma format_summary p i (info : PartInfo) :
  py_format
    (lit "{}Message content {} (content_type: {}, params: {}, charset: {}, encoding: {}):")
    [FStr p; FStr i; FStr (content_type info); FStr (params_text info);
     FStr (charset_text info); FStr (opt_text (charset_param info))]
  = inr (summary_line info i p).
Proof. format_eval. Qed.

Lemma format_preample p :
  py_format (lit "{}preample:") [FStr p] = inr (p ++ lit "preample:").
Proof. format_eval. Qed.

Lemma format_quoted p l :
  py_format (lit "{}> {}") [FStr p; FStr l] = inr (p ++ lit "> " ++ l).
Proof. format_eval. Qed.

Lemma format_binary p n :
  py_format (lit "{}> (Possibly binary data with size {})") [FStr p; FInt n]
  = inr (p ++ lit "> (Possibly binary data with size " ++ str_of_nat n ++ lit ")").
Proof. format_eval. Qed.

Lemma format_defects p :
  py_format (lit "{}defects:") [FStr p] = inr (p ++ lit "defects:").
Proof. format_eval. Qed.

Lemma format_defect p k d :
  py_format (lit "{}- {} (detail: {})") [FStr p; FStr k; FStr d]
  = inr (p ++ lit "- " ++ k ++ lit " (detail: " ++ d ++ lit ")").
Proof. format_eval. Qed.

Lemma format_child_label i k :
  py_format (lit "{}-{}") [FStr i; FInt k] = inr (child_label i k).
Proof. format_eval. Qed.

Lemma format_echo l :
  py_format (lit ">>> {}") [FStr l] = inr (lit ">>> " ++ l).
Proof. format_eval. Qed.

Lemma format_handling c m :
  py_format (lit "Exception raised during handling stdin ({}, {}") [FStr c; FStr m]
  = inr (lit "Exception raised during handling stdin (" ++ c ++ lit ", " ++ m).
Proof. format_eval. Qed.

Lemma format_closing c m :
  py_format (lit "Exception raised during closing out_File ({}, {}") [FStr c; FStr m]
  = inr (lit "Exception raised during closing out_File (" ++ c ++ lit ", " ++ m).
Proof. format_eval. Qed.

Lemma format_environ k v :
  py_format (lit "- " ++ [QUOTE] ++ lit "{}" ++ [QUOTE] ++ lit " -> "
             ++ [QUOTE] ++ lit "{}" ++ [QUOTE]) [FStr k; FStr v]
  = inr (lit "- " ++ [QUOTE] ++ k ++ [QUOTE] ++ lit " -> " ++ [QUOTE] ++ v ++ [QUOTE]).
Proof. format_eval. Qed.

(** ** The body formatter, part by part *)

Lemma writes_dump_lines level prefix text :
  writes (dump_lines level prefix text) (inr ()) (tag level (quoted_lines prefix text)).
Proof.
  unfold dump_lines, tag, quoted_lines. rewrite <- list_fmap_compose.
  apply writes_for_each_lines. intros line. apply writes_logt, format_quoted.
Qed.

(** The summary line and the preamble. *)
Lemma writes_body_head level prefix message_index info :
  writes (logf level
            "{}Message content {} (content_type: {}, params: {}, charset: {}, encoding: {}):"
            [FStr prefix; FStr message_index; FStr (content_type info);
             FStr (params_text info); FStr (charset_text info);
             FStr (opt_text (charset_param info))];;
          if truthy (preamble info)
          then logf level "{}preample:" [FStr prefix];;
               dump_lines level prefix (default [] (preamble info))
          else mret ())
         (inr ()) (tag level (head_lines info message_index prefix)).
Proof.
  unfold head_lines. rewrite tag_cons.
  apply (writes_bind _ _ () [(level, summary_line info message_index prefix)]).
  { apply writes_logt, format_summary. }
  destruct (truthy (preamble info)).
  - rewrite tag_cons.
    apply (writes_bind _ _ () [(level, prefix ++ lit "preample:")]).
    + apply writes_logt, format_preample.
    + apply writes_dump_lines.
  - apply writes_ret.
Qed.

Lemma writes_body_defects level prefix info :
  writes (match defects info with
          | [] => mret ()
          | ds =>
              logf level "{}defects:" [FStr prefix];;
              for_each (λ defect : str * str,
                          logf level "{}- {} (detail: {})"
                            [FStr prefix; FStr defect.1; FStr defect.2])
                       ds
          end)
         (inr ()) (tag level (defect_lines info prefix)).
Proof.
  unfold defect_lines. destruct (defects info) as [|d ds] eqn:E.
  - apply writes_ret.
  - rewrite tag_cons.
    apply (writes_bind _ _ () [(level, prefix ++ lit "defects:")]).
    + apply writes_logt, format_defects.
    + unfold tag. rewrite <- list_fmap_compose.
      apply writes_for_each_lines. intros x. apply writes_logt, format_defect.
Qed.

(** The epilogue and the defects. *)
Lemma writes_body_tail level prefix info :
  writes ((if truthy (epilogue info)
           then raise (A := ()) (mkExn (lit "AttributeError")
                                   (lit "'str' object has no attribute 'fromat'"));;
                dump_lines level prefix (default [] (epilogue info))
           else mret ());;
          match defects info with
          | [] => mret ()
          | ds =>
              logf level "{}defects:" [FStr prefix];;
              for_each (λ defect : str * str,
                          logf level "{}- {} (detail: {})"
                            [FStr prefix; FStr defect.1; FStr defect.2])
                       ds
          end)
         (tail_outcome info) (tag level (tail_lines info prefix)).
Proof.
  unfold tail_outcome, tail_lines. destruct (truthy (epilogue info)).
  - apply writes_bind_raise, writes_bind_raise, writes_raise.
  - apply (writes_bind _ _ () []); [apply writes_ret | apply writes_body_defects].
Qed.

Lemma M_bind_assoc {A B C} (m : M A) (f : A → M B) (g : B → M C) w :
  (m ≫= (λ a, f a ≫= g)) w = ((m ≫= f) ≫= g) w.
Proof. unfold mbind, M_bind. by destruct (m w) as [[e|a] w']. Qed.

Lemma writes_ext {A} (m m' : M A) r l :
  (∀ w, m' w = m w) → writes m r l → writes m' r l.
Proof. intros E H w. by rewrite E. Qed.

(** Head, content and tail of a part, composed. *)
Lemma writes_frame (head content tail : M ()) lh rc lc rt lt :
  writes head (inr ()) lh →
  writes content rc lc →
  writes tail rt lt →
  writes (head ≫= λ _, content ≫= λ _, tail)
         (match rc with inl e => inl e | inr _ => rt end)
         (lh ++ lc ++ match rc with inl _ => [] | inr _ => lt end).
Proof.
  intros Hh Hc Ht. apply (writes_bind _ _ () lh); [done|].
  destruct rc as [e|[]].
  - rewrite app_nil_r. by apply writes_bind_raise.
  - by apply (writes_bind _ _ () lc).
Qed.

Section Body.
Variable rt : Runtime.

Lemma writes_dump_body msg level message_index prefix indent_str rc lc :
  writes (match msg with
          | Part info data => dump_payload rt info data level prefix
          | Multipart _ parts =>
              dump_children rt level message_index prefix indent_str 0 parts
          end) rc lc →
  writes (dump_email_body_to_logger rt msg level message_index prefix indent_str)
         (match rc with inl e => inl e | inr _ => tail_outcome (msg_info msg) end)
         (tag level (head_lines (msg_info msg) message_index prefix) ++ lc
          ++ match rc with
             | inl _ => []
             | inr _ => tag level (tail_lines (msg_info msg) prefix)
             end).
Proof.
  intros Hc.
  eapply writes_ext;
    [|apply (writes_frame _ _ _ _ _ _ _ _
               (writes_body_head level prefix message_index (msg_info msg)) Hc
               (writes_body_tail level prefix (msg_info msg)))].
  intros w. rewrite <- M_bind_assoc. by destruct msg.
Qed.

Lemma writes_payload_text info data level prefix text :
  before_slash (content_type info) = lit "text" →
  bytes_decode rt data (resolved_encoding info) = inr text →
  writes (dump_payload rt info data level prefix) (inr ())
         (tag level (quoted_lines prefix text)).
Proof.
  intros Ht Hd. unfold dump_payload. rewrite decide_True by done. rewrite Hd.
  apply (writes_bind _ _ text []); [apply writes_lift | apply writes_dump_lines].
Qed.

Lemma writes_payload_undecodable info data level prefix e :
  before_slash (content_type info) = lit "text" →
  bytes_decode rt data (resolved_encoding info) = inl e →
  writes (dump_payload rt info data level prefix) (inl e) [].
Proof.
  intros Ht Hd. unfold dump_payload. rewrite decide_True by done. rewrite Hd.
  apply writes_bind_raise, writes_lift.
Qed.

Lemma writes_payload_binary info data level prefix :
  before_slash (content_type info) ≠ lit "text" →
  writes (dump_payload rt info data level prefix) (inr ())
    [(level, prefix ++ lit "> (Possibly binary data with size "
             ++ str_of_nat (length data) ++ lit ")")].
Proof.
  intros Ht. unfold dump_payload. rewrite decide_False by done.
  apply writes_logt, format_binary.
Qed.

Lemma logger_only_payload info data level prefix :
  logger_only (dump_payload rt info data level prefix).
Proof.
  unfold dump_payload. case_decide.
  - destruct (bytes_decode rt data (resolved_encoding info)) as [e|text].
    + eexists _, _. apply writes_bind_raise, writes_lift.
    + eexists _, _. eapply writes_bind; [apply writes_lift | apply writes_dump_lines].
  - apply logger_only_logt.
Qed.

Lemma Message_ind' (P : Message → Prop) :
  (∀ info data, P (Part info data)) →
  (∀ info parts, Forall P parts → P (Multipart info parts)) →
  ∀ msg, P msg.
Proof.
  intros HP HM. fix IH 1. intros [info data|info parts].
  - apply HP.
  - apply HM. induction parts as [|sub parts IHparts]; constructor.
    + apply IH.
    + apply IHparts.
Qed.

Lemma logger_only_body msg :
  ∀ level message_index prefix indent_str,
    logger_only (dump_email_body_to_logger rt msg level message_index prefix indent_str).
Proof.
  induction msg as [info data|info parts IH] using Message_ind';
    intros level message_index prefix indent_str.
  - destruct (logger_only_payload info data level prefix) as (rc & lc & Hc).
    eexists _, _. by apply (writes_dump_body (Part info data)).
  - assert (logger_only (dump_children rt level message_index prefix indent_str 0 parts))
      as (rc & lc & Hc).
    { apply logger_only_for_enumerate. intros i sub Hsub.
      rewrite Forall_forall in IH. rewrite format_child_label.
      apply logger_only_bind; [eexists _, _; apply writes_lift|].
      intros a. apply IH, Hsub. }
    eexists _, _. by apply (writes_dump_body (Multipart info parts)).
Qed.

(** Rendering from any world is rendering from the empty one. *)
Lemma writes_body_run msg level message_index prefix indent_str :
  writes (dump_email_body_to_logger rt msg level message_index prefix indent_str)
         (body_outcome rt msg level message_index prefix indent_str)
         (body_log rt msg level message_index prefix indent_str).
Proof. apply logger_only_run, logger_only_body. Qed.
End Body.

Section Children.
Variable rt : Runtime.
Variables (level : Level) (message_index prefix indent_str : str).

Lemma children_log_cons k sub l :
  children_log rt level message_index prefix indent_str k (sub :: l)
  = body_log rt sub level (child_label message_index (k + 1))
      (prefix ++ indent_str) (lit "  ") ++ children_log rt level message_index prefix indent_str (S k) l.
Proof.
  unfold children_log. simpl. rewrite Nat.add_0_r. f_equal. f_equal.
  apply imap_ext. intros j x _. simpl. do 2 f_equal. lia.
Qed.

Lemma children_return_cons k sub l :
  children_return rt level message_index prefix indent_str k (sub :: l) ↔
  body_outcome rt sub level (child_label message_index (k + 1))
    (prefix ++ indent_str) (lit "  ") = inr ()
  ∧ children_return rt level message_index prefix indent_str (S k) l.
Proof.
  unfold children_return. split.
  - intros H. split.
    + specialize (H 0 sub eq_refl). by rewrite Nat.add_0_r in H.
    + intros j x Hx. specialize (H (S j) x Hx).
      by replace (S k + j + 1) with (k + S j + 1) by lia.
  - intros [H0 H] [|j] x Hx; simpl in Hx.
    + inversion Hx; subst. by rewrite Nat.add_0_r.
    + specialize (H j x Hx). by replace (k + S j + 1) with (S k + j + 1) by lia.
Qed.

Lemma dump_children_cons k sub l w :
  dump_children rt level message_index prefix indent_str k (sub :: l) w
  = (dump_email_body_to_logger rt sub level (child_label message_index (k + 1))
       (prefix ++ indent_str) (lit "  ");;
     dump_children rt level message_index prefix indent_str (S k) l) w.
Proof.
  unfold dump_children. simpl. rewrite format_child_label. reflexivity.
Qed.

(** The loop renders the children in order; the records of those that
    return come first, then what the rest of the loop does. *)
Lemma writes_children_app before : ∀ k rest r l,
  children_return rt level message_index prefix indent_str k before →
  writes (dump_children rt level message_index prefix indent_str
            (k + length before) rest) r l →
  writes (dump_children rt level message_index prefix indent_str k (before ++ rest))
         r (children_log rt level message_index prefix indent_str k before ++ l).
Proof.
  induction before as [|sub before IH]; intros k rest r l Hret Hrest.
  - simpl in *. by rewrite Nat.add_0_r in Hrest.
  - apply children_return_cons in Hret as [H0 Hret].
    rewrite children_log_cons, <- app_assoc.
    eapply writes_ext; [intros w; apply dump_children_cons|].
    eapply writes_bind.
    + rewrite <- H0. apply writes_body_run.
    + apply IH; [done|]. by replace (S k + length before) with (k + length (sub :: before))
        by (simpl; lia).
Qed.

Lemma writes_children k l :
  children_return rt level message_index prefix indent_str k l →
  writes (dump_children rt level message_index prefix indent_str k l)
         (inr ()) (children_log rt level message_index prefix indent_str k l).
Proof.
  intros H. rewrite <- (app_nil_r l) at 1. rewrite <- (app_nil_r (children_log rt level message_index prefix indent_str k l)).
  apply writes_children_app; [done|]. apply writes_ret.
Qed.

(** A child that raises ends the loop: its records are the last. *)
Lemma writes_children_raise k before child after e :
  children_return rt level message_index prefix indent_str k before →
  body_outcome rt child level (child_label message_index (k + length before + 1))
    (prefix ++ indent_str) (lit "  ") = inl e →
  writes (dump_children rt level message_index prefix indent_str k
            (before ++ child :: after))
         (inl e)
         (children_log rt level message_index prefix indent_str k before
          ++ body_log rt child level (child_label message_index (k + length before + 1))
               (prefix ++ indent_str) (lit "  ")).
Proof.
  intros Hret He. apply writes_children_app; [done|].
  eapply writes_ext; [intros w; apply dump_children_cons|].
  apply writes_bind_raise. rewrite <- He. apply writes_body_run.
Qed.
End Children.

Section BodyClaims.
Variable rt : Runtime.

Lemma logger_only_children level message_index prefix indent_str k parts :
  logger_only (dump_children rt level message_index prefix indent_str k parts).
Proof.
  apply logger_only_for_enumerate. intros i sub _. rewrite format_child_label.
  apply logger_only_bind; [eexists _, _; apply writes_lift|].
  intros a. apply logger_only_body.
Qed.

Lemma logger_only_content msg level message_index prefix indent_str :
  logger_only (dump_content rt msg level message_index prefix indent_str).
Proof.
  destruct msg; [apply logger_only_payload | apply logger_only_children].
Qed.

(** What a part logs and how it ends, from what its content does. *)
Lemma body_run_content msg level message_index prefix indent_str rc lc :
  writes (dump_content rt msg level message_index prefix indent_str) rc lc →
  body_outcome rt msg level message_index prefix indent_str
  = match rc with inl e => inl e | inr _ => tail_outcome (msg_info msg) end
  ∧ body_log rt msg level message_index prefix indent_str
    = tag level (head_lines (msg_info msg) message_index prefix) ++ lc
      ++ match rc with
         | inl _ => []
         | inr _ => tag level (tail_lines (msg_info msg) prefix)
         end.
Proof.
  intros Hc. eapply writes_inj; [apply writes_body_run|].
  apply writes_dump_body. by destruct msg.
Qed.

(** Every part starts with its summary line. *)
Lemma body_log_summary msg level message_index prefix indent_str :
  ∃ rest, body_log rt msg level message_index prefix indent_str
          = (level, summary_line (msg_info msg) message_index prefix) :: rest.
Proof.
  destruct (logger_only_content msg level message_index prefix indent_str)
    as (rc & lc & Hc).
  apply body_run_content in Hc as [_ ->]. unfold head_lines. rewrite tag_cons.
  eexists. reflexivity.
Qed.

(** C3 (as amended).  In a multipart message the child at position [i]
    (counted from 0) is rendered, once the children before it have
    returned, right after them and in their order, under the label of the
    parent followed by a hyphen and [i + 1], behind the prefix extended by
    the indentation unit.  So below the root [0] the first child is [0-1]
    and the first child of that child is [0-1-1]; [0-1-2] is its second
    child. *)
Theorem multipart_child_label info parts level message_index prefix indent_str i sub :
  parts !! i = Some sub →
  children_return rt level message_index prefix indent_str 0 (take i parts) →
  (∃ rest after,
     body_log rt sub level (child_label message_index (i + 1))
       (prefix ++ indent_str) (lit "  ")
     = (level, summary_line (msg_info sub) (child_label message_index (i + 1))
                 (prefix ++ indent_str)) :: rest
     ∧ body_log rt (Multipart info parts) level message_index prefix indent_str
       = tag level (head_lines info message_index prefix)
         ++ children_log rt level message_index prefix indent_str 0 (take i parts)
         ++ body_log rt sub level (child_label message_index (i + 1))
              (prefix ++ indent_str) (lit "  ")
         ++ after)
  ∧ child_label (lit "0") 1 = lit "0-1"
  ∧ child_label (child_label (lit "0") 1) 1 = lit "0-1-1"
  ∧ child_label (child_label (lit "0") 1) 2 = lit "0-1-2".
Proof.
  intros Hi Hret. split; [|by repeat split].
  destruct (body_log_summary sub level (child_label message_index (i + 1))
              (prefix ++ indent_str) (lit "  ")) as [rest Hrest].
  assert (length (take i parts) = i) as Hlen.
  { apply length_take_le. apply lookup_lt_Some in Hi. lia. }
  destruct (logger_only_children level message_index prefix indent_str
              (S i) (drop (S i) parts)) as (r & l & Hl).
  assert (writes (dump_children rt level message_index prefix indent_str 0 parts)
            (match body_outcome rt sub level (child_label message_index (i + 1))
                     (prefix ++ indent_str) (lit "  ") with
             | inl e => inl e | inr _ => r end)
            (children_log rt level message_index prefix indent_str 0 (take i parts)
             ++ body_log rt sub level (child_label message_index (i + 1))
                  (prefix ++ indent_str) (lit "  ")
             ++ match body_outcome rt sub level (child_label message_index (i + 1))
                        (prefix ++ indent_str) (lit "  ") with
                | inl _ => [] | inr _ => l end)) as Hloop.
  { rewrite <- (take_drop_middle parts i sub Hi) at 1.
    apply writes_children_app; [done|]. simpl. rewrite Hlen.
    eapply writes_ext; [intros w; apply dump_children_cons|].
    pose proof (writes_body_run rt sub level (child_label message_index (i + 1))
                  (prefix ++ indent_str) (lit "  ")) as Hsub.
    destruct (body_outcome rt sub level (child_label message_index (i + 1))
                (prefix ++ indent_str) (lit "  ")) as [e|[]].
    - rewrite app_nil_r. by apply writes_bind_raise.
    - by eapply writes_bind. }
  apply (body_run_content (Multipart info parts)) in Hloop as [_ Hlog].
  exists rest. eexists. split; [done|]. rewrite Hlog. simpl.
  rewrite <- !app_assoc. reflexivity.
Qed.
End BodyClaims.

Lemma multipart_child_label_witness :
  let rt := sample_runtime sample_tree None in
  let info := plain_info [(lit "Subject", lit "hi")] "multipart/mixed" None in
  let first := Multipart (plain_info [] "multipart/alternative" None)
                 [Part (plain_info [] "text/plain" None) (blit "hello");
                  Part (plain_info [] "text/html" (Some (lit "latin-1"))) [Byte.xe9]] in
  let second := Part (plain_info [] "image/png" None) (blit "xyz") in
  [first; second] !! 1 = Some second
  ∧ children_return rt INFO (lit "0") [] (lit "  ") 0 (take 1 [first; second])
  ∧ ∃ rest after,
      body_log rt second INFO (lit "0-2") (lit "  ") (lit "  ")
      = (INFO, summary_line (msg_info second) (lit "0-2") (lit "  ")) :: rest
      ∧ body_log rt (Multipart info [first; second]) INFO (lit "0") [] (lit "  ")
        = tag INFO (head_lines info (lit "0") [])
          ++ children_log rt INFO (lit "0") [] (lit "  ") 0 [first]
          ++ body_log rt second INFO (lit "0-2") (lit "  ") (lit "  ")
          ++ after.
Proof.
  intros rt info first second.
  assert (children_return rt INFO (lit "0") [] (lit "  ") 0 (take 1 [first; second]))
    as Hret.
  { intros [|[|j]] sub Hsub; simpl in Hsub; inversion Hsub; subst.
    vm_compute. reflexivity. }
  split; [reflexivity|]. split; [exact Hret|].
  exact (proj1 (multipart_child_label rt info [first; second] INFO (lit "0") []
                  (lit "  ") 1 second eq_refl Hret)).
Defined.

(** C3, the example of the claim as stated: in a chain of three parts the
    first child of the first child is labelled [0-1-1], and no record
    carries the label [0-1-2]. *)
Lemma first_grandchild_label_counterexample :
  let log := body_log (sample_runtime depth3_tree None) depth3_tree INFO
               (lit "0") [] (lit "  ") in
  log = tag INFO
          [summary_line (plain_info [] "multipart/mixed" None) (lit "0") [];
           summary_line (plain_info [] "multipart/alternative" None) (lit "0-1") (lit "  ");
           summary_line (plain_info [] "text/plain" None) (lit "0-1-1") (lit "    ");
           lit "    > hello"]
  ∧ forallb (λ r : Level * str, negb (occurs_in (lit "0-1-2") r.2)) log = true.
Proof. split; vm_compute; reflexivity. Qed.

Section LeafClaims.
Variable rt : Runtime.

(** C5.  A part with a non-empty epilogue never finishes rendering: if
    nothing raised before, the misspelt [fromat] raises [AttributeError]
    once the content is rendered, and neither the epilogue nor the
    defects are logged. *)
Theorem epilogue_rendering_raises msg level message_index prefix indent_str :
  truthy (epilogue (msg_info msg)) = true →
  ∃ e, body_outcome rt msg level message_index prefix indent_str = inl e
       ∧ ∀ lc, writes (dump_content rt msg level message_index prefix indent_str)
                 (inr ()) lc →
               e = AttributeError_fromat
               ∧ body_log rt msg level message_index prefix indent_str
                 = tag level (head_lines (msg_info msg) message_index prefix) ++ lc.
Proof.
  intros Hepi.
  destruct (logger_only_content rt msg level message_index prefix indent_str)
    as (rc & lc & Hc).
  pose proof (body_run_content rt _ _ _ _ _ _ _ Hc) as [Hout Hlog].
  unfold tail_outcome in Hout. rewrite Hepi in Hout.
  exists (match rc with inl e => e | inr _ => AttributeError_fromat end). split.
  - rewrite Hout. by destruct rc.
  - intros lc' Hc'. destruct (writes_inj _ _ _ _ _ Hc Hc') as [-> ->].
    split; [done|]. rewrite Hlog. unfold tail_lines. rewrite Hepi.
    simpl. by rewrite app_nil_r.
Qed.

(** C8.  A text part whose payload is the encoding of [text] under the
    codec of its resolved encoding (the [charset] parameter, or
    [us-ascii] without one) decodes to [text] itself, and the part logs
    its head, then the lines of [text] behind [prefix] and [> ], stripped
    on the right. *)
Theorem text_part_round_trip info data codec text level message_index prefix indent_str :
  before_slash (content_type info) = lit "text" →
  rt_lookup rt (resolved_encoding info) = inr codec →
  codec_lossless codec →
  codec_encode codec text = Some data →
  bytes_decode rt data (resolved_encoding info) = inr text
  ∧ writes (dump_email_body_to_logger rt (Part info data) level message_index
              prefix indent_str)
      (tail_outcome info)
      (tag level (head_lines info message_index prefix)
       ++ tag level ((λ line, prefix ++ lit "> " ++ rstrip line) <$> split_nl text)
       ++ tag level (tail_lines info prefix))
  ∧ (charset_param info = None → resolved_encoding info = lit "us-ascii")
  ∧ (∀ c cs, charset_param info = Some (c :: cs) → resolved_encoding info = c :: cs).
Proof.
  intros Htext Hlookup Hlossless Henc.
  assert (bytes_decode rt data (resolved_encoding info) = inr text) as Hdec.
  { unfold bytes_decode. rewrite Hlookup. simpl. by apply Hlossless. }
  split; [done|]. split.
  - apply (writes_dump_body rt (Part info data) _ _ _ _ (inr ())).
    by apply writes_payload_text.
  - unfold resolved_encoding. split.
    + by intros ->.
    + by intros c cs ->.
Qed.

(** C10.  What a part logs around its content.  A non-empty preamble is
    logged right after the summary line, under the label [preample:], line
    by line behind [prefix] and [> ]; with a preamble that is absent or
    the empty string the content follows the summary line at once, with no
    label line and no preamble line.  With an epilogue that is absent or
    the empty string nothing is logged for it either: the content is
    followed by the defects only.  So a part whose preamble and epilogue
    are empty logs what the same part without them logs. *)
Theorem preamble_label_and_empty_texts msg level message_index prefix indent_str rc lc :
  writes (dump_content rt msg level message_index prefix indent_str) rc lc →
  writes (dump_email_body_to_logger rt msg level message_index prefix indent_str)
    (match rc, epilogue (msg_info msg) with
     | inl e, _ => inl e
     | inr _, Some (_ :: _) => inl AttributeError_fromat
     | inr _, _ => inr ()
     end)
    ((level, summary_line (msg_info msg) message_index prefix)
     :: match preamble (msg_info msg) with
        | Some (c :: p) =>
            (level, prefix ++ lit "preample:")
            :: tag level ((λ line, prefix ++ lit "> " ++ rstrip line)
                            <$> split_nl (c :: p))
        | _ => []
        end
     ++ lc
     ++ match rc, epilogue (msg_info msg) with
        | inr _, None | inr _, Some [] => tag level (defect_lines (msg_info msg) prefix)
        | _, _ => []
        end)
  ∧ ((preamble (msg_info msg) = None ∨ preamble (msg_info msg) = Some []) →
     (epilogue (msg_info msg) = None ∨ epilogue (msg_info msg) = Some []) →
     writes (dump_email_body_to_logger rt msg level message_index prefix indent_str)
       rc
       ((level, summary_line (msg_info msg) message_index prefix)
        :: lc
        ++ match rc with
           | inr _ => tag level (defect_lines (msg_info msg) prefix)
           | inl _ => []
           end))
  ∧ (∀ w, dump_email_body_to_logger rt (map_info (set_preamble (Some [])) msg)
            level message_index prefix indent_str w
          = dump_email_body_to_logger rt (map_info (set_preamble None) msg)
              level message_index prefix indent_str w)
  ∧ (∀ w, dump_email_body_to_logger rt (map_info (set_epilogue (Some [])) msg)
            level message_index prefix indent_str w
          = dump_email_body_to_logger rt (map_info (set_epilogue None) msg)
              level message_index prefix indent_str w).
Proof.
  intros Hc.
  assert (writes (dump_email_body_to_logger rt msg level message_index prefix indent_str)
            (match rc with inl e => inl e | inr _ => tail_outcome (msg_info msg) end)
            (tag level (head_lines (msg_info msg) message_index prefix) ++ lc
             ++ match rc with
                | inl _ => []
                | inr _ => tag level (tail_lines (msg_info msg) prefix)
                end)) as Hbody.
  { apply writes_dump_body. by destruct msg. }
  unfold head_lines, tail_outcome, tail_lines, quoted_lines in Hbody.
  rewrite tag_cons in Hbody.
  split; [|split; [|split]].
  - destruct (preamble (msg_info msg)) as [[|c p]|], (epilogue (msg_info msg)) as [[|c' p']|],
      rc as [e|[]]; exact Hbody.
  - intros [Hp|Hp] [He|He]; rewrite Hp, He in Hbody; destruct rc as [e|[]]; exact Hbody.
  - intros w. by destruct msg.
  - intros w. by destruct msg.
Qed.
End LeafClaims.

(** ** The three codecs decode what they encode *)

Lemma ascii_decode_encode text : ∀ data pos,
  mapM (λ c, if (c <? 128)%N then Byte.of_N c else None) text = Some data →
  ascii_decode_from pos data = inr text.
Proof.
  induction text as [|c text IH]; intros data pos H.
  - apply mapM_Some in H. inversion H; subst. reflexivity.
  - apply mapM_Some in H. inversion H as [|? b ? data' Hc Hrest]; subst.
    apply mapM_Some in Hrest. simpl.
    destruct (c <? 128)%N eqn:Hlt; [|done].
    apply Byte.to_of_N in Hc. rewrite Hc, Hlt, (IH _ _ Hrest). reflexivity.
Qed.

Lemma ascii_codec_lossless : codec_lossless ascii_codec.
Proof. intros text data H. by apply ascii_decode_encode. Qed.

Lemma latin_1_codec_lossless : codec_lossless latin_1_codec.
Proof.
  intros text data H. simpl in *. f_equal. apply mapM_Some in H.
  induction H as [|c b text data Hc _ IH]; [done|].
  rewrite fmap_cons, IH. f_equal. by apply Byte.to_of_N.
Qed.

Ltac lia_div := zify; Z.div_mod_to_equations; lia.

Ltac decide_bounds :=
  repeat match goal with
         | |- context [(?a <? ?b)%N] => destruct (N.ltb_spec a b); try lia_div
         | |- context [(?a <=? ?b)%N] => destruct (N.leb_spec a b); try lia_div
         | |- context [(?a =? ?b)%N] => destruct (N.eqb_spec a b); try lia_div
         end.

(** One character: the decoder reads back the code point it was encoded
    from and goes on behind its bytes. *)
Lemma utf8_decode_encode_char c ns pos rest :
  utf8_encode_char c = Some ns →
  utf8_decode_from pos (ns ++ rest)
  = (r ← utf8_decode_from (length ns + pos) rest; mret (c :: r)).
Proof.
  unfold utf8_encode_char. intros H.
  destruct (N.ltb_spec c 128); [|destruct (N.ltb_spec c 2048);
    [|destruct (N.ltb_spec c 65536); [|destruct (N.ltb_spec c 1114112)]]].
  - inversion H; subst. simpl. destruct (N.ltb_spec c 128); [done|lia].
  - inversion H; subst. cbn [app utf8_decode_from length]. unfold is_continuation.
    decide_bounds. cbn [andb negb orb].
    replace ((192 + c / 64 - 192) * 64 + (128 + c mod 64 - 128))%N with c
      by lia_div.
    done.
  - destruct ((55296 <=? c) && (c <? 57344))%N eqn:Hs; [done|].
    inversion H; subst. cbn [app utf8_decode_from length]. unfold is_continuation.
    apply andb_false_iff in Hs.
    assert (c < 55296 ∨ 57344 ≤ c)%N as Hc.
    { destruct Hs as [Hs|Hs]; [left; apply N.leb_gt in Hs; lia
                              |right; apply N.ltb_ge in Hs; lia]. }
    clear Hs. decide_bounds; cbn [andb negb orb];
    replace ((224 + c / 4096 - 224) * 4096 + (128 + (c / 64) mod 64 - 128) * 64
             + (128 + c mod 64 - 128))%N with c by lia_div; done.
  - inversion H; subst. cbn [app utf8_decode_from length]. unfold is_continuation.
    decide_bounds; cbn [andb negb orb];
    replace ((240 + c / 262144 - 240) * 262144 + (128 + (c / 4096) mod 64 - 128) * 4096
             + (128 + (c / 64) mod 64 - 128) * 64 + (128 + c mod 64 - 128))%N
      with c by lia_div; done.
  - done.
Qed.

Lemma utf8_decode_encode text : ∀ chunks pos,
  mapM utf8_encode_char text = Some chunks →
  utf8_decode_from pos (concat chunks) = inr text.
Proof.
  induction text as [|c text IH]; intros chunks pos H; apply mapM_Some in H.
  - by inversion H.
  - inversion H as [|? ns ? chunks' Hc Hrest]; subst. apply mapM_Some in Hrest.
    rewrite concat_cons, (utf8_decode_encode_char c ns pos _ Hc).
    by rewrite (IH _ _ Hrest).
Qed.

Lemma utf_8_codec_lossless : codec_lossless utf_8_codec.
Proof.
  intros text data H. simpl in *.
  destruct (mapM utf8_encode_char text) as [chunks|] eqn:Hchunks; [|done].
  simpl in H. apply mapM_Some in H.
  replace (Byte.to_N <$> data) with (concat chunks).
  - by apply utf8_decode_encode.
  - induction H as [|n b ns data Hb _ IH]; [done|].
    rewrite fmap_cons, <- IH. f_equal. symmetry. by apply Byte.to_of_N.
Qed.

(** ** Instances of the theorems on leaf parts *)

Lemma epilogue_rendering_raises_witness :
  truthy (epilogue (msg_info with_epilogue)) = true
  ∧ ∃ e, body_outcome (sample_runtime with_epilogue None) with_epilogue INFO
           (lit "0") [] (lit "  ") = inl e
         ∧ ∀ lc, writes (dump_content (sample_runtime with_epilogue None) with_epilogue
                           INFO (lit "0") [] (lit "  ")) (inr ()) lc →
                 e = AttributeError_fromat
                 ∧ body_log (sample_runtime with_epilogue None) with_epilogue INFO
                     (lit "0") [] (lit "  ")
                   = tag INFO (head_lines (msg_info with_epilogue) (lit "0") []) ++ lc.
Proof.
  split; [reflexivity|].
  exact (epilogue_rendering_raises (sample_runtime with_epilogue None) with_epilogue
           INFO (lit "0") [] (lit "  ") eq_refl).
Defined.

(** C5 at the failing input: the part and its child are logged, then
    [AttributeError] is raised; no line of the epilogue is logged. *)
Example epilogue_failing_input :
  dump_email_body_to_logger (sample_runtime with_epilogue None) with_epilogue INFO
    (lit "0") [] (lit "  ") empty_world
  = (inl AttributeError_fromat,
     add_log empty_world
       (tag INFO
          [summary_line (msg_info with_epilogue) (lit "0") [];
           summary_line (plain_info [] "text/plain" None) (lit "0-1") (lit "  ");
           lit "  > hello"])).
Proof. vm_compute. reflexivity. Qed.

Lemma text_part_round_trip_witness :
  let rt := sample_runtime sample_tree None in
  let info := plain_info [] "text/plain" (Some (lit "UTF-8")) in
  let text := [12354; 233; 32; 10; 128512]%N in
  let data := [Byte.xe3; Byte.x81; Byte.x82; Byte.xc3; Byte.xa9; Byte.x20; Byte.x0a;
               Byte.xf0; Byte.x9f; Byte.x98; Byte.x80] in
  before_slash (content_type info) = lit "text"
  ∧ rt_lookup rt (resolved_encoding info) = inr utf_8_codec
  ∧ codec_lossless utf_8_codec
  ∧ codec_encode utf_8_codec text = Some data
  ∧ bytes_decode rt data (resolved_encoding info) = inr text
  ∧ writes (dump_email_body_to_logger rt (Part info data) INFO (lit "0-1") (lit "  ")
              (lit "  "))
      (inr ())
      (tag INFO [summary_line info (lit "0-1") (lit "  ");
                 (lit "  > " ++ [12354; 233]%N); (lit "  > " ++ [128512]%N)]).
Proof.
  intros rt info text data.
  pose proof (text_part_round_trip rt info data utf_8_codec text INFO (lit "0-1")
                (lit "  ") (lit "  ") eq_refl eq_refl utf_8_codec_lossless eq_refl)
    as (Hdec & Hwrites & _).
  repeat split; try reflexivity; [exact utf_8_codec_lossless | exact Hwrites].
Defined.

Lemma writes_at_empty {A} (m : M A) r l :
  logger_only m → m empty_world = (r, mkWorld l [] None) → writes m r l.
Proof.
  intros (r' & l' & H) H0. rewrite (H empty_world) in H0.
  inversion H0; subst. exact H.
Qed.

Lemma preamble_label_and_empty_texts_witness :
  let rt := sample_runtime plain_mail None in
  let child := [(INFO, lit "  Message content 0-1 (content_type: text/plain, "
                       ++ lit "params: [], charset: None, encoding: None):");
                (INFO, lit "  > hello")] in
  (writes (dump_content rt with_preamble INFO (lit "0") [] (lit "  ")) (inr ()) child
   ∧ writes (dump_email_body_to_logger rt with_preamble INFO (lit "0") [] (lit "  "))
       (inr ())
       ((INFO, summary_line (msg_info with_preamble) (lit "0") [])
        :: (INFO, lit "preample:")
        :: (INFO, lit "> This is a multi-part message in MIME format.")
        :: child))
  ∧ (writes (dump_content rt empty_texts INFO (lit "0") [] (lit "  ")) (inr ()) child
     ∧ writes (dump_email_body_to_logger rt empty_texts INFO (lit "0") [] (lit "  "))
         (inr ())
         ((INFO, summary_line (msg_info empty_texts) (lit "0") []) :: child)).
Proof.
  intros rt child.
  assert (writes (dump_content rt with_preamble INFO (lit "0") [] (lit "  ")) (inr ()) child)
    as H1 by (apply writes_at_empty; [apply logger_only_content | vm_compute; reflexivity]).
  assert (writes (dump_content rt empty_texts INFO (lit "0") [] (lit "  ")) (inr ()) child)
    as H2 by (apply writes_at_empty; [apply logger_only_content | vm_compute; reflexivity]).
  split; (split; [assumption|]).
  - exact (proj1 (preamble_label_and_empty_texts rt with_preamble INFO (lit "0") []
                    (lit "  ") _ _ H1)).
  - exact (proj1 (preamble_label_and_empty_texts rt empty_texts INFO (lit "0") []
                    (lit "  ") _ _ H2)).
Defined.

(** ** The order of the header groups *)

Section Sorting.
Context {A : Type} (key : A → nat).

Local Instance key_le_trans : Transitive (key_le key).
Proof. unfold key_le. intros x y z. lia. Qed.

Lemma insert_by_perm x l : insert_by key x l ≡ₚ x :: l.
Proof.
  induction l as [|y l IH]; simpl; [done|].
  destruct (key x <=? key y); [done|]. rewrite IH. apply Permutation_swap.
Qed.

Lemma sorted_perm l : sorted key l ≡ₚ l.
Proof.
  induction l as [|x l IH]; simpl; [done|].
  change (insert_by key x (sorted key l) ≡ₚ x :: l). by rewrite insert_by_perm, IH.
Qed.

Lemma insert_by_Sorted x l :
  Sorted (key_le key) l → Sorted (key_le key) (insert_by key x l).
Proof.
  induction l as [|y l IH]; intros Hl; simpl.
  - repeat constructor.
  - destruct (key x <=? key y) eqn:Hxy.
    + constructor; [done|]. constructor. by apply Nat.leb_le.
    + apply Nat.leb_gt in Hxy. apply Sorted_inv in Hl as [Hl Hy].
      constructor; [by apply IH|].
      destruct l as [|z l]; simpl.
      * constructor. unfold key_le. lia.
      * destruct (key x <=? key z).
        -- constructor. unfold key_le. lia.
        -- constructor. by inversion Hy.
Qed.

Lemma sorted_Sorted l : Sorted (key_le key) (sorted key l).
Proof.
  induction l as [|x l IH]; simpl; [constructor|].
  by apply insert_by_Sorted.
Qed.
End Sorting.

Lemma list_index_inj l x y :
  x ∈ l → y ∈ l → list_index x l = list_index y l → x = y.
Proof.
  induction l as [|z l IH]; intros Hx Hy; [by apply elem_of_nil in Hx|].
  simpl. destruct (decide (x = z)), (decide (y = z)); subst; try done.
  intros [=]. apply elem_of_cons in Hx as [?|Hx]; [done|].
  apply elem_of_cons in Hy as [?|Hy]; [done|]. by apply IH.
Qed.

Lemma elem_of_first_occurrences l x : x ∈ first_occurrences l ↔ x ∈ l.
Proof.
  induction l as [|y l IH]; simpl; [done|].
  rewrite !elem_of_cons, list_elem_of_filter, IH.
  destruct (decide (x = y)) as [->|Hne].
  - split; intros _; by left.
  - split; (intros [?|?]; [done|right]); tauto.
Qed.

Lemma NoDup_first_occurrences l : NoDup (first_occurrences l).
Proof.
  induction l as [|y l IH]; simpl; constructor.
  - rewrite list_elem_of_filter. by intros [? _].
  - by apply NoDup_filter.
Qed.

Lemma StronglySorted_filter_impl {A} (R R' : relation A) (P : A → Prop)
    `{∀ x, Decision (P x)} l :
  (∀ a b, P a → P b → R a b → R' a b) →
  StronglySorted R l → StronglySorted R' (filter P l).
Proof.
  intros HR. induction 1 as [|a l Hl IH Ha]; [constructor|].
  rewrite filter_cons. case_decide; [|done].
  constructor; [done|]. rewrite Forall_forall in Ha |- *.
  intros b Hb. apply list_elem_of_filter in Hb as [Hb Hin]. by apply HR, Ha.
Qed.

Lemma first_occurrences_sorted l :
  StronglySorted (key_le (λ k, list_index k l)) (first_occurrences l).
Proof.
  induction l as [|x l IH]; simpl; [constructor|].
  constructor.
  - eapply StronglySorted_filter_impl; [|exact IH].
    intros a b Ha Hb. unfold key_le. simpl.
    rewrite !decide_False by done. lia.
  - apply Forall_forall. intros y _. unfold key_le. simpl.
    rewrite decide_True by done. lia.
Qed.

Lemma StronglySorted_lookup {A} (R : relation A) l i j a b :
  StronglySorted R l → l !! i = Some a → l !! j = Some b → i < j → R a b.
Proof.
  intros Hl. revert i j. induction Hl as [|x l Hl IH Hx]; intros i j Hi Hj Hij.
  - by rewrite lookup_nil in Hi.
  - destruct j as [|j]; [lia|]. simpl in Hj. destruct i as [|i].
    + simpl in Hi. inversion Hi; subst. rewrite Forall_forall in Hx.
      apply Hx. by eapply list_elem_of_lookup_2.
    + simpl in Hi. apply (IH i j); [done..|lia].
Qed.

(** [sorted(set(keys), key=keys.index)] is the list of the distinct names
    in the order of their first occurrence, whatever order the set gives. *)
Lemma header_keys_first_occurrences msg :
  header_keys msg = first_occurrences (msg_keys msg).
Proof.
  unfold header_keys.
  apply (StronglySorted_unique_strong (key_le (λ k, list_index k (msg_keys msg)))).
  - intros x y Hx Hy Hxy Hyx. unfold key_le in *.
    rewrite sorted_perm in Hx. unfold py_set in Hx.
    rewrite elem_of_elements, elem_of_list_to_set in Hx.
    rewrite elem_of_first_occurrences in Hy.
    apply (list_index_inj (msg_keys msg)); [done..|lia].
  - apply Sorted_StronglySorted; [apply key_le_trans | apply sorted_Sorted].
  - apply first_occurrences_sorted.
  - rewrite sorted_perm. unfold py_set. apply NoDup_Permutation.
    + apply NoDup_elements.
    + apply NoDup_first_occurrences.
    + intros x.
      by rewrite elem_of_elements, elem_of_list_to_set, elem_of_first_occurrences.
Qed.

(** ** The header formatter *)

Lemma logger_only_lift {A} (r : result A) : logger_only (lift r).
Proof. eexists _, _. apply writes_lift. Qed.

Lemma logger_only_ret {A} (a : A) : logger_only (mret a : M A).
Proof. eexists _, _. apply writes_ret. Qed.

Lemma logger_only_header_group level prefix key lst :
  logger_only (dump_header_group level prefix key lst).
Proof.
  unfold dump_header_group. destruct (1 <? length lst).
  - apply logger_only_bind; [apply logger_only_logt|]. intros _.
    apply logger_only_for_enumerate. intros i elem _.
    apply logger_only_for_enumerate. intros j line _.
    destruct (j =? 0);
      (apply logger_only_bind; [apply logger_only_lift|]); intros s;
      apply logger_only_logt.
  - destruct lst as [|elem lst].
    + eexists _, _. apply writes_raise.
    + destruct (1 <? length (split_nl elem)).
      * apply logger_only_bind; [apply logger_only_logt|]. intros _.
        apply logger_only_for_enumerate. intros i line _.
        destruct (i =? 0); apply logger_only_logt.
      * apply logger_only_logt.
Qed.

Lemma logger_only_header msg level prefix :
  logger_only (dump_email_header_to_logger msg level prefix).
Proof.
  apply logger_only_bind; [apply logger_only_logt|]. intros _.
  apply logger_only_for_each. intros key _. apply logger_only_header_group.
Qed.

(** C4, the example of the claim: headers [A, B, A, C]. *)
Example header_groups_example :
  let msg := Part (plain_info [(lit "A", lit "1"); (lit "B", lit "2");
                               (lit "A", lit "3"); (lit "C", lit "4")]
                     "text/plain" None) [] in
  header_keys msg = [lit "A"; lit "B"; lit "C"]
  ∧ get_all msg (lit "A") = [lit "1"; lit "3"]
  ∧ dump_email_header_to_logger msg INFO [] empty_world
    = (inr (), add_log empty_world
                 (tag INFO [lit "Header:"; lit "- A (2 items):"; lit "- 0: 1";
                            lit "- 1: 3"; lit "- B: 2"; lit "- C: 4"])).
Proof. repeat split; vm_compute; reflexivity. Qed.

(** Names are told apart as strings, and [get_all] compares them up to
    case: two spellings of a name make two groups, each with the values
    of both. *)
Example header_groups_mixed_case :
  let msg := Part (plain_info [(lit "To", lit "a"); (lit "to", lit "b")]
                     "text/plain" None) [] in
  header_keys msg = [lit "To"; lit "to"]
  ∧ get_all msg (lit "To") = [lit "a"; lit "b"]
  ∧ dump_email_header_to_logger msg INFO [] empty_world
    = (inr (), add_log empty_world
                 (tag INFO [lit "Header:"; lit "- To (2 items):"; lit "- 0: a";
                            lit "- 1: b"; lit "- to (2 items):"; lit "- 0: a";
                            lit "- 1: b"])).
Proof. repeat split; vm_compute; reflexivity. Qed.

(** C9 (as amended).  For a message without headers the header formatter
    logs the label line [Header:] behind the prefix, and nothing else. *)
Theorem no_headers_only_label msg level prefix :
  headers (msg_info msg) = [] →
  writes (dump_email_header_to_logger msg level prefix) (inr ())
         [(level, prefix ++ lit "Header:")].
Proof.
  intros Hnone. unfold dump_email_header_to_logger.
  rewrite header_keys_first_occurrences. unfold msg_keys. rewrite Hnone. simpl.
  apply (writes_bind _ _ () [(level, prefix ++ lit "Header:")] _ []).
  - apply writes_logt, format_header_label.
  - apply writes_ret.
Qed.

Lemma no_headers_only_label_witness :
  headers (msg_info headerless) = []
  ∧ writes (dump_email_header_to_logger headerless INFO (lit "  ")) (inr ())
           [(INFO, lit "  Header:")].
Proof.
  split; [reflexivity|].
  exact (no_headers_only_label headerless INFO (lit "  ") eq_refl).
Defined.

(** C9 as stated: the header section of a message without headers is not
    empty. *)
Lemma no_headers_counterexample :
  headers (msg_info headerless) = []
  ∧ w_log (dump_email_header_to_logger headerless INFO [] empty_world).2
    = [(INFO, lit "Header:")]
  ∧ w_log (dump_email_header_to_logger headerless INFO [] empty_world).2 ≠ [].
Proof. repeat split; try (vm_compute; reflexivity). vm_compute. discriminate. Qed.

(** ** The driver *)

Lemma quiet_logger_only {A} (m : M A) : logger_only m → quiet m.
Proof. intros (r & ls & H) w r' w' E. rewrite H in E. by inversion E. Qed.

Lemma quiet_bind {A B} (m : M A) (f : A → M B) :
  quiet m → (∀ a, quiet (f a)) → quiet (m ≫= f).
Proof.
  intros Hm Hf w r w' E. unfold mbind, M_bind in E.
  destruct (m w) as [[e|a] w1] eqn:Em.
  - inversion E; subst. by eapply Hm.
  - rewrite (Hf a _ _ _ E). by eapply Hm.
Qed.

Lemma quiet_ret {A} (a : A) : quiet (mret a : M A).
Proof. apply quiet_logger_only, logger_only_ret. Qed.

Lemma quiet_raise {A} e : quiet (raise e : M A).
Proof. apply quiet_logger_only. eexists _, _. apply writes_raise. Qed.

Lemma quiet_set_out_file v : quiet (set_out_file v).
Proof. intros w r w' E. by inversion E. Qed.

Lemma quiet_get_out_file : quiet get_out_file.
Proof. intros w r w' E. by inversion E. Qed.

Lemma quiet_try_except {A} (body : M A) handler :
  quiet body → (∀ e, quiet (handler e)) → quiet (try_except body handler).
Proof.
  intros Hb Hh w r w' E. unfold try_except in E.
  destruct (body w) as [[e|a] w1] eqn:Eb.
  - rewrite (Hh e _ _ _ E). by eapply Hb.
  - inversion E; subst. by eapply Hb.
Qed.

Lemma quiet_try_finally {A} (body : M A) final :
  quiet body → quiet final → quiet (try_finally body final).
Proof.
  intros Hb Hf w r w' E. unfold try_finally in E.
  destruct (body w) as [rb w1] eqn:Eb. destruct (final w1) as [[e|[]] w2] eqn:Ef;
    inversion E; subst; rewrite (Hf _ _ _ Ef); by eapply Hb.
Qed.

Section DriverLemmas.
Variable rt : Runtime.

Lemma quiet_file_open path : quiet (file_open rt path).
Proof.
  unfold file_open. destruct (rt_open rt path);
    [apply quiet_raise | apply quiet_set_out_file].
Qed.

Lemma quiet_file_write line : quiet (file_write rt line).
Proof.
  apply quiet_bind; [apply quiet_get_out_file|]. intros out.
  destruct (rt_write rt (default [] out) line);
    [apply quiet_raise | apply quiet_set_out_file].
Qed.

Lemma quiet_file_close : quiet (file_close rt).
Proof.
  apply quiet_bind; [apply quiet_get_out_file|]. intros out.
  destruct (rt_close rt (default [] out)); [apply quiet_raise | apply quiet_ret].
Qed.

Lemma quiet_read_stdin stdin : ∀ parser, quiet (read_stdin rt parser stdin).
Proof.
  induction stdin as [|line rest IH|e]; intros parser; simpl.
  - apply quiet_ret.
  - apply quiet_bind; [apply quiet_get_out_file|]. intros out.
    apply quiet_bind.
    { destruct (is_file out); [apply quiet_file_write | apply quiet_ret]. }
    intros _. apply quiet_bind; [apply quiet_logger_only, logger_only_lift|].
    intros parser'. apply quiet_bind; [apply quiet_logger_only, logger_only_logt|].
    intros _. apply IH.
  - apply quiet_raise.
Qed.

Lemma logger_only_dump_email msg level prefix indent_str :
  logger_only (dump_email_to_logger rt msg level prefix indent_str).
Proof.
  apply logger_only_bind; [apply logger_only_header|].
  intros _. apply logger_only_body.
Qed.

Lemma quiet_read_message args stdin : quiet (read_message rt args stdin).
Proof.
  apply quiet_bind.
  { destruct (truthy (out_file args)); [apply quiet_file_open | apply quiet_ret]. }
  intros _. apply quiet_bind.
  { apply quiet_logger_only. eexists _, _. apply writes_log. }
  intros _. apply quiet_bind; [apply quiet_read_stdin|].
  intros parser. apply quiet_logger_only, logger_only_lift.
Qed.

Lemma quiet_process_stdin args stdin : quiet (process_stdin rt args stdin).
Proof.
  apply quiet_bind; [apply quiet_read_message|].
  intros msg. apply quiet_logger_only, logger_only_dump_email.
Qed.

(** The [except] clauses log the summary and the traceback and return. *)
Lemma writes_log_exception_handling e :
  writes (log_exception rt "Exception raised during handling stdin ({}, {}" e)
         (inr ()) (error_entries rt "Exception raised during handling stdin (" e).
Proof.
  unfold log_exception, error_entries. eapply (writes_bind _ _ () [_]).
  - apply writes_logt, format_handling.
  - apply writes_for_each_lines. intros line. apply writes_log.
Qed.

Lemma writes_log_exception_closing e :
  writes (log_exception rt "Exception raised during closing out_File ({}, {}" e)
         (inr ()) (error_entries rt "Exception raised during closing out_File (" e).
Proof.
  unfold log_exception, error_entries. eapply (writes_bind _ _ () [_]).
  - apply writes_logt, format_closing.
  - apply writes_for_each_lines. intros line. apply writes_log.
Qed.

(** The [try] block of [capture_mail] is [process_stdin]. *)
Lemma try_block_process_stdin args stdin w :
  ((if truthy (out_file args)
    then file_open rt (default [] (out_file args))
    else mret ());;
   logger_log INFO (lit "stdin:");;
   parser ← read_stdin rt (p_new (rt_parser rt)) stdin;
   msg ← lift (p_close (rt_parser rt) parser);
   dump_email_to_logger rt msg INFO [] (lit "  ")) w
  = process_stdin rt args stdin w.
Proof.
  unfold process_stdin, read_message, mbind, M_bind.
  destruct ((if truthy (out_file args)
             then file_open rt (default [] (out_file args))
             else mret ()) w) as [[e|[]] w1]; [done|].
  destruct (logger_log INFO (lit "stdin:") w1) as [[e|[]] w2]; [done|].
  destruct (read_stdin rt _ stdin w2) as [[e|parser] w3]; [done|].
  by destruct (lift _ w3) as [[e|msg] w4].
Qed.

Ltac format_eval_open :=
  cbv -[app str_of_nat join split_nl rstrip]; rewrite ?app_nil_r; reflexivity.

Lemma writes_dump_env level :
  ∃ ls, writes (dump_env_variables_to_logger rt level) (inr ()) ls.
Proof.
  eexists. unfold dump_env_variables_to_logger.
  eapply (writes_bind _ _ () [_]); [apply writes_log|].
  eapply writes_for_each_lines. intros kv. apply writes_logt, format_environ.
Qed.

Lemma writes_dump_system_info level :
  sys_info_available (rt_sys rt) →
  ∃ ls, writes (dump_system_info_to_logger rt level) (inr ()) ls.
Proof.
  intros (cwd & u & eu & g & eg & Hcwd & Hu & Heu & Hg & Heg).
  unfold dump_system_info_to_logger. cbv zeta. rewrite Hcwd, Hu, Heu, Hg, Heg.
  eexists.
  eapply (writes_bind _ _ ()); [apply writes_log|].
  do 2 (eapply (writes_bind _ _ ()); [apply writes_logt; format_eval_open|]).
  do 4 (eapply (writes_bind _ _ _ []); [apply writes_lift|];
        eapply (writes_bind _ _ ()); [apply writes_logt; format_eval_open|]).
  eapply (writes_bind _ _ _ []); [apply writes_lift|].
  do 4 (eapply (writes_bind _ _ ()); [apply writes_logt; format_eval_open|]).
  apply writes_logt; format_eval_open.
Qed.

(** With the system facts at hand the two dumps at the start of
    [capture_mail] return, having logged only. *)
Lemma writes_startup :
  sys_info_available (rt_sys rt) →
  ∃ ls, writes (dump_system_info_to_logger rt INFO;;
                dump_env_variables_to_logger rt INFO) (inr ()) ls.
Proof.
  intros Hsys. destruct (writes_dump_system_info INFO Hsys) as [l1 H1].
  destruct (writes_dump_env INFO) as [l2 H2].
  exists (l1 ++ l2). by apply (writes_bind _ _ ()).
Qed.

(** The [try] statement of [capture_mail], from what its block does. *)
Lemma try_statement_run args stdin w1 r w2 :
  process_stdin rt args stdin w1 = (r, w2) →
  try_finally
    (try_except
       ((if truthy (out_file args)
         then file_open rt (default [] (out_file args))
         else mret ());;
        logger_log INFO (lit "stdin:");;
        parser ← read_stdin rt (p_new (rt_parser rt)) stdin;
        msg ← lift (p_close (rt_parser rt) parser);
        dump_email_to_logger rt msg INFO [] (lit "  "))
       (log_exception rt "Exception raised during handling stdin ({}, {}"))
    (out ← get_out_file;
     if is_file out
     then try_except (file_close rt)
            (log_exception rt "Exception raised during closing out_File ({}, {}")
     else mret ()) w1
  = (inr (),
     mkWorld (w_log w2 ++ handling_entries rt r ++ closing_entries rt (w_out_file w2))
             (w_stderr w2) (w_out_file w2)).
Proof.
  intros Hrun. unfold try_finally, try_except at 1.
  rewrite try_block_process_stdin, Hrun.
  assert (∀ w ls, w_out_file w = w_out_file w2 → w_stderr w = w_stderr w2 →
            w_log w = w_log w2 ++ ls →
            (out ← get_out_file;
             if is_file out
             then try_except (file_close rt)
                    (log_exception rt "Exception raised during closing out_File ({}, {}")
             else mret ()) w
            = (inr (), mkWorld (w_log w2 ++ ls ++ closing_entries rt (w_out_file w2))
                         (w_stderr w2) (w_out_file w2))) as Hfinal.
  { intros [log err out] ls Hout Herr Hlog. simpl in *. subst.
    unfold mbind, M_bind, get_out_file. simpl.
    destruct (w_out_file w2) as [written|]; simpl.
    - unfold try_except, file_close, mbind, M_bind, get_out_file. simpl.
      destruct (rt_close rt written) as [e|]; simpl.
      + unfold raise. rewrite writes_log_exception_closing. unfold add_log. simpl.
        by rewrite <- app_assoc.
      + by rewrite app_nil_r.
    - by rewrite app_nil_r. }
  destruct r as [e|[]].
  - rewrite writes_log_exception_handling.
    by rewrite (Hfinal _ (error_entries rt "Exception raised during handling stdin (" e)).
  - rewrite (Hfinal w2 []); [done..|]. by rewrite app_nil_r.
Qed.

(** [capture_mail], from what the [try] block does: it returns the exit
    status the bounce flag asks for, whatever the block did. *)
Lemma capture_mail_run args stdin w ls r w2 :
  writes (dump_system_info_to_logger rt INFO;;
          dump_env_variables_to_logger rt INFO) (inr ()) ls →
  process_stdin rt args stdin (mkWorld (w_log w ++ ls) (w_stderr w) None) = (r, w2) →
  capture_mail rt args stdin w
  = (inr (exit_status args),
     mkWorld (w_log w2 ++ handling_entries rt r ++ closing_entries rt (w_out_file w2))
             (w_stderr w ++ bounce_lines args) (w_out_file w2)).
Proof.
  intros Hstart Hrun. unfold capture_mail.
  rewrite (M_bind_assoc (dump_system_info_to_logger rt INFO)
             (λ _, dump_env_variables_to_logger rt INFO)).
  unfold mbind at 1, M_bind at 1. rewrite Hstart.
  unfold mbind at 1, M_bind at 1. unfold set_out_file at 1. unfold add_log. simpl.
  unfold mbind at 1, M_bind at 1.
  rewrite (try_statement_run args stdin _ r w2 Hrun).
  rewrite (quiet_process_stdin args stdin _ _ _ Hrun). simpl.
  unfold exit_status, bounce_lines. destruct (do_bounce args).
  - unfold mbind, M_bind, stderr_write. simpl. reflexivity.
  - unfold mret, M_ret. by rewrite app_nil_r.
Qed.

Lemma writes_startup_log :
  sys_info_available (rt_sys rt) →
  writes (dump_system_info_to_logger rt INFO;;
          dump_env_variables_to_logger rt INFO) (inr ()) (startup_log rt).
Proof.
  intros Hsys. destruct (writes_startup Hsys) as [ls Hls].
  unfold startup_log. by rewrite (Hls empty_world).
Qed.

(** C1.  Once the system facts are logged, [capture_mail] returns 1 and
    writes the one line [5.999.999 Testing Error Message] to the error
    stream when bounce mode is on, and returns 0 and writes nothing there
    when it is off: whatever reading, parsing and formatting did, raised
    or not. *)
Theorem bounce_decides_exit_status args stdin w :
  sys_info_available (rt_sys rt) →
  ∃ w', capture_mail rt args stdin w = (inr (if do_bounce args then 1 else 0), w')
        ∧ w_stderr w'
          = w_stderr w ++ (if do_bounce args
                           then [lit "5.999.999 Testing Error Message" ++ [LF]]
                           else []).
Proof.
  intros Hsys.
  destruct (process_stdin rt args stdin
              (mkWorld (w_log w ++ startup_log rt) (w_stderr w) None)) as [r w2] eqn:Hrun.
  rewrite (capture_mail_run args stdin w _ r w2 (writes_startup_log Hsys) Hrun).
  eexists. split; reflexivity.
Qed.

(** C7 (as amended).  When opening the configured capture file raises,
    the exception is logged at error level, summary and traceback, and
    that is all: the input is not read, nothing is echoed or transcribed,
    nothing is written to a capture file, and the exit status is the one
    the bounce flag asks for. *)
Theorem open_failure_aborts_processing args stdin w c path e :
  sys_info_available (rt_sys rt) →
  out_file args = Some (c :: path) →
  rt_open rt (c :: path) = Some e →
  capture_mail rt args stdin w
  = (inr (exit_status args),
     mkWorld (w_log w ++ startup_log rt
              ++ error_entries rt "Exception raised during handling stdin (" e)
             (w_stderr w ++ bounce_lines args) None).
Proof.
  intros Hsys Hout Hopen.
  assert (process_stdin rt args stdin
            (mkWorld (w_log w ++ startup_log rt) (w_stderr w) None)
          = (inl e, mkWorld (w_log w ++ startup_log rt) (w_stderr w) None)) as Hrun.
  { unfold process_stdin, read_message, mbind, M_bind, file_open.
    rewrite Hout. simpl. by rewrite Hopen. }
  rewrite (capture_mail_run args stdin w _ _ _ (writes_startup_log Hsys) Hrun).
  simpl. by rewrite app_nil_r, <- app_assoc.
Qed.
End DriverLemmas.

(** ** Instances of the theorems on the driver *)

Lemma sample_sys_available : sys_info_available sample_sys.
Proof. unfold sys_info_available. by repeat eexists. Qed.

Lemma bounce_decides_exit_status_witness :
  let rt := sample_runtime undecodable_tree None in
  let args := mkArgs None true None (lit "UTF-8") false in
  sys_info_available (rt_sys rt)
  ∧ ∃ w', capture_mail rt args sample_stdin empty_world = (inr 1, w')
          ∧ w_stderr w' = [lit "5.999.999 Testing Error Message" ++ [LF]].
Proof.
  intros rt args. split; [exact sample_sys_available|].
  exact (bounce_decides_exit_status rt args sample_stdin empty_world
           sample_sys_available).
Defined.

Lemma open_failure_aborts_processing_witness :
  let rt := sample_runtime sample_tree (Some PermissionError) in
  let args := mkArgs None false (Some (lit "/var/capture.eml")) (lit "UTF-8") false in
  sys_info_available (rt_sys rt)
  ∧ out_file args = Some (lit "/var/capture.eml")
  ∧ rt_open rt (lit "/var/capture.eml") = Some PermissionError
  ∧ capture_mail rt args sample_stdin empty_world
    = (inr 0,
       mkWorld (startup_log rt
                ++ error_entries rt "Exception raised during handling stdin ("
                     PermissionError)
               [] None).
Proof.
  intros rt args. split; [exact sample_sys_available|]. do 2 (split; [reflexivity|]).
  exact (open_failure_aborts_processing rt args sample_stdin empty_world _ _
           PermissionError sample_sys_available eq_refl eq_refl).
Defined.

(** C7 as stated: the capture file cannot be opened, and neither the
    input nor the message is transcribed; after the start-up records the
    log holds error records only. *)
Lemma open_failure_counterexample :
  let rt := sample_runtime sample_tree (Some PermissionError) in
  let args := mkArgs None false (Some (lit "/var/capture.eml")) (lit "UTF-8") false in
  let log := w_log (capture_mail rt args sample_stdin empty_world).2 in
  rt_open rt (lit "/var/capture.eml") = Some PermissionError
  ∧ ((INFO, lit "stdin:") ∉ log)
  ∧ ((INFO, lit "Header:") ∉ log)
  ∧ ((INFO, summary_line (msg_info sample_tree) (lit "0") []) ∉ log)
  ∧ Forall (λ r : Level * str, r.1 = ERROR) (drop (length (startup_log rt)) log)
  ∧ (* without the failure the same input is transcribed *)
    ((INFO, lit "Header:")
     ∈ w_log (capture_mail (sample_runtime sample_tree None) args sample_stdin
                empty_world).2).
Proof.
  intros rt args log. split; [reflexivity|].
  repeat split; apply (bool_decide_unpack _); vm_compute; exact I.
Qed.

(** ** Decode failures *)

Section DecodeFailure.
Variable rt : Runtime.

(** The failing part logs its head and raises; nothing is logged after. *)
Lemma decode_fails_writes level msg label prefix indent_str info' label' prefix' e :
  decode_fails rt level msg label prefix indent_str info' label' prefix' e →
  ∃ rendered,
    writes (dump_email_body_to_logger rt msg level label prefix indent_str)
           (inl e) (rendered ++ tag level (head_lines info' label' prefix')).
Proof.
  induction 1 as [info data label prefix indent_str e Htext Hdec
                 |info before child after label prefix indent_str info' label' prefix' e
                    Hret Hchild [rendered IH]].
  - exists [].
    pose proof (writes_dump_body rt (Part info data) level label prefix indent_str
                  _ _ (writes_payload_undecodable rt _ _ level prefix _ Htext Hdec))
      as Hw.
    simpl in Hw. by rewrite app_nil_r in Hw.
  - destruct (writes_inj _ _ _ _ _ IH (writes_body_run rt child level _ _ _))
      as [Hout Hlog].
    pose proof (writes_children_raise rt level label prefix indent_str 0 before child
                  after e Hret (eq_sym Hout)) as Hloop.
    pose proof (writes_dump_body rt (Multipart info (before ++ child :: after)) level
                  label prefix indent_str _ _ Hloop) as Hw.
    simpl in Hw. rewrite app_nil_r in Hw. change (0 + length before + 1)
      with (length before + 1) in Hw. rewrite <- Hlog in Hw.
    exists (tag level (head_lines info label prefix)
            ++ children_log rt level label prefix indent_str 0 before ++ rendered).
    by rewrite <- !app_assoc.
Qed.

(** C6 (as amended).  When the input is read and parsed, the headers are
    rendered and the body comes to a text part that does not decode, the
    last informational records are the head of that part; then come the
    error records, which carry the class and the text of the exception
    and the traceback; the rest of the tree is not rendered, and
    [capture_mail] returns the exit status the bounce flag asks for. *)
Theorem decode_failure_is_logged_and_survived args stdin w msg w2
    info' label' prefix' e :
  sys_info_available (rt_sys rt) →
  read_message rt args stdin (mkWorld (w_log w ++ startup_log rt) (w_stderr w) None)
  = (inr msg, w2) →
  (dump_email_header_to_logger msg INFO [] empty_world).1 = inr () →
  decode_fails rt INFO msg (lit "0") [] (lit "  ") info' label' prefix' e →
  ∃ rendered,
    capture_mail rt args stdin w
    = (inr (exit_status args),
       mkWorld (w_log w2 ++ rendered
                ++ tag INFO (head_lines info' label' prefix')
                ++ (ERROR, lit "Exception raised during handling stdin ("
                           ++ exn_class e ++ lit ", " ++ exn_msg e)
                   :: tag ERROR (split_nl (rstrip (rt_format_exc rt e)))
                ++ closing_entries rt (w_out_file w2))
               (w_stderr w ++ bounce_lines args) (w_out_file w2)).
Proof.
  intros Hsys Hread Hheader Hfails.
  destruct (decode_fails_writes _ _ _ _ _ _ _ _ _ Hfails) as [rendered Hbody].
  pose proof (logger_only_run _ (logger_only_header msg INFO [])) as Hhead.
  rewrite Hheader in Hhead.
  set (hl := w_log (dump_email_header_to_logger msg INFO [] empty_world).2) in Hhead.
  assert (process_stdin rt args stdin
            (mkWorld (w_log w ++ startup_log rt) (w_stderr w) None)
          = (inl e, add_log w2 (hl ++ rendered
                                ++ tag INFO (head_lines info' label' prefix'))))
    as Hrun.
  { unfold process_stdin. unfold mbind at 1, M_bind at 1. rewrite Hread.
    unfold dump_email_to_logger.
    apply (writes_bind _ _ () hl (inl e)
             (rendered ++ tag INFO (head_lines info' label' prefix'))); done. }
  rewrite (capture_mail_run rt args stdin w _ _ _ (writes_startup_log rt Hsys) Hrun).
  exists (hl ++ rendered). simpl. unfold error_entries.
  by rewrite <- !app_assoc.
Qed.
End DecodeFailure.

Lemma undecodable_tree_fails :
  decode_fails (sample_runtime undecodable_tree None) INFO undecodable_tree
    (lit "0") [] (lit "  ")
    (plain_info [] "text/plain" None) (lit "0-2") (lit "  ")
    (UnicodeDecodeError_ascii 227 0).
Proof.
  apply (decode_fails_below _ INFO
           (plain_info [(lit "Subject", lit "hi")] "multipart/mixed" None)
           [Part (plain_info [] "text/plain" None) (blit "hello")]
           (Part (plain_info [] "text/plain" None) [Byte.xe3; Byte.x81; Byte.x82])
           [Part (plain_info [] "text/plain" None) (blit "never rendered")]
           (lit "0") [] (lit "  ")).
  - intros [|j] sub Hsub; simpl in Hsub; inversion Hsub; subst.
    vm_compute. reflexivity.
  - apply (decode_fails_here _ INFO (plain_info [] "text/plain" None)
             [Byte.xe3; Byte.x81; Byte.x82] (lit "0-2") (lit "  ") (lit "  "));
      vm_compute; reflexivity.
Defined.

Lemma decode_failure_is_logged_and_survived_witness :
  let rt := sample_runtime undecodable_tree None in
  let args := mkArgs None true None (lit "UTF-8") false in
  let w1 := mkWorld (startup_log rt) [] None in
  let e := UnicodeDecodeError_ascii 227 0 in
  sys_info_available (rt_sys rt)
  ∧ read_message rt args sample_stdin w1
    = (inr undecodable_tree, (read_message rt args sample_stdin w1).2)
  ∧ (dump_email_header_to_logger undecodable_tree INFO [] empty_world).1 = inr ()
  ∧ decode_fails rt INFO undecodable_tree (lit "0") [] (lit "  ")
      (plain_info [] "text/plain" None) (lit "0-2") (lit "  ") e
  ∧ ∃ rendered,
      capture_mail rt args sample_stdin empty_world
      = (inr 1,
         mkWorld (w_log (read_message rt args sample_stdin w1).2 ++ rendered
                  ++ tag INFO [summary_line (plain_info [] "text/plain" None)
                                 (lit "0-2") (lit "  ")]
                  ++ (ERROR, lit "Exception raised during handling stdin ("
                             ++ exn_class e ++ lit ", " ++ exn_msg e)
                     :: tag ERROR (split_nl (rstrip (rt_format_exc rt e)))
                  ++ [])
                 [lit "5.999.999 Testing Error Message" ++ [LF]] None).
Proof.
  intros rt args w1 e.
  assert (read_message rt args sample_stdin w1
          = (inr undecodable_tree, (read_message rt args sample_stdin w1).2)) as Hread.
  { vm_compute. reflexivity. }
  split; [exact sample_sys_available|]. split; [exact Hread|].
  split; [vm_compute; reflexivity|]. split; [exact undecodable_tree_fails|].
  exact (decode_failure_is_logged_and_survived rt args sample_stdin empty_world
           undecodable_tree _ _ _ _ e sample_sys_available Hread eq_refl
           undecodable_tree_fails).
Defined.

(** C6 as stated: no error record names the failing part.  The part [0-2]
    does not decode; the error records are the summary with the class and
    the text of the exception and the lines of the traceback, none of
    which holds the label, and they are the same records when the part
    that fails is [0-1]. *)
Lemma error_record_names_no_part_counterexample :
  let args := mkArgs None true None (lit "UTF-8") false in
  let run msg := (capture_mail (sample_runtime msg None) args sample_stdin
                    empty_world).2 in
  error_records (run undecodable_tree)
  = [lit "Exception raised during handling stdin (UnicodeDecodeError, 'ascii' codec can't decode byte 0xe3 in position 0: ordinal not in range(128)";
     lit "Traceback (most recent call last):";
     lit "  File " ++ [QUOTE] ++ lit "capture_mail.py" ++ [QUOTE]
       ++ lit ", line 208, in capture_mail";
     lit "    dump_email_to_logger(msg, logger, log_level=INFO)";
     lit "UnicodeDecodeError: 'ascii' codec can't decode byte 0xe3 in position 0: ordinal not in range(128)"]
  ∧ forallb (λ r, negb (occurs_in (lit "0-2") r)) (error_records (run undecodable_tree))
    = true
  ∧ error_records (run undecodable_first) = error_records (run undecodable_tree)
  ∧ ((INFO, summary_line (plain_info [] "text/plain" None) (lit "0-2") (lit "  "))
     ∈ w_log (run undecodable_tree))
  ∧ ((INFO, summary_line (plain_info [] "text/plain" None) (lit "0-3") (lit "  "))
     ∉ w_log (run undecodable_tree)).
Proof.
  intros args run. split; [vm_compute; reflexivity|].
  split; [vm_compute; reflexivity|]. split; [vm_compute; reflexivity|].
  split; apply (bool_decide_unpack _); vm_compute; exact I.
Qed.

(** ** Groups of several values *)

Lemma for_enumerate_cons {A} (body : nat → A → M ()) k x l :
  for_enumerate body k (x :: l) = (body k x;; for_enumerate body (S k) l).
Proof. reflexivity. Qed.

Lemma format_go_brace_free prefix t k args :
  brace_free prefix →
  format_go (prefix ++ t) None k args
  = (r ← format_go t None k args; mret (prefix ++ r)).
Proof.
  induction 1 as [|c prefix [Hopen Hclose] _ IH]; simpl.
  - by destruct (format_go t None k args).
  - apply N.eqb_neq in Hopen, Hclose. rewrite Hopen, Hclose, IH.
    by destruct (format_go t None k args).
Qed.

Lemma str_of_nat_digit w : w < 10 → str_of_nat w = [N.of_nat (48 + w)].
Proof. intros H. do 10 (destruct w as [|w]; [reflexivity|]). lia. Qed.

Lemma format_row_template prefix w :
  py_format (lit "{}- {{:{}<}}: {{}}") [FStr prefix; FInt w]
  = inr (prefix ++ lit "- {:" ++ str_of_nat w ++ lit "<}: {}").
Proof. format_eval. Qed.

(** The digit in front of [<] is read as the fill character, so the
    index is not padded. *)
Lemma format_row prefix w i line :
  brace_free prefix → w < 10 →
  py_format (prefix ++ lit "- {:" ++ str_of_nat w ++ lit "<}: {}") [FInt i; FStr line]
  = inr (prefix ++ lit "- " ++ str_of_nat i ++ lit ": " ++ line).
Proof.
  intros Hp Hw. unfold py_format. rewrite format_go_brace_free by done.
  rewrite (str_of_nat_digit w Hw).
  do 10 (destruct w as [|w];
         [set (t := lit "- {:" ++ _ ++ lit "<}: {}"); vm_compute in t; subst t;
          cbv -[app str_of_nat]; rewrite ?app_nil_r; reflexivity|]).
  lia.
Qed.

Lemma format_next_template prefix marks :
  py_format (lit "{}. {} {{}}") [FStr prefix; FStr marks]
  = inr (prefix ++ lit ". " ++ marks ++ lit " {}").
Proof. format_eval. Qed.

Lemma format_next prefix n line :
  brace_free prefix →
  py_format (prefix ++ lit ". " ++ repeat_char 62%N n ++ lit " {}") [FStr line]
  = inr (prefix ++ lit ". " ++ repeat_char 62%N n ++ lit " " ++ line).
Proof.
  intros Hp. unfold py_format.
  replace (prefix ++ lit ". " ++ repeat_char 62%N n ++ lit " {}")
    with ((prefix ++ lit ". " ++ repeat_char 62%N n ++ lit " ") ++ lit "{}")
    by (by rewrite <- !app_assoc).
  rewrite format_go_brace_free.
  - cbv -[app repeat_char]. by rewrite app_nil_r, <- !app_assoc.
  - unfold brace_free in *. rewrite !Forall_app. repeat split; [done|..].
    + by repeat constructor.
    + unfold repeat_char. apply Forall_replicate. by split.
    + by repeat constructor.
Qed.

Section Groups.
Variables (level : Level) (prefix : str) (width : nat).
Hypothesis prefix_brace_free : brace_free prefix.
Hypothesis width_one_digit : width < 10.

Lemma writes_next_rows i more : ∀ j,
  writes (dump_rows level prefix width i (S j) more) (inr ())
    (tag level ((λ line, prefix ++ lit ". " ++ repeat_char 62%N (width + 1)
                         ++ lit " " ++ rstrip line) <$> more)).
Proof using All.
  unfold dump_rows. induction more as [|line more IH]; intros j.
  - apply writes_ret.
  - rewrite for_enumerate_cons, fmap_cons, tag_cons. cbn [Nat.eqb].
    rewrite format_next_template.
    apply (writes_bind _ _ () [_]); [|apply IH].
    eapply (writes_bind _ _ _ [] _ [_]); [apply writes_lift|].
    by apply writes_logt, format_next.
Qed.

Lemma writes_rows i v :
  writes (dump_rows level prefix width i 0 (split_nl v)) (inr ()) (tag level (group_rows prefix width i v)).
Proof using All.
  unfold group_rows. destruct (split_nl v) as [|first more].
  - apply writes_ret.
  - unfold dump_rows at 1. rewrite for_enumerate_cons, tag_cons. cbn [Nat.eqb].
    rewrite format_row_template.
    apply (writes_bind _ _ () [_]); [|apply writes_next_rows].
    eapply (writes_bind _ _ _ [] _ [_]); [apply writes_lift|].
    by apply writes_logt, format_row.
Qed.

Lemma writes_group_values lst : ∀ k,
  writes (for_enumerate (λ i elem, dump_rows level prefix width i 0 (split_nl elem)) k lst) (inr ())
    (tag level (concat (imap (λ i v, group_rows prefix width (k + i) v) lst))).
Proof using All.
  induction lst as [|v lst IH]; intros k.
  - apply writes_ret.
  - rewrite for_enumerate_cons, imap_cons, concat_cons, tag_app, Nat.add_0_r.
    apply (writes_bind _ _ ()); [apply writes_rows|].
    erewrite (imap_ext _ (λ i v, group_rows prefix width (S k + i) v)); [apply IH|].
    intros i x _. simpl. f_equal. lia.
Qed.
End Groups.

Lemma split_nl_single v : LF ∉ v → split_nl v = [v].
Proof.
  induction v as [|c v IH]; intros H; simpl; [done|].
  rewrite not_elem_of_cons in H. destruct H as [Hc Hv].
  destruct (N.eqb_spec c LF) as [->|_]; [done|]. by rewrite IH.
Qed.

(** A group of several values, value by value. *)
Lemma writes_header_group_rows level prefix key lst :
  brace_free prefix →
  1 < length lst →
  length (str_of_nat (length lst - 1)) < 10 →
  writes (dump_header_group level prefix key lst) (inr ())
    (tag level
       ((prefix ++ lit "- " ++ key ++ lit " (" ++ str_of_nat (length lst)
         ++ lit " items):")
        :: concat (imap (λ i v, group_rows prefix
                                  (length (str_of_nat (length lst - 1))) i v) lst))).
Proof.
  intros Hp Hlen Hw. unfold dump_header_group.
  apply Nat.ltb_lt in Hlen. rewrite Hlen. rewrite tag_cons.
  apply (writes_bind _ _ () [_]); [apply writes_logt, format_group_head|].
  by apply (writes_group_values level prefix _ Hp Hw lst 0).
Qed.

Lemma concat_imap_singleton {A B} (g : nat → A → B) l :
  concat (imap (λ i x, [g i x]) l) = imap g l.
Proof.
  revert g. induction l as [|x l IH]; intros g; [done|].
  rewrite !imap_cons, concat_cons. simpl. f_equal. apply (IH (g ∘ S)).
Qed.

(** C2, what the code does.  A group of [N ≥ 2] single-line values is
    logged as [N + 1] lines: the group line, then one row per value, the
    index counted from 0 and written as it is, without padding. *)
Theorem multi_value_rows_not_padded level prefix key lst :
  brace_free prefix →
  1 < length lst →
  length (str_of_nat (length lst - 1)) < 10 →
  Forall (λ v, LF ∉ v) lst →
  writes (dump_header_group level prefix key lst) (inr ())
    (tag level
       ((prefix ++ lit "- " ++ key ++ lit " (" ++ str_of_nat (length lst)
         ++ lit " items):")
        :: imap (λ i v, prefix ++ lit "- " ++ str_of_nat i ++ lit ": " ++ rstrip v) lst))
  ∧ length ((prefix ++ lit "- " ++ key ++ lit " (" ++ str_of_nat (length lst)
             ++ lit " items):")
            :: imap (λ i v, prefix ++ lit "- " ++ str_of_nat i ++ lit ": " ++ rstrip v)
                 lst)
    = length lst + 1.
Proof.
  intros Hp Hlen Hw Hsingle. split.
  - pose proof (writes_header_group_rows level prefix key lst Hp Hlen Hw) as H.
    rewrite <- concat_imap_singleton.
    erewrite imap_ext; [exact H|].
    intros i v Hv. simpl. unfold group_rows.
    rewrite Forall_forall in Hsingle.
    rewrite split_nl_single; [done|]. apply Hsingle. by eapply list_elem_of_lookup_2.
  - simpl. rewrite length_imap. lia.
Qed.

Lemma multi_value_rows_not_padded_witness :
  let lst := get_all eleven_received (lit "Received") in
  brace_free []
  ∧ 1 < length lst
  ∧ length (str_of_nat (length lst - 1)) < 10
  ∧ Forall (λ v, LF ∉ v) lst
  ∧ writes (dump_header_group INFO [] (lit "Received") lst) (inr ())
      (tag INFO
         [lit "- Received (11 items):";
          lit "- 0: by mx"; lit "- 1: by mx"; lit "- 2: by mx"; lit "- 3: by mx";
          lit "- 4: by mx"; lit "- 5: by mx"; lit "- 6: by mx"; lit "- 7: by mx";
          lit "- 8: by mx"; lit "- 9: by mx"; lit "- 10: by mx"]).
Proof.
  intros lst.
  assert (brace_free []) as H1 by constructor.
  assert (1 < length lst) as H2 by (vm_compute; lia).
  assert (length (str_of_nat (length lst - 1)) < 10) as H3 by (vm_compute; lia).
  assert (Forall (λ v, LF ∉ v) lst) as H4
    by (apply (bool_decide_unpack _); vm_compute; exact I).
  repeat (split; [assumption|]).
  exact (proj1 (multi_value_rows_not_padded INFO [] (lit "Received") lst H1 H2 H3 H4)).
Defined.

(** C2 at the failing input.  With eleven values the largest index has
    two digits, and the row of index 0 is [- 0: by mx], not the padded
    [- 0 : by mx]. *)
Example index_field_not_padded_at_eleven :
  let log := w_log (dump_email_header_to_logger eleven_received INFO [] empty_world).2 in
  length (str_of_nat (11 - 1)) = 2
  ∧ log !! 1 = Some (INFO, lit "- Received (11 items):")
  ∧ log !! 2 = Some (INFO, lit "- 0: by mx")
  ∧ lit "- " ++ ljust 2 (str_of_nat 0) ++ lit ": by mx" = lit "- 0 : by mx"
  ∧ log !! 2 ≠ Some (INFO, lit "- " ++ ljust 2 (str_of_nat 0) ++ lit ": by mx")
  ∧ length log = 13.
Proof.
  intros log. repeat split; try (vm_compute; reflexivity).
  vm_compute. discriminate.
Qed.

(** * Further properties of the program *)

(** ** Headers with one value *)

Lemma split_nl_nonempty s : split_nl s ≠ [].
Proof.
  destruct s as [|c s]; simpl; [done|].
  destruct (c =? LF)%N; [done|]. by destruct (split_nl s).
Qed.

Lemma split_nl_folded v :
  LF ∈ v → ∃ first second more, split_nl v = first :: second :: more.
Proof.
  induction v as [|c v IH]; intros H; [by apply elem_of_nil in H|]. simpl.
  destruct (N.eqb_spec c LF) as [->|Hne].
  - pose proof (split_nl_nonempty v). destruct (split_nl v) as [|second more]; [done|].
    by exists [], second, more.
  - apply elem_of_cons in H as [H|H]; [done|].
    destruct (IH H) as (first & second & more & ->). by exists (c :: first), second, more.
Qed.

Lemma filter_other (x : str) (l : list str) : x ∉ l → filter (λ y, y ≠ x) l = l.
Proof.
  induction l as [|y l IH]; intros Hx; [done|]. rewrite not_elem_of_cons in Hx.
  destruct Hx as [Hxy Hx]. rewrite filter_cons, decide_True by done.
  f_equal. by apply IH.
Qed.

Lemma first_occurrences_NoDup l : NoDup l → first_occurrences l = l.
Proof.
  induction 1 as [|x l Hx _ IH]; simpl; [done|]. rewrite IH. f_equal.
  by apply filter_other.
Qed.

(** With names that differ up to case, [get_all] finds the one value. *)
Lemma get_all_unique (hs : list (str * str)) k v :
  NoDup (lower <$> hs.*1) → (k, v) ∈ hs →
  (filter (λ kv : str * str, lower kv.1 = lower k) hs).*2 = [v].
Proof.
  induction hs as [|[k' v'] hs IH]; intros Hnd Hin; [by apply elem_of_nil in Hin|].
  rewrite !fmap_cons in Hnd. apply NoDup_cons in Hnd as [Hk' Hnd]. simpl in Hk'.
  assert (∀ k0 v0, (k0, v0) ∈ hs → lower k0 ≠ lower k') as Hother.
  { intros k0 v0 H0 Heq. apply Hk'. rewrite <- Heq.
    apply list_elem_of_fmap_2. by apply (list_elem_of_fmap_2 fst hs (k0, v0)). }
  rewrite filter_cons. simpl. destruct (decide (lower k' = lower k)) as [Heq|Hne].
  - apply elem_of_cons in Hin as [Hin|Hin].
    + inversion Hin; subst. rewrite fmap_cons. simpl. f_equal.
      replace (filter (λ kv : str * str, lower kv.1 = lower k') hs)
        with (@nil (str * str)); [done|].
      symmetry. apply elem_of_nil_inv. intros [k0 v0] H0.
      apply list_elem_of_filter in H0 as [H0 Hin0]. by apply (Hother k0 v0).
    + by destruct (Hother k v Hin).
  - apply elem_of_cons in Hin as [Hin|Hin]; [by inversion Hin; subst|]. by apply IH.
Qed.

Lemma writes_for_each_fmap {A B} (f : A → B) (body : B → M ())
    (line : A → Level * str) l :
  (∀ x, x ∈ l → writes (body (f x)) (inr ()) [line x]) →
  writes (for_each body (f <$> l)) (inr ()) (line <$> l).
Proof.
  induction l as [|x l IH]; intros H.
  - apply writes_ret.
  - rewrite !fmap_cons. apply (writes_bind _ _ () [line x]).
    + apply H. by left.
    + apply IH. intros y Hy. apply H. by right.
Qed.

Lemma writes_single_value level prefix key v :
  LF ∉ v →
  writes (dump_header_group level prefix key [v]) (inr ())
         [(level, prefix ++ lit "- " ++ key ++ lit ": " ++ rstrip v)].
Proof.
  intros Hv. unfold dump_header_group. simpl. rewrite (split_nl_single v Hv). simpl.
  apply writes_logt, format_single.
Qed.

(** X1.  When no two headers have the same name up to case, every value
    is a [str] for the parser (no surrogate escapes) and no value is
    folded, the header section is the label [Header:] followed by one
    line per header, in the order of the headers: the name, a colon and
    the value stripped on the right, behind the prefix and [- ].  This
    holds for every prefix and also for empty values. *)
Theorem distinct_headers_one_line_each msg level prefix :
  NoDup (lower <$> msg_keys msg) →
  Forall (λ kv : str * str, str_value kv.2) (headers (msg_info msg)) →
  Forall (λ kv : str * str, LF ∉ kv.2) (headers (msg_info msg)) →
  writes (dump_email_header_to_logger msg level prefix) (inr ())
    (tag level
       ((prefix ++ lit "Header:")
        :: ((λ kv : str * str, prefix ++ lit "- " ++ kv.1 ++ lit ": " ++ rstrip kv.2)
              <$> headers (msg_info msg)))).
Proof.
  intros Hnd _ Hsingle. unfold dump_email_header_to_logger.
  rewrite header_keys_first_occurrences.
  rewrite first_occurrences_NoDup by (by apply NoDup_fmap_1 in Hnd).
  rewrite tag_cons. apply (writes_bind _ _ () [_]).
  { apply writes_logt, format_header_label. }
  unfold msg_keys, tag. rewrite <- list_fmap_compose.
  apply writes_for_each_fmap. intros [k v] Hkv. simpl.
  unfold get_all. rewrite (get_all_unique _ k v Hnd Hkv).
  apply writes_single_value. rewrite Forall_forall in Hsingle. apply (Hsingle _ Hkv).
Qed.

Lemma distinct_headers_one_line_each_witness :
  NoDup (lower <$> msg_keys plain_mail)
  ∧ Forall (λ kv : str * str, str_value kv.2) (headers (msg_info plain_mail))
  ∧ Forall (λ kv : str * str, LF ∉ kv.2) (headers (msg_info plain_mail))
  ∧ writes (dump_email_header_to_logger plain_mail INFO (lit "  ")) (inr ())
      (tag INFO [lit "  Header:"; lit "  - From: a@example.org";
                 lit "  - To: b@example.org"; lit "  - Subject: "]).
Proof.
  assert (NoDup (lower <$> msg_keys plain_mail)) as H1
    by (apply (bool_decide_unpack _); vm_compute; exact I).
  assert (Forall (λ kv : str * str, str_value kv.2) (headers (msg_info plain_mail))) as H2
    by (apply (bool_decide_unpack _); vm_compute; exact I).
  assert (Forall (λ kv : str * str, LF ∉ kv.2) (headers (msg_info plain_mail))) as H3
    by (apply (bool_decide_unpack _); vm_compute; exact I).
  split; [exact H1|]. split; [exact H2|]. split; [exact H3|].
  exact (distinct_headers_one_line_each plain_mail INFO (lit "  ") H1 H2 H3).
Defined.

Lemma writes_folded_next level prefix more : ∀ j,
  writes (for_enumerate (λ i line,
            if i =? 0
            then logf level "{}-- {}" [FStr prefix; FStr (rstrip line)]
            else logf level "{}.. {}" [FStr prefix; FStr (rstrip line)])
            (S j) more)
         (inr ()) (tag level ((λ line, prefix ++ lit ".. " ++ rstrip line) <$> more)).
Proof.
  induction more as [|line more IH]; intros j.
  - apply writes_ret.
  - rewrite for_enumerate_cons, fmap_cons, tag_cons. cbn [Nat.eqb].
    apply (writes_bind _ _ () [_]); [|apply IH].
    apply writes_logt, format_folded_next.
Qed.

(** X2.  A header that occurs once and whose value is folded over several
    lines is logged as a line with its name and a colon, then the first
    line of the value behind [-- ] and each other line behind [.. ], all
    stripped on the right. *)
Theorem folded_header_lines level prefix key v :
  LF ∈ v →
  writes (dump_header_group level prefix key [v]) (inr ())
    (tag level
       ((prefix ++ lit "- " ++ key ++ lit ":")
        :: (prefix ++ lit "-- " ++ rstrip (hd [] (split_nl v)))
        :: ((λ line, prefix ++ lit ".. " ++ rstrip line) <$> tail (split_nl v))))
  ∧ 2 ≤ length (split_nl v).
Proof.
  intros Hv. destruct (split_nl_folded v Hv) as (first & second & more & Hsplit).
  split; [|rewrite Hsplit; simpl; lia].
  unfold dump_header_group. cbn [length Nat.ltb Nat.leb]. rewrite Hsplit.
  cbn [length Nat.ltb Nat.leb hd tail]. rewrite !tag_cons.
  apply (writes_bind _ _ () [_]); [apply writes_logt, format_folded_head|].
  rewrite for_enumerate_cons. cbn [Nat.eqb].
  apply (writes_bind _ _ () [_]); [apply writes_logt, format_folded_first|].
  apply writes_folded_next.
Qed.

Lemma folded_header_lines_witness :
  let v := lit "from mx1 (mx1 [10.0.0.1])" ++ [LF] ++ lit "  by mx2; Tue " in
  LF ∈ v
  ∧ writes (dump_header_group INFO [] (lit "Received") [v]) (inr ())
      (tag INFO [lit "- Received:"; lit "-- from mx1 (mx1 [10.0.0.1])";
                 lit "..   by mx2; Tue"]).
Proof.
  intros v.
  assert (LF ∈ v) as H by (apply (bool_decide_unpack _); vm_compute; exact I).
  split; [exact H|]. exact (proj1 (folded_header_lines INFO [] (lit "Received") v H)).
Defined.

Lemma length_group_rows prefix width lst : ∀ f : nat → nat,
  length (concat (imap (λ i v, group_rows prefix width (f i) v) lst))
  = sum_list (length ∘ split_nl <$> lst).
Proof.
  induction lst as [|v lst IH]; intros f; [done|].
  rewrite fmap_cons, imap_cons, concat_cons, length_app. simpl. f_equal.
  - unfold group_rows. destruct (split_nl v); [done|]. simpl. by rewrite length_fmap.
  - rewrite <- (IH (f ∘ S)). reflexivity.
Qed.

(** X3.  A name with [N ≥ 2] values, folded or not, is logged as the group
    line with the count, then value by value: the first line of a value
    behind its index, each further line behind a run of marks one longer
    than the number of digits of [N - 1]; this makes one line more than
    there are lines in the values. *)
Theorem multi_value_group_lines level prefix key lst :
  brace_free prefix →
  1 < length lst →
  length (str_of_nat (length lst - 1)) < 10 →
  let width := length (str_of_nat (length lst - 1)) in
  let rows :=
    concat (imap (λ i v,
                    (prefix ++ lit "- " ++ str_of_nat i ++ lit ": "
                     ++ rstrip (hd [] (split_nl v)))
                    :: ((λ line, prefix ++ lit ". " ++ repeat_char 62%N (width + 1)
                                 ++ lit " " ++ rstrip line) <$> tail (split_nl v)))
                 lst) in
  writes (dump_header_group level prefix key lst) (inr ())
    (tag level
       ((prefix ++ lit "- " ++ key ++ lit " (" ++ str_of_nat (length lst)
         ++ lit " items):") :: rows))
  ∧ length rows = sum_list (length ∘ split_nl <$> lst).
Proof.
  intros Hp Hlen Hw width rows.
  assert (rows = concat (imap (λ i v, group_rows prefix width i v) lst)) as ->.
  { unfold rows. f_equal. apply imap_ext. intros i v _. simpl. unfold group_rows.
    pose proof (split_nl_nonempty v). by destruct (split_nl v). }
  split; [by apply writes_header_group_rows|].
  apply (length_group_rows prefix width lst (λ i, i)).
Qed.

Lemma multi_value_group_lines_witness :
  let lst := [lit "from a" ++ [LF] ++ lit " by b "; lit "from c"] in
  brace_free (lit "  ")
  ∧ 1 < length lst
  ∧ length (str_of_nat (length lst - 1)) < 10
  ∧ writes (dump_header_group INFO (lit "  ") (lit "Received") lst) (inr ())
      (tag INFO [lit "  - Received (2 items):"; lit "  - 0: from a";
                 lit "  . >>  by b"; lit "  - 1: from c"]).
Proof.
  intros lst.
  assert (brace_free (lit "  ")) as H1 by (by repeat constructor).
  assert (1 < length lst) as H2 by (simpl; lia).
  assert (length (str_of_nat (length lst - 1)) < 10) as H3 by (vm_compute; lia).
  repeat (split; [assumption|]).
  exact (proj1 (multi_value_group_lines INFO (lit "  ") (lit "Received") lst H1 H2 H3)).
Defined.

(** ** The header section as a whole *)

Lemma tag_concat level (ls : list (list str)) :
  tag level (concat ls) = concat (tag level <$> ls).
Proof.
  induction ls as [|l ls IH]; [done|]. simpl. by rewrite tag_app, IH.
Qed.

Lemma writes_for_each_concat {A} (body : A → M ()) (lines : A → list (Level * str)) l :
  (∀ x, x ∈ l → writes (body x) (inr ()) (lines x)) →
  writes (for_each body l) (inr ()) (concat (lines <$> l)).
Proof.
  induction l as [|x l IH]; intros H.
  - apply writes_ret.
  - rewrite fmap_cons. simpl. apply (writes_bind _ _ ()).
    + apply H. by left.
    + apply IH. intros y Hy. apply H. by right.
Qed.

Lemma writes_one_line_value level prefix key v line :
  split_nl v = [line] →
  writes (dump_header_group level prefix key [v]) (inr ())
         [(level, prefix ++ lit "- " ++ key ++ lit ": " ++ rstrip v)].
Proof.
  intros Hv. unfold dump_header_group. cbn [length Nat.ltb Nat.leb]. rewrite Hv.
  cbn [length Nat.ltb Nat.leb]. apply writes_logt, format_single.
Qed.

Lemma writes_folded_value level prefix key v first second more :
  split_nl v = first :: second :: more →
  writes (dump_header_group level prefix key [v]) (inr ())
    (tag level
       ((prefix ++ lit "- " ++ key ++ lit ":")
        :: (prefix ++ lit "-- " ++ rstrip first)
        :: ((λ line, prefix ++ lit ".. " ++ rstrip line) <$> second :: more))).
Proof.
  intros Hsplit. unfold dump_header_group. cbn [length Nat.ltb Nat.leb]. rewrite Hsplit.
  cbn [length Nat.ltb Nat.leb]. rewrite !tag_cons.
  apply (writes_bind _ _ () [_]); [apply writes_logt, format_folded_head|].
  rewrite for_enumerate_cons. cbn [Nat.eqb].
  apply (writes_bind _ _ () [_]); [apply writes_logt, format_folded_first|].
  apply writes_folded_next.
Qed.

(** One group of the header section. *)
Lemma writes_group_lines level prefix key lst :
  brace_free prefix →
  lst ≠ [] →
  length (str_of_nat (length lst - 1)) < 10 →
  writes (dump_header_group level prefix key lst) (inr ())
         (tag level (group_lines prefix key lst)).
Proof.
  intros Hp Hne Hw. destruct lst as [|v [|v' lst]]; [done| |].
  - unfold group_lines. pose proof (split_nl_nonempty v) as Hs.
    destruct (split_nl v) as [|first [|second more]] eqn:Hv; [done| |].
    + by apply (writes_one_line_value _ _ _ _ first).
    + by apply writes_folded_value.
  - apply writes_header_group_rows; [done|simpl; lia|done].
Qed.

(** C4, what the code does.  The header section is the label [Header:]
    and then one group per header name as it is spelled, the names in the
    order of their first occurrence; the group of a name lists, in their
    original order, the values of all headers whose name equals it up to
    case.  So with names spelled alike there is one group per name with
    the values of that name, and two spellings of a name make two groups,
    each with the values of both. *)
Theorem header_groups_in_first_occurrence_order msg level prefix :
  brace_free prefix →
  Forall (λ kv : str * str, str_value kv.2) (headers (msg_info msg)) →
  (∀ n, n ≤ length (headers (msg_info msg)) → length (str_of_nat n) < 10) →
  writes (dump_email_header_to_logger msg level prefix) (inr ())
    (tag level
       ((prefix ++ lit "Header:")
        :: concat ((λ name,
                      group_lines prefix name
                        (filter (λ kv : str * str, lower kv.1 = lower name)
                                (headers (msg_info msg))).*2)
                     <$> first_occurrences (headers (msg_info msg)).*1)))
  ∧ NoDup (first_occurrences (headers (msg_info msg)).*1)
  ∧ (∀ name, name ∈ first_occurrences (headers (msg_info msg)).*1
             ↔ name ∈ (headers (msg_info msg)).*1)
  ∧ (∀ i j k1 k2,
       first_occurrences (headers (msg_info msg)).*1 !! i = Some k1 →
       first_occurrences (headers (msg_info msg)).*1 !! j = Some k2 →
       i < j →
       list_index k1 (headers (msg_info msg)).*1
       < list_index k2 (headers (msg_info msg)).*1).
Proof.
  intros Hp _ Hw. split; [|split; [|split]].
  - unfold dump_email_header_to_logger. rewrite header_keys_first_occurrences.
    unfold msg_keys. rewrite tag_cons.
    apply (writes_bind _ _ () [_]); [apply writes_logt, format_header_label|].
    rewrite tag_concat, <- list_fmap_compose.
    apply writes_for_each_concat. intros name Hname. simpl.
    apply (proj1 (elem_of_first_occurrences _ _)) in Hname.
    apply list_elem_of_fmap in Hname as ([k v] & -> & Hkv). simpl.
    unfold get_all. apply writes_group_lines; [done| |].
    + intros Hnil. apply fmap_nil_inv in Hnil.
      assert ((k, v) ∈ filter (λ kv : str * str, lower kv.1 = lower k)
                              (headers (msg_info msg))) as Hin
        by (by apply list_elem_of_filter).
      rewrite Hnil in Hin. by apply elem_of_nil in Hin.
    + apply Hw. rewrite length_fmap.
      pose proof (length_filter (λ kv : str * str, lower kv.1 = lower k)
                    (headers (msg_info msg))).
      lia.
  - apply NoDup_first_occurrences.
  - intros name. apply elem_of_first_occurrences.
  - intros i j k1 k2 Hi Hj Hij.
    pose proof (StronglySorted_lookup _ _ _ _ _ _
                  (first_occurrences_sorted (headers (msg_info msg)).*1) Hi Hj Hij) as Hle.
    unfold key_le in Hle.
    assert (k1 ≠ k2) as Hne.
    { intros ->. pose proof (NoDup_first_occurrences (headers (msg_info msg)).*1) as Hnd.
      rewrite NoDup_alt in Hnd. specialize (Hnd i j k2 Hi Hj). lia. }
    assert (list_index k1 (headers (msg_info msg)).*1
            ≠ list_index k2 (headers (msg_info msg)).*1); [|lia].
    intros Heq. apply Hne. apply (list_index_inj (headers (msg_info msg)).*1); [| |done].
    + apply elem_of_first_occurrences. by eapply list_elem_of_lookup_2.
    + apply elem_of_first_occurrences. by eapply list_elem_of_lookup_2.
Qed.

Lemma header_groups_in_first_occurrence_order_witness :
  (brace_free []
   ∧ Forall (λ kv : str * str, str_value kv.2) (headers (msg_info interleaved_names))
   ∧ (∀ n, n ≤ length (headers (msg_info interleaved_names)) →
           length (str_of_nat n) < 10)
   ∧ writes (dump_email_header_to_logger interleaved_names INFO []) (inr ())
       (tag INFO [lit "Header:"; lit "- A (2 items):"; lit "- 0: 1"; lit "- 1: 3";
                  lit "- B: 2"; lit "- C: 4"]))
  ∧ (Forall (λ kv : str * str, str_value kv.2) (headers (msg_info mixed_case_names))
     ∧ (∀ n, n ≤ length (headers (msg_info mixed_case_names)) →
             length (str_of_nat n) < 10)
     ∧ writes (dump_email_header_to_logger mixed_case_names INFO []) (inr ())
         (tag INFO [lit "Header:"; lit "- To (2 items):"; lit "- 0: a"; lit "- 1: b";
                    lit "- to (2 items):"; lit "- 0: a"; lit "- 1: b"])).
Proof.
  assert (brace_free []) as H0 by constructor.
  assert (Forall (λ kv : str * str, str_value kv.2) (headers (msg_info interleaved_names)))
    as H1 by (apply (bool_decide_unpack _); vm_compute; exact I).
  assert (∀ n, n ≤ length (headers (msg_info interleaved_names)) →
               length (str_of_nat n) < 10) as H2.
  { intros n Hn. do 5 (destruct n as [|n]; [vm_compute; lia|]). simpl in Hn. lia. }
  assert (Forall (λ kv : str * str, str_value kv.2) (headers (msg_info mixed_case_names)))
    as H3 by (apply (bool_decide_unpack _); vm_compute; exact I).
  assert (∀ n, n ≤ length (headers (msg_info mixed_case_names)) →
               length (str_of_nat n) < 10) as H4.
  { intros n Hn. do 3 (destruct n as [|n]; [vm_compute; lia|]). simpl in Hn. lia. }
  split.
  - split; [exact H0|]. split; [exact H1|]. split; [exact H2|].
    exact (proj1 (header_groups_in_first_occurrence_order interleaved_names INFO []
                    H0 H1 H2)).
  - split; [exact H3|]. split; [exact H4|].
    exact (proj1 (header_groups_in_first_occurrence_order mixed_case_names INFO []
                    H0 H3 H4)).
Defined.

(** ** The dumps at the start *)

Ltac format_eval_facts :=
  cbv -[app str_of_nat join split_nl rstrip]; rewrite ?app_nil_r; reflexivity.

(** X4.  The environment dump never raises: it logs its heading and then
    one line per variable, in the order of the environment, the name and
    the value between double quotes. *)
Theorem environment_is_dumped rt level :
  writes (dump_env_variables_to_logger rt level) (inr ())
    (tag level
       (lit "Showing environment variables:"
        :: ((λ kv : str * str,
               lit "- " ++ [QUOTE] ++ kv.1 ++ [QUOTE] ++ lit " -> " ++ [QUOTE]
               ++ kv.2 ++ [QUOTE]) <$> os_environ (rt_sys rt)))).
Proof.
  unfold dump_env_variables_to_logger. rewrite tag_cons.
  apply (writes_bind _ _ () [_]); [apply writes_log|].
  unfold tag. rewrite <- list_fmap_compose.
  apply writes_for_each_lines. intros kv. apply writes_logt, format_environ.
Qed.

(** X5.  The system facts are logged outside the [try] statement: when
    the user id of the process has no entry in the password database,
    [capture_mail] raises the [KeyError] of the lookup after the first
    four lines of the dump; it returns no exit status, reads no input and
    writes no bounce line. *)
Theorem missing_user_escapes_capture_mail rt args stdin w cwd e :
  os_getcwd (rt_sys rt) = inr cwd →
  pwd_getpwuid (rt_sys rt) (os_getuid (rt_sys rt)) = inl e →
  capture_mail rt args stdin w
  = (inl e,
     add_log w
       (tag INFO
          [lit "Showing system-info:";
           lit "- Python Version:      " ++ python_version (rt_sys rt) ++ lit " ("
             ++ join (lit " ") (split_nl (sys_version (rt_sys rt))) ++ lit ")";
           lit "- platform.platform(): " ++ platform_platform (rt_sys rt);
           lit "- os.getcwd():    " ++ cwd])).
Proof.
  intros Hcwd Huid.
  assert (writes (dump_system_info_to_logger rt INFO) (inl e)
            (tag INFO
               [lit "Showing system-info:";
                lit "- Python Version:      " ++ python_version (rt_sys rt) ++ lit " ("
                  ++ join (lit " ") (split_nl (sys_version (rt_sys rt))) ++ lit ")";
                lit "- platform.platform(): " ++ platform_platform (rt_sys rt);
                lit "- os.getcwd():    " ++ cwd])) as H.
  { unfold dump_system_info_to_logger. cbv zeta. rewrite Hcwd, Huid. rewrite !tag_cons.
    apply (writes_bind _ _ () [_]); [apply writes_log|].
    apply (writes_bind _ _ () [_]); [apply writes_logt; format_eval_facts|].
    apply (writes_bind _ _ () [_]); [apply writes_logt; format_eval_facts|].
    apply (writes_bind _ _ cwd []); [apply writes_lift|].
    rewrite <- (app_nil_r [_]).
    apply (writes_bind _ _ () [_]); [apply writes_logt; format_eval_facts|].
    apply writes_bind_raise, writes_lift. }
  unfold capture_mail. unfold mbind at 1, M_bind at 1. by rewrite H.
Qed.

Lemma missing_user_escapes_capture_mail_witness :
  let args := mkArgs None true None (lit "UTF-8") false in
  os_getcwd (rt_sys orphan_runtime) = inr (lit "/")
  ∧ pwd_getpwuid (rt_sys orphan_runtime) (os_getuid (rt_sys orphan_runtime))
    = inl KeyError_uid
  ∧ (capture_mail orphan_runtime args sample_stdin empty_world).1 = inl KeyError_uid
  ∧ w_stderr (capture_mail orphan_runtime args sample_stdin empty_world).2 = [].
Proof.
  intros args. split; [reflexivity|]. split; [reflexivity|].
  rewrite (missing_user_escapes_capture_mail orphan_runtime args sample_stdin
             empty_world (lit "/") KeyError_uid eq_refl eq_refl).
  split; reflexivity.
Defined.

(** ** Parts that are not text, and defects *)

(** X6.  A part that is not multipart and whose main type is not [text] is
    never decoded: after its head it logs the one line
    [(Possibly binary data with size N)] with the number of bytes of the
    payload, also for an empty payload, whatever charset it declares and
    whatever codecs there are. *)
Theorem binary_part_size_line rt info data level message_index prefix indent_str :
  before_slash (content_type info) ≠ lit "text" →
  writes (dump_email_body_to_logger rt (Part info data) level message_index prefix
            indent_str)
    (tail_outcome info)
    (tag level (head_lines info message_index prefix)
     ++ [(level, prefix ++ lit "> (Possibly binary data with size "
                 ++ str_of_nat (length data) ++ lit ")")]
     ++ tag level (tail_lines info prefix))
  ∧ ∀ w, dump_email_body_to_logger (no_codecs rt) (Part info data) level message_index
           prefix indent_str w
         = dump_email_body_to_logger rt (Part info data) level message_index prefix
             indent_str w.
Proof.
  intros Hbin.
  assert (∀ rt', writes (dump_email_body_to_logger rt' (Part info data) level
                           message_index prefix indent_str)
            (tail_outcome info)
            (tag level (head_lines info message_index prefix)
             ++ [(level, prefix ++ lit "> (Possibly binary data with size "
                         ++ str_of_nat (length data) ++ lit ")")]
             ++ tag level (tail_lines info prefix))) as H.
  { intros rt'.
    apply (writes_dump_body rt' (Part info data) _ _ _ _ (inr ())).
    by apply writes_payload_binary. }
  split; [apply H|]. intros w. by rewrite (H rt), (H (no_codecs rt)).
Qed.

Lemma binary_part_size_line_witness :
  let info := plain_info [] "image/png" (Some (lit "klingon")) in
  before_slash (content_type info) ≠ lit "text"
  ∧ writes (dump_email_body_to_logger (sample_runtime plain_mail None)
              (Part info (blit "xyz")) INFO (lit "0-2") (lit "  ") (lit "  "))
      (inr ())
      (tag INFO [summary_line info (lit "0-2") (lit "  ");
                 lit "  > (Possibly binary data with size 3)"]).
Proof.
  intros info.
  assert (before_slash (content_type info) ≠ lit "text") as H
    by (vm_compute; discriminate).
  split; [exact H|].
  exact (proj1 (binary_part_size_line (sample_runtime plain_mail None) info (blit "xyz")
                  INFO (lit "0-2") (lit "  ") (lit "  ") H)).
Defined.

(** X7.  The defects the parser recorded on a part are logged last, when
    the content has been rendered and there is no epilogue: the line
    [defects:], then one line per defect with its class name and its
    detail, in their order; a part without defects logs nothing there. *)
Theorem defects_are_listed_last rt msg level message_index prefix indent_str lc :
  truthy (epilogue (msg_info msg)) = false →
  writes (dump_content rt msg level message_index prefix indent_str) (inr ()) lc →
  body_outcome rt msg level message_index prefix indent_str = inr ()
  ∧ body_log rt msg level message_index prefix indent_str
    = tag level (head_lines (msg_info msg) message_index prefix) ++ lc
      ++ match defects (msg_info msg) with
         | [] => []
         | ds => (level, prefix ++ lit "defects:")
                 :: tag level ((λ d : str * str,
                                  prefix ++ lit "- " ++ d.1 ++ lit " (detail: " ++ d.2
                                  ++ lit ")") <$> ds)
         end.
Proof.
  intros Hepi Hc. destruct (body_run_content rt _ _ _ _ _ _ _ Hc) as [Hout Hlog].
  unfold tail_outcome in Hout. unfold tail_lines, defect_lines in Hlog.
  rewrite Hepi in Hout, Hlog. split; [done|]. rewrite Hlog.
  by destruct (defects (msg_info msg)).
Qed.

Lemma defects_are_listed_last_witness :
  let rt := sample_runtime with_defect None in
  truthy (epilogue (msg_info with_defect)) = false
  ∧ writes (dump_content rt with_defect INFO (lit "0") [] (lit "  ")) (inr ())
      [(INFO, lit "> hello")]
  ∧ body_log rt with_defect INFO (lit "0") [] (lit "  ")
    = tag INFO [summary_line (msg_info with_defect) (lit "0") []; lit "> hello";
                lit "defects:"; lit "- StartBoundaryNotFoundDefect (detail: )";
                lit "- MultipartInvariantViolationDefect (detail: )"].
Proof.
  intros rt.
  assert (writes (dump_content rt with_defect INFO (lit "0") [] (lit "  ")) (inr ())
            [(INFO, lit "> hello")]) as Hc.
  { apply (writes_payload_text rt (msg_info with_defect) (blit "hello") INFO []
             (lit "hello")); reflexivity. }
  split; [reflexivity|]. split; [exact Hc|].
  exact (proj2 (defects_are_listed_last rt with_defect INFO (lit "0") [] (lit "  ")
                  _ eq_refl Hc)).
Defined.

(** ** Every part of the tree *)

Lemma elem_of_concat {A} (x : A) l ls : x ∈ l → l ∈ ls → x ∈ concat ls.
Proof.
  intros Hx Hl. induction Hl as [l ls|l l' ls _ IH]; simpl; rewrite elem_of_app; auto.
Qed.

Section Paths.
Variable rt : Runtime.
Variables (level : Level).

(** A loop over the children that returns has rendered them all. *)
Lemma children_loop_returns message_index prefix indent_str parts : ∀ k lc,
  writes (dump_children rt level message_index prefix indent_str k parts) (inr ()) lc →
  children_return rt level message_index prefix indent_str k parts
  ∧ lc = children_log rt level message_index prefix indent_str k parts.
Proof.
  induction parts as [|sub parts IH]; intros k lc Hloop.
  - split; [by intros j x Hx|].
    by destruct (writes_inj _ _ _ _ _ Hloop (writes_ret ())) as [_ ->].
  - pose proof (writes_body_run rt sub level (child_label message_index (k + 1))
                  (prefix ++ indent_str) (lit "  ")) as Hsub.
    destruct (body_outcome rt sub level (child_label message_index (k + 1))
                (prefix ++ indent_str) (lit "  ")) as [e|[]] eqn:Hout.
    + assert (writes (dump_children rt level message_index prefix indent_str k
                        (sub :: parts)) (inl e)
                (body_log rt sub level (child_label message_index (k + 1))
                   (prefix ++ indent_str) (lit "  "))) as Hraise.
      { eapply writes_ext; [intros w; apply dump_children_cons|].
        by apply writes_bind_raise. }
      by destruct (writes_inj _ _ _ _ _ Hloop Hraise).
    + destruct (logger_only_children rt level message_index prefix indent_str (S k) parts)
        as (r & l & Hrest).
      assert (writes (dump_children rt level message_index prefix indent_str k
                        (sub :: parts)) r
                (body_log rt sub level (child_label message_index (k + 1))
                   (prefix ++ indent_str) (lit "  ") ++ l)) as Hcons.
      { eapply writes_ext; [intros w; apply dump_children_cons|].
        by eapply writes_bind. }
      destruct (writes_inj _ _ _ _ _ Hloop Hcons) as [<- ->].
      destruct (IH _ _ Hrest) as [Hret ->]. split.
      * by apply children_return_cons.
      * by rewrite children_log_cons.
Qed.

(** A multipart message whose rendering returns has rendered all its
    children, one after the other. *)
Lemma multipart_returns info parts message_index prefix indent_str :
  body_outcome rt (Multipart info parts) level message_index prefix indent_str = inr () →
  children_return rt level message_index prefix indent_str 0 parts
  ∧ body_log rt (Multipart info parts) level message_index prefix indent_str
    = tag level (head_lines info message_index prefix)
      ++ children_log rt level message_index prefix indent_str 0 parts
      ++ tag level (tail_lines info prefix).
Proof.
  intros Hout.
  destruct (logger_only_children rt level message_index prefix indent_str 0 parts)
    as (rc & lc & Hc).
  destruct (body_run_content rt (Multipart info parts) _ _ _ _ _ _ Hc) as [Hout' Hlog].
  rewrite Hout in Hout'. destruct rc as [e|[]]; [done|].
  destruct (children_loop_returns _ _ _ _ _ _ Hc) as [Hret ->]. by split.
Qed.

(** The summary line of the part at [path] is in the log of a rendering
    that returns. *)
Lemma part_summary_in_log path : ∀ msg sub message_index prefix indent_str,
  part_at msg path = Some sub →
  body_outcome rt msg level message_index prefix indent_str = inr () →
  (level, summary_line (msg_info sub) (path_label message_index path)
            (path_prefix prefix indent_str path))
  ∈ body_log rt msg level message_index prefix indent_str.
Proof.
  induction path as [|i rest IH]; intros msg sub message_index prefix indent_str Hat Hout.
  - simpl in *. inversion Hat; subst.
    destruct (body_log_summary rt sub level message_index prefix indent_str)
      as [more ->]. by left.
  - destruct msg as [info data|info parts]; [done|]. simpl in Hat.
    destruct (parts !! i) as [child|] eqn:Hi; [|done]. simpl in Hat.
    destruct (multipart_returns _ _ _ _ _ Hout) as [Hret ->].
    rewrite !elem_of_app. right. left.
    apply (elem_of_concat _
             (body_log rt child level (child_label message_index (0 + i + 1))
                (prefix ++ indent_str) (lit "  "))).
    + apply (IH child sub _ _ _ Hat). by apply Hret.
    + unfold children_log.
      by apply (elem_of_lookup_imap_2
                  (λ j sub0, body_log rt sub0 level (child_label message_index (0 + j + 1))
                               (prefix ++ indent_str) (lit "  "))).
Qed.
End Paths.

Lemma path_label_joined path : ∀ label,
  path_label label path
  = label ++ concat ((λ i, lit "-" ++ str_of_nat (i + 1)) <$> path).
Proof.
  induction path as [|i rest IH]; intros label; simpl.
  - by rewrite app_nil_r.
  - rewrite IH. unfold child_label. by rewrite <- !app_assoc.
Qed.

Lemma path_prefix_spaces rest : ∀ p,
  path_prefix p (lit "  ") rest = p ++ concat (replicate (length rest) (lit "  ")).
Proof.
  induction rest as [|i rest IH]; intros p; simpl.
  - by rewrite app_nil_r.
  - rewrite IH. by rewrite <- !app_assoc.
Qed.

(** X8.  When the rendering of a message returns, every part of its tree
    has been rendered: the summary line of the part at any path is in the
    log, under the label of the root followed by the 1-based positions of
    the path, each behind a hyphen, and behind the prefix extended by the
    indentation unit once and by two spaces for every further level: the
    indentation unit of the caller is used at the first level only. *)
Theorem every_part_is_summarised rt level msg path sub message_index prefix indent_str :
  part_at msg path = Some sub →
  body_outcome rt msg level message_index prefix indent_str = inr () →
  (level, summary_line (msg_info sub) (path_label message_index path)
            (path_prefix prefix indent_str path))
  ∈ body_log rt msg level message_index prefix indent_str
  ∧ path_label message_index path
    = message_index ++ concat ((λ i, lit "-" ++ str_of_nat (i + 1)) <$> path)
  ∧ path_prefix prefix indent_str path
    = match path with
      | [] => prefix
      | _ :: rest => prefix ++ indent_str ++ concat (replicate (length rest) (lit "  "))
      end.
Proof.
  intros Hat Hout. split; [by apply part_summary_in_log|].
  split; [apply path_label_joined|].
  destruct path as [|i rest]; [done|]. simpl.
  by rewrite path_prefix_spaces, <- app_assoc.
Qed.

Lemma every_part_is_summarised_witness :
  let rt := sample_runtime sample_tree None in
  part_at sample_tree [0; 1] = Some (Part (plain_info [] "text/html" (Some (lit "latin-1")))
                                       [Byte.xe9])
  ∧ body_outcome rt sample_tree INFO (lit "0") [] (lit "....") = inr ()
  ∧ ((INFO, summary_line (plain_info [] "text/html" (Some (lit "latin-1")))
              (lit "0-1-2") (lit "....  "))
     ∈ body_log rt sample_tree INFO (lit "0") [] (lit "...."))
  ∧ path_label (lit "0") [0; 1] = lit "0-1-2"
  ∧ path_prefix [] (lit "....") [0; 1] = lit "....  ".
Proof.
  intros rt.
  assert (body_outcome rt sample_tree INFO (lit "0") [] (lit "....") = inr ()) as Hout
    by (vm_compute; reflexivity).
  split; [reflexivity|]. split; [exact Hout|].
  pose proof (every_part_is_summarised rt INFO sample_tree [0; 1] _ (lit "0") []
                (lit "....") eq_refl Hout) as (Hin & _ & _).
  split; [exact Hin|]. split; reflexivity.
Defined.

(** ** What the renderer leaves alone *)

Lemma logs_at_ret {A} level (a : A) : logs_at level (mret a : M A).
Proof. exists (inr a), []. apply writes_ret. Qed.

Lemma logs_at_raise {A} level e : logs_at level (raise e : M A).
Proof. exists (inl e), []. apply writes_raise. Qed.

Lemma logs_at_lift {A} level (r : result A) : logs_at level (lift r).
Proof. exists r, []. apply writes_lift. Qed.

Lemma logs_at_logt level t args : logs_at level (logt level t args).
Proof.
  destruct (py_format t args) as [e|msg] eqn:H.
  - exists (inl e), []. by apply writes_logt_raise.
  - exists (inr ()), [msg]. by apply writes_logt.
Qed.

Lemma logs_at_bind {A B} level (m : M A) (f : A → M B) :
  logs_at level m → (∀ a, logs_at level (f a)) → logs_at level (m ≫= f).
Proof.
  intros ([e|a] & l1 & Hm) Hf.
  - exists (inl e), l1. by apply writes_bind_raise.
  - destruct (Hf a) as (r & l2 & Ha). exists r, (l1 ++ l2). rewrite tag_app.
    by eapply writes_bind.
Qed.

Lemma logs_at_for_each {A} level (body : A → M ()) l :
  (∀ x, logs_at level (body x)) → logs_at level (for_each body l).
Proof.
  intros H. induction l as [|x l IH]; simpl; [apply logs_at_ret|].
  apply logs_at_bind; [apply H | intros _; apply IH].
Qed.

Lemma logs_at_for_enumerate {A} level (body : nat → A → M ()) l : ∀ k,
  (∀ i x, x ∈ l → logs_at level (body i x)) → logs_at level (for_enumerate body k l).
Proof.
  induction l as [|x l IH]; intros k H; simpl; [apply logs_at_ret|].
  apply logs_at_bind; [apply H; left | intros _; apply IH].
  intros i y Hy. apply H. by right.
Qed.

Lemma logs_at_header_group level prefix key lst :
  logs_at level (dump_header_group level prefix key lst).
Proof.
  unfold dump_header_group. destruct (1 <? length lst).
  - apply logs_at_bind; [apply logs_at_logt|]. intros _.
    apply logs_at_for_enumerate. intros i elem _.
    apply logs_at_for_enumerate. intros j line _.
    destruct (j =? 0);
      (apply logs_at_bind; [apply logs_at_lift|]); intros s; apply logs_at_logt.
  - destruct lst as [|elem lst]; [apply logs_at_raise|].
    destruct (1 <? length (split_nl elem)).
    + apply logs_at_bind; [apply logs_at_logt|]. intros _.
      apply logs_at_for_enumerate. intros i line _.
      destruct (i =? 0); apply logs_at_logt.
    + apply logs_at_logt.
Qed.

Lemma logs_at_body rt level msg : ∀ message_index prefix indent_str,
  logs_at level (dump_email_body_to_logger rt msg level message_index prefix indent_str).
Proof.
  induction msg as [info data|info parts IH] using Message_ind';
    intros message_index prefix indent_str.
  - assert (logs_at level (dump_payload rt info data level prefix))
      as (rc & lc & Hc).
    { unfold dump_payload. case_decide; [|apply logs_at_logt].
      apply logs_at_bind; [apply logs_at_lift|]. intros text.
      eexists _, _. apply writes_dump_lines. }
    pose proof (writes_dump_body rt (Part info data) level message_index prefix
                  indent_str _ _ Hc) as H.
    exists (match rc with inl e => inl e | inr _ => tail_outcome info end),
      (head_lines info message_index prefix ++ lc
       ++ match rc with inl _ => [] | inr _ => tail_lines info prefix end).
    rewrite !tag_app. by destruct rc.
  - assert (logs_at level (dump_children rt level message_index prefix indent_str 0 parts))
      as (rc & lc & Hc).
    { apply logs_at_for_enumerate. intros i sub Hsub.
      rewrite Forall_forall in IH. rewrite format_child_label.
      apply logs_at_bind; [apply logs_at_lift|]. intros a. by apply IH. }
    pose proof (writes_dump_body rt (Multipart info parts) level message_index prefix
                  indent_str _ _ Hc) as H.
    exists (match rc with inl e => inl e | inr _ => tail_outcome info end),
      (head_lines info message_index prefix ++ lc
       ++ match rc with inl _ => [] | inr _ => tail_lines info prefix end).
    rewrite !tag_app. by destruct rc.
Qed.

(** X9.  Rendering a message does nothing but hand records to the logger,
    all of them at the level it was given; it writes neither to the error
    stream nor to the capture file, and what it logs and whether it raises
    do not depend on what was logged before. *)
Theorem rendering_only_logs rt msg level prefix indent_str :
  ∃ r lines, ∀ w,
    dump_email_to_logger rt msg level prefix indent_str w
    = (r, mkWorld (w_log w ++ tag level lines) (w_stderr w) (w_out_file w)).
Proof.
  assert (logs_at level (dump_email_to_logger rt msg level prefix indent_str))
    as (r & lines & H).
  { apply logs_at_bind; [|intros _; apply logs_at_body].
    apply logs_at_bind; [apply logs_at_logt|]. intros _.
    apply logs_at_for_each. intros key. apply logs_at_header_group. }
  exists r, lines. exact H.
Qed.

(** ** The headers of the parts below the root *)

Lemma M_bind_ext {A B} (m m' : M A) (f f' : A → M B) w :
  m w = m' w → (∀ a w', f a w' = f' a w') → (m ≫= f) w = (m' ≫= f') w.
Proof.
  intros Hm Hf. unfold mbind, M_bind. rewrite Hm.
  destruct (m' w) as [[e|a] w']; [done|apply Hf].
Qed.

Lemma dump_children_without_headers rt level message_index prefix indent_str parts :
  Forall (λ sub, ∀ message_index prefix indent_str w,
            dump_email_body_to_logger rt (without_headers sub) level message_index
              prefix indent_str w
            = dump_email_body_to_logger rt sub level message_index prefix indent_str w)
         parts →
  ∀ k w, dump_children rt level message_index prefix indent_str k
           (without_headers <$> parts) w
         = dump_children rt level message_index prefix indent_str k parts w.
Proof.
  induction 1 as [|sub parts Hsub _ IH]; intros k w; [done|].
  rewrite fmap_cons, !dump_children_cons. apply M_bind_ext; [apply Hsub|].
  intros _ w'. apply IH.
Qed.

Lemma body_without_headers rt level msg : ∀ message_index prefix indent_str w,
  dump_email_body_to_logger rt (without_headers msg) level message_index prefix
    indent_str w
  = dump_email_body_to_logger rt msg level message_index prefix indent_str w.
Proof.
  induction msg as [info data|info parts IH] using Message_ind';
    intros message_index prefix indent_str w; [done|].
  change (dump_email_body_to_logger rt (without_headers (Multipart info parts)) level
            message_index prefix indent_str w)
    with ((logf level
             "{}Message content {} (content_type: {}, params: {}, charset: {}, encoding: {}):"
             [FStr prefix; FStr message_index; FStr (content_type info);
              FStr (params_text info); FStr (charset_text info);
              FStr (opt_text (charset_param info))];;
           (if truthy (preamble info)
            then logf level "{}preample:" [FStr prefix];;
                 dump_lines level prefix (default [] (preamble info))
            else mret ());;
           dump_children rt level message_index prefix indent_str 0
             (without_headers <$> parts);;
           (if truthy (epilogue info)
            then raise (A := ()) (mkExn (lit "AttributeError")
                                    (lit "'str' object has no attribute 'fromat'"));;
                 dump_lines level prefix (default [] (epilogue info))
            else mret ());;
           match defects info with
           | [] => mret ()
           | ds =>
               logf level "{}defects:" [FStr prefix];;
               for_each (λ defect : str * str,
                           logf level "{}- {} (detail: {})"
                             [FStr prefix; FStr defect.1; FStr defect.2])
                        ds
           end) w).
  apply M_bind_ext; [done|]. intros _ w1.
  apply M_bind_ext; [done|]. intros _ w2.
  apply M_bind_ext; [|done]. by apply dump_children_without_headers.
Qed.

(** X10.  Only the header listing of the message itself is rendered:
    [dump_email_header_to_logger] is not called on the parts below it, so
    the rendering does not depend on what [keys()] and [get_all()] answer
    for those parts (their content type, parameters and charset, which the
    summary line shows, are fields of their own in [PartInfo]). *)
Theorem part_headers_are_not_rendered rt info parts level prefix indent_str w :
  dump_email_to_logger rt (Multipart info (without_headers <$> parts)) level prefix
    indent_str w
  = dump_email_to_logger rt (Multipart info parts) level prefix indent_str w.
Proof.
  unfold dump_email_to_logger. apply M_bind_ext; [done|]. intros _ w'.
  rewrite <- (body_without_headers rt level (Multipart info parts)). reflexivity.
Qed.

(** ** Reading the input *)

Section Reading.
Variable rt : Runtime.

Lemma after_lines_nil w : after_lines w [] = w.
Proof.
  destruct w as [log err [written|]]; unfold after_lines; simpl;
    by rewrite ?app_nil_r.
Qed.

Lemma after_lines_cons w line ls :
  after_lines (after_lines w [line]) ls = after_lines w (line :: ls).
Proof.
  destruct w as [log err [written|]]; unfold after_lines; simpl;
    by rewrite <- !app_assoc.
Qed.

(** Reading the lines [ls]: each is written to the capture file if there is
    one, fed to the parser and echoed, and the loop goes on with the rest
    of the input. *)
Lemma log_echo line w :
  logf INFO ">>> {}" [FStr (rstrip line)] w = (inr (), add_log w [(INFO, echo line)]).
Proof.
  unfold logf, logt, lift. unfold mbind, M_bind. rewrite format_echo. reflexivity.
Qed.

Lemma read_stdin_line parser parser' line rest w :
  (w_out_file w = None ∨ ∀ written, rt_write rt written line = None) →
  p_feed (rt_parser rt) parser line = inr parser' →
  read_stdin rt parser (Line line rest) w
  = read_stdin rt parser' rest (after_lines w [line]).
Proof.
  intros Hfile Hline. cbn [read_stdin].
  unfold mbind at 1, M_bind at 1, get_out_file at 1.
  destruct w as [log err [written|]]; cbn [w_out_file is_file].
  - destruct Hfile as [?|Hwrite]; [done|].
    unfold mbind at 1, M_bind at 1, file_write.
    unfold mbind at 1, M_bind at 1, get_out_file at 1. cbn [w_out_file default].
    rewrite Hwrite. unfold set_out_file at 1.
    unfold mbind at 1, M_bind at 1, lift at 1. rewrite Hline.
    unfold mbind at 1, M_bind at 1. rewrite log_echo. reflexivity.
  - unfold mbind at 1, M_bind at 1, mret at 1, M_ret at 1.
    unfold mbind at 1, M_bind at 1, lift at 1. rewrite Hline.
    unfold mbind at 1, M_bind at 1. rewrite log_echo. reflexivity.
Qed.

(** Reading the lines [ls]: each is written to the capture file if there is
    one, fed to the parser and echoed, and the loop goes on with the rest
    of the input. *)
Lemma read_stdin_lines ls : ∀ fin parser parser' w,
  (w_out_file w = None ∨ ∀ written line, line ∈ ls → rt_write rt written line = None) →
  feed_all rt parser ls = inr parser' →
  read_stdin rt parser (stdin_of ls fin) w
  = read_stdin rt parser' fin (after_lines w ls).
Proof.
  induction ls as [|line ls IH]; intros fin parser parser' w Hfile Hfeed.
  - simpl in *. inversion Hfeed; subst. by rewrite after_lines_nil.
  - cbn [feed_all] in Hfeed.
    destruct (p_feed (rt_parser rt) parser line) as [e|parser1] eqn:Hline; [done|].
    cbn in Hfeed. rewrite <- after_lines_cons.
    rewrite <- (IH fin parser1 parser' (after_lines w [line])); [|..|done].
    + cbn [stdin_of foldr]. apply read_stdin_line; [|done].
      destruct Hfile as [Hnone|Hwrite]; [by left|right].
      intros written. apply Hwrite. by left.
    + destruct Hfile as [Hnone|Hwrite]; [left|right].
      * unfold after_lines. by rewrite Hnone.
      * intros written l Hl. apply Hwrite. by right.
Qed.
End Reading.

(** ** The driver on an input read to its end *)

Section Capture.
Variable rt : Runtime.

Lemma read_message_lines args ls fin parser' w :
  w_out_file w = None →
  (truthy (out_file args) = true → capture_file_takes rt args ls) →
  feed_all rt (p_new (rt_parser rt)) ls = inr parser' →
  read_message rt args (stdin_of ls fin) w
  = (parser ← read_stdin rt parser' fin; lift (p_close (rt_parser rt) parser))
      (read_world args w ls).
Proof.
  intros Hnone Hfile Hfeed. unfold read_message, read_world.
  destruct w as [log err out]; simpl in Hnone; subst out.
  destruct (truthy (out_file args)) eqn:Ht.
  - destruct (Hfile eq_refl) as [Hopen Hwrite].
    unfold mbind at 1, M_bind at 1, file_open. rewrite Hopen.
    unfold set_out_file at 1. cbn [w_log w_stderr w_out_file].
    unfold mbind at 1, M_bind at 1, logger_log at 1. cbn [w_log w_stderr w_out_file].
    unfold mbind at 1, M_bind at 1.
    rewrite (read_stdin_lines rt ls fin _ parser' _ (or_intror Hwrite) Hfeed).
    unfold after_lines. cbn [w_log w_stderr w_out_file app].
    rewrite <- app_assoc. reflexivity.
  - unfold mbind at 1, M_bind at 1, mret at 1, M_ret at 1.
    unfold mbind at 1, M_bind at 1, logger_log at 1. cbn [w_log w_stderr w_out_file].
    unfold mbind at 1, M_bind at 1.
    rewrite (read_stdin_lines rt ls fin _ parser'
               (mkWorld (log ++ [(INFO, lit "stdin:")]) err None) (or_introl eq_refl) Hfeed).
    unfold after_lines. cbn [w_log w_stderr w_out_file app].
    rewrite <- app_assoc. reflexivity.
Qed.

(** The [try] block on an input of the lines [ls]: the message is parsed
    and rendered in the world the reading left. *)
Lemma process_stdin_lines args ls parser' w :
  w_out_file w = None →
  (truthy (out_file args) = true → capture_file_takes rt args ls) →
  feed_all rt (p_new (rt_parser rt)) ls = inr parser' →
  ∃ r rendered,
    process_stdin rt args (stdin_of ls Eof) w = (r, add_log (read_world args w ls) rendered).
Proof.
  intros Hnone Hfile Hfeed. unfold process_stdin.
  unfold mbind at 1, M_bind at 1.
  rewrite (read_message_lines args ls Eof parser' w Hnone Hfile Hfeed).
  cbn [read_stdin]. unfold mbind at 1, M_bind at 1, mret at 1, M_ret at 1, lift at 1.
  destruct (p_close (rt_parser rt) parser') as [e|msg].
  - exists (inl e), []. unfold add_log. by rewrite app_nil_r.
  - destruct (logger_only_dump_email rt msg INFO [] (lit "  ")) as (r & rendered & Hr).
    exists r, rendered. apply Hr.
Qed.

(** The [try] block on an input whose read raises [e] after the lines
    [ls]: the exception reaches the handler in the world the reading left. *)
Lemma process_stdin_read_error args ls e parser' w :
  w_out_file w = None →
  (truthy (out_file args) = true → capture_file_takes rt args ls) →
  feed_all rt (p_new (rt_parser rt)) ls = inr parser' →
  process_stdin rt args (stdin_of ls (ReadError e)) w = (inl e, read_world args w ls).
Proof.
  intros Hnone Hfile Hfeed. unfold process_stdin.
  unfold mbind at 1, M_bind at 1.
  by rewrite (read_message_lines args ls (ReadError e) parser' w Hnone Hfile Hfeed).
Qed.

(** Reading only adds to the log, and neither opens nor drops the capture
    file. *)
Lemma read_stdin_world stdin : ∀ parser w r w',
  read_stdin rt parser stdin w = (r, w') →
  (∃ ls, w_log w' = w_log w ++ ls)
  ∧ is_file (w_out_file w') = is_file (w_out_file w).
Proof.
  induction stdin as [|line rest IH|e]; intros parser w r w' Hrun.
  - inversion Hrun; subst. split; [exists []; by rewrite app_nil_r|done].
  - cbn [read_stdin] in Hrun.
    unfold mbind at 1, M_bind at 1, get_out_file at 1 in Hrun.
    assert (∀ w1, is_file (w_out_file w1) = is_file (w_out_file w) →
                  w_log w1 = w_log w →
                  (parser' ← lift (p_feed (rt_parser rt) parser line);
                   logf INFO ">>> {}" [FStr (rstrip line)];;
                   read_stdin rt parser' rest) w1 = (r, w') →
                  (∃ ls, w_log w' = w_log w ++ ls)
                  ∧ is_file (w_out_file w') = is_file (w_out_file w)) as Hrest.
    { intros w1 Hf Hl H1. unfold mbind at 1, M_bind at 1, lift at 1 in H1.
      destruct (p_feed (rt_parser rt) parser line) as [e|parser1].
      - inversion H1; subst. split; [exists []; by rewrite app_nil_r, Hl|done].
      - unfold mbind at 1, M_bind at 1 in H1. rewrite log_echo in H1.
        apply IH in H1 as [[ls Hls] Hfile]. split.
        + exists ((INFO, echo line) :: ls). rewrite Hls. unfold add_log. simpl.
          by rewrite Hl, <- app_assoc.
        + by rewrite Hfile. }
    destruct w as [log err [written|]]; cbn [w_out_file is_file] in Hrun.
    + unfold mbind at 1, M_bind at 1, file_write in Hrun.
      unfold mbind at 1, M_bind at 1, get_out_file at 1 in Hrun.
      cbn [w_out_file default] in Hrun. unfold id in Hrun.
      destruct (rt_write rt written line) as [e|].
      * inversion Hrun; subst.
        split; [exists []; by rewrite app_nil_r|done].
      * by apply Hrest in Hrun.
    + unfold mbind at 1, M_bind at 1, mret at 1, M_ret at 1 in Hrun.
      by apply Hrest in Hrun.
  - inversion Hrun; subst. split; [exists []; by rewrite app_nil_r|done].
Qed.

(** What the [try] block does once the capture file is settled. *)
Lemma read_and_render_world stdin w r w2 :
  ((logger_log INFO (lit "stdin:");;
    parser ← read_stdin rt (p_new (rt_parser rt)) stdin;
    lift (p_close (rt_parser rt) parser))
   ≫= λ msg, dump_email_to_logger rt msg INFO [] (lit "  ")) w = (r, w2) →
  (∃ ls, w_log w2 = w_log w ++ ls)
  ∧ is_file (w_out_file w2) = is_file (w_out_file w).
Proof.
  unfold mbind at 1, M_bind at 1. unfold mbind at 1, M_bind at 1.
  unfold logger_log at 1. unfold mbind at 1, M_bind at 1.
  destruct (read_stdin rt (p_new (rt_parser rt)) stdin
              (mkWorld (w_log w ++ [(INFO, lit "stdin:")]) (w_stderr w) (w_out_file w)))
    as [rp w3] eqn:Hread.
  apply read_stdin_world in Hread as [[ls Hls] Hfile]. simpl in Hls, Hfile.
  destruct rp as [e|parser].
  - intros Hrun. inversion Hrun; subst.
    split; [exists ((INFO, lit "stdin:") :: ls); by rewrite Hls, <- app_assoc|done].
  - unfold lift. destruct (p_close (rt_parser rt) parser) as [e|msg].
    + intros Hrun. inversion Hrun; subst.
      split; [exists ((INFO, lit "stdin:") :: ls); by rewrite Hls, <- app_assoc|done].
    + destruct (logger_only_dump_email rt msg INFO [] (lit "  ")) as (rd & rendered & Hr).
      rewrite Hr. unfold add_log. intros Hrun. inversion Hrun; subst. simpl. split.
      * exists ((INFO, lit "stdin:") :: ls ++ rendered).
        rewrite Hls, <- !app_assoc. reflexivity.
      * done.
Qed.

(** The [try] block only adds to the log; it leaves a capture file open
    exactly when one is configured and could be opened. *)
Lemma process_stdin_world args stdin w r w2 :
  w_out_file w = None →
  process_stdin rt args stdin w = (r, w2) →
  (∃ ls, w_log w2 = w_log w ++ ls)
  ∧ is_file (w_out_file w2)
    = truthy (out_file args)
      && bool_decide (rt_open rt (default [] (out_file args)) = None).
Proof.
  intros Hnone Hrun. destruct w as [log err out]; simpl in Hnone; subst out.
  unfold process_stdin, read_message in Hrun.
  unfold mbind at 1, M_bind at 1 in Hrun. unfold mbind at 1, M_bind at 1 in Hrun.
  destruct (truthy (out_file args)) eqn:Ht.
  - unfold file_open in Hrun.
    destruct (rt_open rt (default [] (out_file args))) as [e|] eqn:Hopen.
    + inversion Hrun; subst. split; [exists []; by rewrite app_nil_r|done].
    + unfold set_out_file at 1 in Hrun. cbn [w_log w_stderr] in Hrun.
      by apply (read_and_render_world stdin (mkWorld log err (Some []))) in Hrun.
  - unfold mret at 1, M_ret at 1 in Hrun.
    by apply (read_and_render_world stdin (mkWorld log err None)) in Hrun.
Qed.
End Capture.

(** X11.  Every line of the input is echoed to the log behind [>>> ],
    without its trailing whitespace, after the record [stdin:], and is
    written as it is to the capture file when one is configured; this
    holds whether or not the message can then be parsed and rendered. *)
Theorem input_is_captured_and_echoed rt args ls parser' w :
  sys_info_available (rt_sys rt) →
  (truthy (out_file args) = true → capture_file_takes rt args ls) →
  feed_all rt (p_new (rt_parser rt)) ls = inr parser' →
  ∃ rest,
    capture_mail rt args (stdin_of ls Eof) w
    = (inr (exit_status args),
       mkWorld (w_log w ++ startup_log rt
                ++ (INFO, lit "stdin:")
                   :: tag INFO ((λ line, lit ">>> " ++ rstrip line) <$> ls)
                ++ rest)
               (w_stderr w ++ bounce_lines args)
               (if truthy (out_file args) then Some ls else None)).
Proof.
  intros Hsys Hfile Hfeed.
  destruct (process_stdin_lines rt args ls parser'
              (mkWorld (w_log w ++ startup_log rt) (w_stderr w) None) eq_refl Hfile Hfeed)
    as (r & rendered & Hrun).
  rewrite (capture_mail_run rt args _ w (startup_log rt) r _
             (writes_startup_log rt Hsys) Hrun).
  eexists (rendered ++ handling_entries rt r ++ closing_entries rt _).
  unfold add_log, read_world. cbn [w_log w_stderr w_out_file].
  f_equal. f_equal. rewrite <- !app_assoc. cbn [app]. rewrite <- ?app_assoc. reflexivity.
Qed.

Lemma input_is_captured_and_echoed_witness :
  let rt := sample_runtime plain_mail None in
  let args := mkArgs None false (Some (lit "/var/capture.eml")) (lit "UTF-8") false in
  let ls := [lit "Subject: hi" ++ [LF]; [LF]; lit "hello" ++ [LF]] in
  sys_info_available (rt_sys rt)
  ∧ (truthy (out_file args) = true → capture_file_takes rt args ls)
  ∧ feed_all rt (p_new (rt_parser rt)) ls = inr ()
  ∧ ∃ rest,
      capture_mail rt args sample_stdin empty_world
      = (inr 0,
         mkWorld (startup_log rt
                  ++ tag INFO [lit "stdin:"; lit ">>> Subject: hi"; lit ">>> "; lit ">>> hello"]
                  ++ rest)
                 [] (Some ls)).
Proof.
  intros rt args ls.
  assert (truthy (out_file args) = true → capture_file_takes rt args ls) as Hfile.
  { intros _. by split. }
  split; [apply sample_sys_available|]. split; [exact Hfile|]. split; [reflexivity|].
  destruct (input_is_captured_and_echoed rt args ls () empty_world
              sample_sys_available Hfile eq_refl) as [rest Hrest].
  exists rest. exact Hrest.
Defined.

(** X12.  When reading the input raises after some lines, those lines are
    echoed and captured as usual, nothing is rendered, the exception is
    logged by the handler of the [try] statement, the capture file is
    closed, and the exit status is the one the bounce flag asks for. *)
Theorem read_error_is_reported rt args ls e parser' w :
  sys_info_available (rt_sys rt) →
  (truthy (out_file args) = true → capture_file_takes rt args ls) →
  feed_all rt (p_new (rt_parser rt)) ls = inr parser' →
  capture_mail rt args (stdin_of ls (ReadError e)) w
  = (inr (exit_status args),
     mkWorld (w_log w ++ startup_log rt
              ++ (INFO, lit "stdin:")
                 :: tag INFO ((λ line, lit ">>> " ++ rstrip line) <$> ls)
              ++ error_entries rt "Exception raised during handling stdin (" e
              ++ closing_entries rt (if truthy (out_file args) then Some ls else None))
             (w_stderr w ++ bounce_lines args)
             (if truthy (out_file args) then Some ls else None)).
Proof.
  intros Hsys Hfile Hfeed.
  rewrite (capture_mail_run rt args _ w (startup_log rt) (inl e) _
             (writes_startup_log rt Hsys)
             (process_stdin_read_error rt args ls e parser'
                (mkWorld (w_log w ++ startup_log rt) (w_stderr w) None)
                eq_refl Hfile Hfeed)).
  unfold read_world, handling_entries. cbn [w_log w_stderr w_out_file].
  f_equal. f_equal. rewrite <- !app_assoc. reflexivity.
Qed.


Lemma read_error_is_reported_witness :
  let rt := sample_runtime plain_mail None in
  let args := mkArgs None true None (lit "UTF-8") false in
  let ls := [lit "Subject: hi" ++ [LF]; [LF]] in
  sys_info_available (rt_sys rt)
  ∧ (truthy (out_file args) = true → capture_file_takes rt args ls)
  ∧ feed_all rt (p_new (rt_parser rt)) ls = inr ()
  ∧ capture_mail rt args (stdin_of ls (ReadError UnicodeDecodeError_stdin)) empty_world
    = (inr 1,
       mkWorld (startup_log rt
                ++ tag INFO [lit "stdin:"; lit ">>> Subject: hi"; lit ">>> "]
                ++ error_entries rt "Exception raised during handling stdin ("
                     UnicodeDecodeError_stdin)
               [lit "5.999.999 Testing Error Message" ++ [LF]] None).
Proof.
  intros rt args ls.
  assert (truthy (out_file args) = true → capture_file_takes rt args ls) as Hfile.
  { intros _. by split. }
  split; [apply sample_sys_available|]. split; [exact Hfile|]. split; [reflexivity|].
  rewrite (read_error_is_reported rt args ls UnicodeDecodeError_stdin () empty_world
             sample_sys_available Hfile eq_refl).
  cbn [truthy out_file args closing_entries]. by rewrite app_nil_r.
Defined.


(** ** Closing the capture file *)

(** X14.  Once the capture file was opened, the [finally] clause closes it
    whatever the [try] block did; an exception of the close is logged as
    an error after the records of the block and its handler, and changes
    neither the exit status nor the bounce line. *)
Theorem capture_file_is_closed rt args stdin w :
  sys_info_available (rt_sys rt) →
  truthy (out_file args) = true →
  rt_open rt (default [] (out_file args)) = None →
  ∃ r w2 written,
    process_stdin rt args stdin (mkWorld (w_log w ++ startup_log rt) (w_stderr w) None)
    = (r, w2)
    ∧ w_out_file w2 = Some written
    ∧ capture_mail rt args stdin w
      = (inr (exit_status args),
         mkWorld (w_log w2 ++ handling_entries rt r
                  ++ match rt_close rt written with
                     | Some e =>
                         error_entries rt "Exception raised during closing out_File (" e
                     | None => []
                     end)
                 (w_stderr w ++ bounce_lines args) (Some written)).
Proof.
  intros Hsys Ht Hopen.
  destruct (process_stdin rt args stdin
              (mkWorld (w_log w ++ startup_log rt) (w_stderr w) None)) as [r w2] eqn:Hrun.
  pose proof Hrun as Hw. apply process_stdin_world in Hw as [_ Hf]; [|done].
  rewrite Ht, Hopen in Hf. destruct (w_out_file w2) as [written|] eqn:Hout; [|done].
  exists r, w2, written. split; [done|]. split; [done|].
  rewrite (capture_mail_run rt args _ w (startup_log rt) r _
             (writes_startup_log rt Hsys) Hrun).
  by rewrite Hout.
Qed.

Lemma capture_file_is_closed_witness :
  let rt := close_fails_runtime plain_mail in
  let args := mkArgs None true (Some (lit "/var/capture.eml")) (lit "UTF-8") false in
  sys_info_available (rt_sys rt)
  ∧ truthy (out_file args) = true
  ∧ rt_open rt (default [] (out_file args)) = None
  ∧ ∃ before written,
      capture_mail rt args sample_stdin empty_world
      = (inr 1,
         mkWorld (before
                  ++ error_entries rt "Exception raised during closing out_File ("
                       OSError_close)
                 [lit "5.999.999 Testing Error Message" ++ [LF]] (Some written)).
Proof.
  intros rt args.
  split; [apply sample_sys_available|]. split; [reflexivity|]. split; [reflexivity|].
  destruct (capture_file_is_closed rt args sample_stdin empty_world
              sample_sys_available eq_refl eq_refl) as (r & w2 & written & _ & _ & Hrun).
  exists (w_log w2 ++ handling_entries rt r), written.
  rewrite Hrun. cbn [rt_close rt close_fails_runtime]. by rewrite <- app_assoc.
Defined.

(** ** Running without a capture file *)

(** One turn of the reading loop without a capture file. *)
Lemma read_stdin_line_no_file rt parser line rest w :
  w_out_file w = None →
  read_stdin rt parser (Line line rest) w
  = match p_feed (rt_parser rt) parser line with
    | inl e => (inl e, w)
    | inr parser' => read_stdin rt parser' rest (add_log w [(INFO, echo line)])
    end.
Proof.
  intros Hnone. destruct w as [log err out]; simpl in Hnone; subst out.
  cbn [read_stdin]. unfold mbind at 1, M_bind at 1, get_out_file at 1.
  cbn [w_out_file is_file].
  unfold mbind at 1, M_bind at 1, mret at 1, M_ret at 1.
  unfold mbind at 1, M_bind at 1, lift at 1.
  destruct (p_feed (rt_parser rt) parser line) as [e|parser1]; [done|].
  unfold mbind at 1, M_bind at 1. by rewrite log_echo.
Qed.

Section NoCaptureFile.
Variable rt : Runtime.
Variable open' : str → option Exn.
Variable write' : list str → str → option Exn.
Variable close' : list str → option Exn.

Lemma read_stdin_no_file stdin : ∀ (parser : p_state (rt_parser rt)) w,
  w_out_file w = None →
  read_stdin (with_files rt open' write' close') parser stdin w
  = read_stdin rt parser stdin w.
Proof.
  induction stdin as [|line rest IH|e]; intros parser w Hnone; [done| |done].
  rewrite (read_stdin_line_no_file rt), (read_stdin_line_no_file (with_files _ _ _ _))
    by done.
  change (rt_parser (with_files rt open' write' close')) with (rt_parser rt).
  destruct (p_feed (rt_parser rt) parser line) as [e|parser1]; [done|].
  by apply IH.
Qed.

Lemma process_stdin_no_file args stdin w :
  truthy (out_file args) = false →
  w_out_file w = None →
  process_stdin (with_files rt open' write' close') args stdin w
  = process_stdin rt args stdin w.
Proof.
  intros Ht Hnone. unfold process_stdin, read_message. rewrite Ht.
  apply M_bind_ext; [|reflexivity].
  unfold mbind at 1 4, M_bind at 1 4, mret, M_ret.
  unfold mbind at 1 3, M_bind at 1 3, logger_log.
  apply M_bind_ext; [|reflexivity].
  by apply read_stdin_no_file.
Qed.
End NoCaptureFile.

(** X15.  Without a capture file in the arguments ([None] or the empty
    string) no file is opened, written to or closed: the run is the same
    whatever the file operations would do, and it ends without a file. *)
Theorem no_capture_file_no_file_operation rt args stdin w open' write' close' :
  sys_info_available (rt_sys rt) →
  truthy (out_file args) = false →
  capture_mail (with_files rt open' write' close') args stdin w
  = capture_mail rt args stdin w
  ∧ w_out_file (capture_mail rt args stdin w).2 = None.
Proof.
  intros Hsys Ht.
  destruct (process_stdin rt args stdin
              (mkWorld (w_log w ++ startup_log rt) (w_stderr w) None)) as [r w2] eqn:Hrun.
  pose proof Hrun as Hw. apply process_stdin_world in Hw as [_ Hf]; [|done].
  rewrite Ht in Hf. destruct (w_out_file w2) as [written|] eqn:Hout; [done|].
  rewrite (capture_mail_run rt args _ w (startup_log rt) r _
             (writes_startup_log rt Hsys) Hrun).
  split; [|done].
  rewrite <- (process_stdin_no_file rt open' write' close') in Hrun by done.
  rewrite (capture_mail_run (with_files rt open' write' close') args _ w
             (startup_log rt) r _ (writes_startup_log rt Hsys) Hrun).
  rewrite Hout. reflexivity.
Qed.

Lemma no_capture_file_no_file_operation_witness :
  let rt := sample_runtime plain_mail None in
  let args := mkArgs None false (Some []) (lit "UTF-8") false in
  sys_info_available (rt_sys rt)
  ∧ truthy (out_file args) = false
  ∧ capture_mail (with_files rt (λ _, Some PermissionError) (λ _ _, Some PermissionError)
                    (λ _, Some PermissionError)) args sample_stdin empty_world
    = capture_mail rt args sample_stdin empty_world
  ∧ w_out_file (capture_mail rt args sample_stdin empty_world).2 = None.
Proof.
  intros rt args.
  split; [apply sample_sys_available|]. split; [reflexivity|].
  exact (no_capture_file_no_file_operation rt args sample_stdin empty_world
           (λ _, Some PermissionError) (λ _ _, Some PermissionError)
           (λ _, Some PermissionError) sample_sys_available eq_refl).
Defined.

(** ** The entry point *)





(** ** The system facts *)

Lemma split_nl_lines s : Forall (λ l, LF ∉ l) (split_nl s).
Proof.
  induction s as [|c s IH]; simpl.
  - constructor; [apply not_elem_of_nil|constructor].
  - destruct (N.eqb_spec c LF) as [->|Hc].
    + constructor; [apply not_elem_of_nil|exact IH].
    + destruct (split_nl s) as [|l ls]; inversion IH; subst.
      * constructor; [|done]. intros H. apply list_elem_of_singleton in H. done.
      * constructor; [|done]. intros H. apply elem_of_cons in H as [H|H]; [by subst|done].
Qed.

Lemma join_lines sep l :
  LF ∉ sep → Forall (λ s, LF ∉ s) l → LF ∉ join sep l.
Proof.
  intros Hsep. induction 1 as [|s l Hs Hl IH]; [apply not_elem_of_nil|].
  destruct l as [|s' l']; [done|].
  change (join sep (s :: s' :: l')) with (s ++ sep ++ join sep (s' :: l')).
  rewrite !elem_of_app. tauto.
Qed.

(** X17.  With the working directory and the names of the user and group
    ids at hand, the system dump returns after exactly twelve records, in
    the order of the source; the ids are shown in decimal before their
    names, and the interpreter's version text is shown on one line, its
    newlines replaced by spaces. *)
Theorem system_info_lines rt level cwd u eu g eg :
  os_getcwd (rt_sys rt) = inr cwd →
  pwd_getpwuid (rt_sys rt) (os_getuid (rt_sys rt)) = inr u →
  pwd_getpwuid (rt_sys rt) (os_geteuid (rt_sys rt)) = inr eu →
  grp_getgrgid (rt_sys rt) (os_getgid (rt_sys rt)) = inr g →
  grp_getgrgid (rt_sys rt) (os_getegid (rt_sys rt)) = inr eg →
  writes (dump_system_info_to_logger rt level) (inr ())
    (tag level
       [lit "Showing system-info:";
        lit "- Python Version:      " ++ python_version (rt_sys rt) ++ lit " ("
          ++ join (lit " ") (split_nl (sys_version (rt_sys rt))) ++ lit ")";
        lit "- platform.platform(): " ++ platform_platform (rt_sys rt);
        lit "- os.getcwd():    " ++ cwd;
        lit "- os.getuid():    " ++ str_of_nat (os_getuid (rt_sys rt))
          ++ lit " (" ++ u ++ lit ")";
        lit "- os.geteuid():   " ++ str_of_nat (os_geteuid (rt_sys rt))
          ++ lit " (" ++ eu ++ lit ")";
        lit "- os.getgid():    " ++ str_of_nat (os_getgid (rt_sys rt))
          ++ lit " (" ++ g ++ lit ")";
        lit "- os.getegid():   " ++ str_of_nat (os_getegid (rt_sys rt))
          ++ lit " (" ++ eg ++ lit ")";
        lit "- sys.getdefaultencoding(): " ++ sys_getdefaultencoding (rt_sys rt);
        lit "- sys.stdin.encoding:       " ++ sys_stdin_encoding (rt_sys rt);
        lit "- sys.stdout.encoding:      " ++ sys_stdout_encoding (rt_sys rt);
        lit "- locale.getpreferredencoding(False): "
          ++ locale_getpreferredencoding (rt_sys rt)])
  ∧ LF ∉ join (lit " ") (split_nl (sys_version (rt_sys rt))).
Proof.
  intros Hcwd Hu Heu Hg Heg. split.
  - unfold dump_system_info_to_logger. cbv zeta. rewrite Hcwd, Hu, Heu, Hg, Heg.
    unfold tag. cbn [fmap list_fmap].
    eapply (writes_bind _ _ () [_]); [apply writes_log|].
    do 2 (eapply (writes_bind _ _ () [_]); [apply writes_logt; format_eval_facts|]).
    do 4 (eapply (writes_bind _ _ _ []); [apply writes_lift|];
          eapply (writes_bind _ _ () [_]); [apply writes_logt; format_eval_facts|]).
    eapply (writes_bind _ _ _ []); [apply writes_lift|].
    do 4 (eapply (writes_bind _ _ () [_]); [apply writes_logt; format_eval_facts|]).
    apply writes_logt; format_eval_facts.
  - apply join_lines; [|apply split_nl_lines].
    intros H. apply list_elem_of_singleton in H. done.
Qed.

Lemma system_info_lines_witness :
  let rt := sample_runtime plain_mail None in
  os_getcwd (rt_sys rt) = inr (lit "/var/spool/postfix")
  ∧ pwd_getpwuid (rt_sys rt) (os_getuid (rt_sys rt)) = inr (lit "nobody")
  ∧ pwd_getpwuid (rt_sys rt) (os_geteuid (rt_sys rt)) = inr (lit "nobody")
  ∧ grp_getgrgid (rt_sys rt) (os_getgid (rt_sys rt)) = inr (lit "nogroup")
  ∧ grp_getgrgid (rt_sys rt) (os_getegid (rt_sys rt)) = inr (lit "nogroup")
  ∧ dump_system_info_to_logger rt DEBUG empty_world
    = (inr (),
       mkWorld
         (tag DEBUG
            [lit "Showing system-info:";
             lit "- Python Version:      3.11.2 (3.11.2 (main) [GCC 12.2.0])";
             lit "- platform.platform(): Linux-6.1-x86_64-with-glibc2.36";
             lit "- os.getcwd():    /var/spool/postfix";
             lit "- os.getuid():    99 (nobody)";
             lit "- os.geteuid():   99 (nobody)";
             lit "- os.getgid():    99 (nogroup)";
             lit "- os.getegid():   99 (nogroup)";
             lit "- sys.getdefaultencoding(): utf-8";
             lit "- sys.stdin.encoding:       ANSI_X3.4-1968";
             lit "- sys.stdout.encoding:      ANSI_X3.4-1968";
             lit "- locale.getpreferredencoding(False): ANSI_X3.4-1968"])
         [] None).
Proof.
  intros rt. do 5 (split; [reflexivity|]).
  exact (proj1 (system_info_lines rt DEBUG _ _ _ _ _ eq_refl eq_refl eq_refl eq_refl eq_refl)
           empty_world).
Defined.
